(** * Vectoria: HNSW graph engine and re-embedding migration

    Shallow embedding of [src/src/lib/hnsw.ts] (class [HNSWIndex]) and of
    [src/src/lib/migration.ts] (class [MigrationManager]) together with the
    parts of [src/src/index.ts] they use or are used by ([Vectoria.init],
    [addDocument], [indexDocuments], [saveIndex] and the brute-force
    [search]), with the IndexedDB [VectorStore] of [src/unnamed/part_001]
    as three object stores held in the instance's state.

    Modelling choices.
    - [Map<string, Node>] is an association list kept in insertion order
      ([Map.set] of an existing key keeps its position), because [toJSON]
      enumerates the map in that order.
    - Node objects are never replaced in the map after insertion, so a
      mutation [node.neighbors[l] = ...] through a reference is an update of
      the map entry under the node's key.
    - Exceptions keep the mutations made before them: [addPoint] runs in a
      state and error monad whose failures still return the current graph.
    - The three [while] loops get a step bound [fuel]; running out of it is
      the outcome [OutOfFuel].  The program's result is the result for any
      sufficiently large [fuel], so every theorem below quantifies over all
      [fuel].
    - JavaScript numbers used as vector lanes and as [levelMultiplier] are an
      abstract type [Num]; Float32 lanes are an abstract type [F32]; the
      cosine similarity [dist] is abstract and returns a score in [Z] (scores
      are compared only, never combined). NaN scores are out of scope.
    - [getRandomLevel()] is an oracle: its result is an argument of
      [addPoint]; its loop over [Math.random()] draws is modelled on its own
      with the draws as an argument.
    - The graph parameters are [nat]s: [config.M || 16] and its siblings. *)

From Stdlib Require Import String List Bool Arith ZArith Lia Permutation.
Import ListNotations.

Module HNSW.

Inductive err : Type :=
| DuplicateId   (* throw new Error(`Node with id ... already exists`) *)
| TypeError     (* dereference of undefined *)
| OutOfFuel.    (* step bound of a while loop exhausted *)

Inductive res (A : Type) : Type :=
| Ok (a : A)
| Err (e : err).
Arguments Ok {A} a.
Arguments Err {A} e.

Section Graph.

Context {Num F32 : Type}.
(** [new Float32Array(number[])], lane by lane. *)
Variable to_f32 : Num -> F32.
(** [Array.from(Float32Array)], lane by lane. *)
Variable of_f32 : F32 -> Num.
(** [HNSWIndex.dist]: cosine similarity, higher is better. *)
Variable dist : list F32 -> list F32 -> Z.
(** JavaScript truthiness of a number (false on 0, -0 and NaN). *)
Variable num_truthy : Num -> bool.
(** [1 / Math.log(M)]. *)
Variable inv_log : nat -> Num.

(** ** Data model *)

Record Node : Type := mkNode {
  id : string;
  vector : list F32;
  level : nat;
  neighbors : list (list string)
}.

Record HNSWIndex : Type := mkHNSW {
  nodes : list (string * Node);
  entryPointId : option string;
  M : nat;
  efConstruction : nat;
  efSearch : nat;
  levelMultiplier : Num;
  maxLevel : nat
}.

(** [{ id: string; score: number }] *)
Record Cand : Type := mkCand { cid : string; score : Z }.

Definition set_nodes (g : HNSWIndex) (ns : list (string * Node)) : HNSWIndex :=
  mkHNSW ns (entryPointId g) (M g) (efConstruction g) (efSearch g)
    (levelMultiplier g) (maxLevel g).

Definition set_top (g : HNSWIndex) (ep : option string) (ml : nat) : HNSWIndex :=
  mkHNSW (nodes g) ep (M g) (efConstruction g) (efSearch g)
    (levelMultiplier g) ml.

(** ** [Map<string, Node>] *)

Fixpoint mget (m : list (string * Node)) (k : string) : option Node :=
  match m with
  | [] => None
  | (k', n) :: t => if String.eqb k k' then Some n else mget t k
  end.

Definition mhas (m : list (string * Node)) (k : string) : bool :=
  match mget m k with Some _ => true | None => false end.

Fixpoint mset (m : list (string * Node)) (k : string) (n : Node)
  : list (string * Node) :=
  match m with
  | [] => [(k, n)]
  | (k', n') :: t =>
      if String.eqb k k' then (k', n) :: t else (k', n') :: mset t k n
  end.

(** [Set<string>]: membership and [add] (appends a new element). *)
Definition smem (x : string) (s : list string) : bool :=
  existsb (String.eqb x) s.

Definition sadd (x : string) (s : list string) : list string :=
  if smem x s then s else s ++ [x].

(** [a[i] = x] for an index inside the array (every call site below writes
    an index the array already has). *)
Fixpoint upd_nth {A} (l : list A) (i : nat) (x : A) : list A :=
  match l, i with
  | [], _ => []
  | _ :: t, 0 => x :: t
  | h :: t, S i' => h :: upd_nth t i' x
  end.

(** ** Sorting: [arr.sort((a, b) => b.score - a.score)]

    [Array.prototype.sort] is stable, so with this consistent comparator the
    result is the stable sort by descending score; insertion sort computes
    it. *)

Fixpoint insert_desc (x : Cand) (l : list Cand) : list Cand :=
  match l with
  | [] => [x]
  | y :: t => if (score y <? score x)%Z then x :: l else y :: insert_desc x t
  end.

Definition sort_desc (l : list Cand) : list Cand :=
  fold_left (fun acc x => insert_desc x acc) l [].

(** [selectNeighbors]: [candidates.sort(...).slice(0, M)]. *)
Definition selectNeighbors (candidates : list Cand) (m : nat) : list Cand :=
  firstn m (sort_desc candidates).

Fixpoint last_opt {A} (l : list A) : option A :=
  match l with
  | [] => None
  | [x] => Some x
  | _ :: t => last_opt t
  end.

(** ** [searchLayer] *)

(** The [for (const neighborId of neighbors)] loop.  [f] is the worst
    element of [W] read before the loop; the code does not refresh it. *)
Fixpoint sl_inner (g : HNSWIndex) (query : list F32) (ef : nat) (f : Cand)
    (nbrs : list string) (v : list string) (C W : list Cand)
  : res (list string * list Cand * list Cand) :=
  match nbrs with
  | [] => Ok (v, C, W)
  | nid :: rest =>
      if smem nid v then sl_inner g query ef f rest v C W
      else
        let v := v ++ [nid] in
        match mget (nodes g) nid with
        | None => Err TypeError
        | Some neighbor =>
            let s := dist query (vector neighbor) in
            if (length W <? ef) || (score f <? s)%Z then
              let e := mkCand nid s in
              let C := C ++ [e] in
              let W := sort_desc (W ++ [e]) in
              let W := if ef <? length W then removelast W else W in
              sl_inner g query ef f rest v C W
            else sl_inner g query ef f rest v C W
        end
  end.

(** The [while (C.length > 0)] loop. *)
Fixpoint sl_loop (g : HNSWIndex) (query : list F32) (ef lvl : nat)
    (fuel : nat) (v : list string) (C W : list Cand) : res (list Cand) :=
  match C with
  | [] => Ok W
  | _ :: _ =>
      match fuel with
      | 0 => Err OutOfFuel
      | S fuel' =>
          match sort_desc C with
          | [] => Err TypeError
          | c :: C' =>
              let W := sort_desc W in
              match last_opt W with
              | None => Err TypeError
              | Some f =>
                  if (score c <? score f)%Z && (ef <=? length W) then Ok W
                  else
                    match mget (nodes g) (cid c) with
                    | None => Err TypeError
                    | Some cNode =>
                        match nth_error (neighbors cNode) lvl with
                        | None => Err TypeError
                        | Some nbrs =>
                            match sl_inner g query ef f nbrs v C' W with
                            | Err e => Err e
                            | Ok (v', C'', W') =>
                                sl_loop g query ef lvl fuel' v' C'' W'
                            end
                        end
                    end
              end
          end
      end
  end.

(** [entry] is [None] when the caller passes [undefined]. *)
Definition searchLayer (g : HNSWIndex) (query : list F32) (entry : option Node)
    (ef lvl fuel : nat) : res (list Cand) :=
  match entry with
  | None => Err TypeError
  | Some e =>
      let c0 := mkCand (id e) (dist query (vector e)) in
      sl_loop g query ef lvl fuel [id e] [c0] [c0]
  end.

(** ** Greedy hill-climb (beam width 1) on one layer *)

Fixpoint scan (g : HNSWIndex) (query : list F32) (nbrs : list string)
    (best : option Node) (bestDist : Z) : res (option Node * Z) :=
  match nbrs with
  | [] => Ok (best, bestDist)
  | nid :: rest =>
      match mget (nodes g) nid with
      | None => Err TypeError
      | Some nb =>
          let d := dist query (vector nb) in
          if (bestDist <? d)%Z then scan g query rest (Some nb) d
          else scan g query rest best bestDist
      end
  end.

Fixpoint greedy (g : HNSWIndex) (query : list F32) (l fuel : nat)
    (curr : Node) (currDist : Z) : res (Node * Z) :=
  match fuel with
  | 0 => Err OutOfFuel
  | S fuel' =>
      match nth_error (neighbors curr) l with
      | None => Err TypeError
      | Some nbrs =>
          match scan g query nbrs None currDist with
          | Err e => Err e
          | Ok (None, _) => Ok (curr, currDist)
          | Ok (Some b, bd) => greedy g query l fuel' b bd
          end
      end
  end.

(** [hi, hi-1, ..., hi-n+1]: the layers of [for (l = hi; ...; l--)]. *)
Definition layers_from (hi n : nat) : list nat :=
  map (fun i => hi - i) (seq 0 n).

Fixpoint descend (g : HNSWIndex) (query : list F32) (fuel : nat)
    (ls : list nat) (curr : Node) (d : Z) : res (Node * Z) :=
  match ls with
  | [] => Ok (curr, d)
  | l :: ls' =>
      match greedy g query l fuel curr d with
      | Err e => Err e
      | Ok (c', d') => descend g query fuel ls' c' d'
      end
  end.

(** ** State and error monad for the mutating [addPoint] *)

Definition st (A : Type) : Type := HNSWIndex -> HNSWIndex * res A.

Definition st_ret {A} (a : A) : st A := fun g => (g, Ok a).

Definition st_bind {A B} (m : st A) (k : A -> st B) : st B :=
  fun g =>
    match m g with
    | (g', Ok a) => k a g'
    | (g', Err e) => (g', Err e)
    end.

Definition st_get : st HNSWIndex := fun g => (g, Ok g).

Definition st_lift {A} (r : res A) : st A := fun g => (g, r).

Local Notation "x <- m ;; k" := (st_bind m (fun x => k))
  (at level 61, m at next level, right associativity).

(** [node.neighbors[l] = lst] on the node stored under key [k]. *)
Definition set_nbrs (k : string) (l : nat) (lst : list string) : st unit :=
  fun g =>
    match mget (nodes g) k with
    | None => (g, Ok tt)
    | Some n =>
        (set_nodes g (mset (nodes g) k
           (mkNode (id n) (vector n) (level n) (upd_nth (neighbors n) l lst))),
         Ok tt)
    end.

(** [neighbor.neighbors[l].map(nid => ({ id: nid,
      score: this.dist(neighbor.vector, this.nodes.get(nid)!.vector) }))] *)
Fixpoint score_all (g : HNSWIndex) (nv : list F32) (lst : list string)
  : res (list Cand) :=
  match lst with
  | [] => Ok []
  | nid :: rest =>
      match mget (nodes g) nid with
      | None => Err TypeError
      | Some n =>
          match score_all g nv rest with
          | Err e => Err e
          | Ok cs => Ok (mkCand nid (dist nv (vector n)) :: cs)
          end
      end
  end.

(** One iteration of [for (const neighborInfo of neighbors)]: push the new
    id, record the neighbor as touched, shrink to the best [M]. *)
Definition link_neighbor (newId : string) (l : nat) (touched : list string)
    (ninfo : Cand) : st (list string) :=
  g <- st_get ;;
  match mget (nodes g) (cid ninfo) with
  | None => st_lift (Err TypeError)
  | Some neighbor =>
      match nth_error (neighbors neighbor) l with
      | None => st_lift (Err TypeError)
      | Some lst =>
          let lst' := lst ++ [newId] in
          _ <- set_nbrs (cid ninfo) l lst' ;;
          let touched := sadd (id neighbor) touched in
          if M g <? length lst' then
            g' <- st_get ;;
            cands <- st_lift (score_all g' (vector neighbor) lst') ;;
            _ <- set_nbrs (cid ninfo) l (map cid (selectNeighbors cands (M g))) ;;
            st_ret touched
          else st_ret touched
      end
  end.

Fixpoint link_all (newId : string) (l : nat) (sel : list Cand)
    (touched : list string) : st (list string) :=
  match sel with
  | [] => st_ret touched
  | ninfo :: rest =>
      touched <- link_neighbor newId l touched ninfo ;;
      link_all newId l rest touched
  end.

(** One iteration of [for (l = min(level, maxLevel); l >= 0; l--)]. *)
Definition connect_layer (newId : string) (floatVector : list F32)
    (fuel : nat) (l : nat) (currObj : option Node) (touched : list string)
  : st (option Node * list string) :=
  g <- st_get ;;
  W <- st_lift (searchLayer g floatVector currObj (efConstruction g) l fuel) ;;
  (* selectNeighbors sorts W in place *)
  let W := sort_desc W in
  let sel := firstn (M g) W in
  _ <- set_nbrs newId l (map cid sel) ;;
  touched <- link_all newId l sel touched ;;
  g' <- st_get ;;
  let currObj := match W with
                 | [] => currObj
                 | w :: _ => mget (nodes g') (cid w)
                 end in
  st_ret (currObj, touched).

Fixpoint connect_layers (newId : string) (floatVector : list F32)
    (fuel : nat) (ls : list nat) (currObj : option Node)
    (touched : list string) : st (list string) :=
  match ls with
  | [] => st_ret touched
  | l :: ls' =>
      p <- connect_layer newId floatVector fuel l currObj touched ;;
      connect_layers newId floatVector fuel ls' (fst p) (snd p)
  end.

(** ** [addPoint(id, vector)] with [getRandomLevel()] = [lvl] *)
Definition addPoint (newId : string) (vec : list Num) (lvl fuel : nat)
  : st (list string) :=
  fun g =>
    let floatVector := map to_f32 vec in
    if mhas (nodes g) newId then (g, Err DuplicateId)
    else
      let newNode := mkNode newId floatVector lvl (repeat [] (S lvl)) in
      let g1 := set_nodes g (mset (nodes g) newId newNode) in
      let touched := [newId] in
      match entryPointId g1 with
      | None => (set_top g1 (Some newId) lvl, Ok touched)
      | Some ep =>
          match mget (nodes g1) ep with
          | None => (g1, Err TypeError)
          | Some currObj =>
              let currDist := dist floatVector (vector currObj) in
              match descend g1 floatVector fuel
                      (layers_from (maxLevel g1) (maxLevel g1 - lvl))
                      currObj currDist with
              | Err e => (g1, Err e)
              | Ok (currObj', _) =>
                  let hi := Nat.min lvl (maxLevel g1) in
                  match connect_layers newId floatVector fuel
                          (layers_from hi (S hi)) (Some currObj') touched g1 with
                  | (g2, Err e) => (g2, Err e)
                  | (g2, Ok touched') =>
                      (if maxLevel g2 <? lvl then set_top g2 (Some newId) lvl
                       else g2, Ok touched')
                  end
              end
          end
      end.

(** [W.slice(0, k)] *)
Definition slice0 {A} (l : list A) (k : Z) : list A :=
  if (k <? 0)%Z then firstn (Z.to_nat (Z.of_nat (length l) + k)) l
  else firstn (Z.to_nat k) l.

(** ** [search(query, k)] *)
Definition search (g : HNSWIndex) (query : list Num) (k : Z) (fuel : nat)
  : res (list Cand) :=
  match entryPointId g with
  | None => Ok []
  | Some ep =>
      let queryVector := map to_f32 query in
      match mget (nodes g) ep with
      | None => Err TypeError
      | Some currObj =>
          let currDist := dist queryVector (vector currObj) in
          match descend g queryVector fuel
                  (layers_from (maxLevel g) (maxLevel g)) currObj currDist with
          | Err e => Err e
          | Ok (c, _) =>
              match searchLayer g queryVector (Some c) (efSearch g) 0 fuel with
              | Err e => Err e
              | Ok W => Ok (slice0 W k)
              end
          end
      end
  end.

(** ** Constructor, [toJSON], [fromJSON] *)

Record HNSWConfig : Type := mkConfig {
  cfgM : option nat;
  cfgEfConstruction : option nat;
  cfgEfSearch : option nat;
  cfgLevelMultiplier : option Num
}.

(** [x || d] on a count ([undefined] and [0] are falsy). *)
Definition or_nat (x : option nat) (d : nat) : nat :=
  match x with Some (S n) => S n | _ => d end.

Definition or_num (x : option Num) (d : Num) : Num :=
  match x with Some v => if num_truthy v then v else d | None => d end.

Definition new_index (config : HNSWConfig) : HNSWIndex :=
  let m := or_nat (cfgM config) 16 in
  mkHNSW [] None m (or_nat (cfgEfConstruction config) 200)
    (or_nat (cfgEfSearch config) 200)
    (or_num (cfgLevelMultiplier config) (inv_log m)) 0.

Record NodeJSON : Type := mkNodeJSON {
  jid : string;
  jvector : list Num;
  jlevel : nat;
  jneighbors : list (list string)
}.

Record IndexJSON : Type := mkIndexJSON {
  jM : nat;
  jefConstruction : nat;
  jefSearch : nat;
  jlevelMultiplier : Num;
  jmaxLevel : nat;
  jentryPointId : option string;
  jnodes : list NodeJSON
}.

Definition toJSON (g : HNSWIndex) : IndexJSON :=
  mkIndexJSON (M g) (efConstruction g) (efSearch g) (levelMultiplier g)
    (maxLevel g) (entryPointId g)
    (map (fun kn => mkNodeJSON (fst kn) (map of_f32 (vector (snd kn)))
                      (level (snd kn)) (neighbors (snd kn)))
       (nodes g)).

Definition fromJSON (json : IndexJSON) : HNSWIndex :=
  let index := new_index (mkConfig (Some (jM json)) (Some (jefConstruction json))
                 (Some (jefSearch json)) (Some (jlevelMultiplier json))) in
  let index := set_top index (jentryPointId json) (jmaxLevel json) in
  fold_left (fun idx nd =>
      set_nodes idx (mset (nodes idx) (jid nd)
        (mkNode (jid nd) (map to_f32 (jvector nd)) (jlevel nd) (jneighbors nd))))
    (jnodes json) index.

End Graph.

(** ** [getRandomLevel()]

    [while (Math.random() < this.levelMultiplier && level < 16) level++].
    [rand i] is the result of the [i]-th call of [Math.random()] made by this
    call (from [0]), and [lt] is [<] on numbers.  The condition reads
    [Math.random()] first, so the [i]-th test is made at [level = i]. *)
Section RandomLevel.
Context {Num : Type}.
Variable lt : Num -> Num -> bool.
Variable rand : nat -> Num.

(** The loop from [level]; it increments at most 16 times, so [17] steps
    always reach its exit. *)
Fixpoint rl_loop (steps : nat) (levelMultiplier : Num) (level : nat) : nat :=
  match steps with
  | 0 => level
  | S s =>
      if lt (rand level) levelMultiplier && (level <? 16)
      then rl_loop s levelMultiplier (S level)
      else level
  end.

Definition getRandomLevel (levelMultiplier : Num) : nat :=
  rl_loop 17 levelMultiplier 0.

End RandomLevel.

End HNSW.

(** * [MigrationManager] and [Vectoria.indexDocuments] *)
Module Migration.

Section Migration.

(** [Record<string, any>] is opaque to the core: [Meta].  [Graph] is the
    graph the indexer holds and [graphAddPoint] its [addPoint(id, embedding)];
    a result [inr g'] is a throw that leaves [g'] behind. *)
Context {Num Meta Graph : Type}.
Variable graphAddPoint : string -> list Num -> Graph -> Graph + Graph.

(** [VectorDocument] *)
Record VectorDocument : Type := mkDoc {
  id : string;
  text : string;
  metadata : option Meta;
  embedding : option (list Num);
  createdAt : Z
}.

(** The [documents] object store: key path [id]. *)
Definition DocStore : Type := list (string * VectorDocument).

Fixpoint dget (s : DocStore) (k : string) : option VectorDocument :=
  match s with
  | [] => None
  | (k', d) :: t => if String.eqb k k' then Some d else dget t k
  end.

Fixpoint dput (s : DocStore) (d : VectorDocument) : DocStore :=
  match s with
  | [] => [(id d, d)]
  | (k', d') :: t =>
      if String.eqb (id d) k' then (k', d) :: t else (k', d') :: dput t d
  end.

(** [VectorStore.addMany]: one [put] per document, in order. *)
Definition addMany (s : DocStore) (docs : list VectorDocument) : DocStore :=
  fold_left dput docs s.

(** [Vectoria.indexDocuments]: [addPoint] for every document that has an
    embedding (a throw aborts before anything is written), then [addMany]
    (node and meta persistence are not modelled). *)
Fixpoint index_points (docs : list VectorDocument) (g : Graph) : Graph + Graph :=
  match docs with
  | [] => inl g
  | d :: rest =>
      match embedding d with
      | None => index_points rest g
      | Some e =>
          match graphAddPoint (id d) e g with
          | inl g' => index_points rest g'
          | inr g' => inr g'
          end
      end
  end.

Definition indexDocuments (docs : list VectorDocument) (g : Graph) (s : DocStore)
  : (Graph * DocStore) + Graph :=
  match index_points docs g with
  | inl g' => inl (g', addMany s docs)
  | inr g' => inr g'
  end.

(** [batch.map((doc, idx) => ({ ...doc, embedding: newEmbeddings[idx] }))] *)
Definition with_embedding (doc : VectorDocument) (e : option (list Num))
  : VectorDocument :=
  mkDoc (id doc) (text doc) (metadata doc) e (createdAt doc).

Fixpoint update_batch_from (batch : list VectorDocument)
    (newEmbeddings : list (list Num)) (idx : nat) : list VectorDocument :=
  match batch with
  | [] => []
  | doc :: rest =>
      with_embedding doc (nth_error newEmbeddings idx)
        :: update_batch_from rest newEmbeddings (S idx)
  end.

Definition update_batch (batch : list VectorDocument)
    (newEmbeddings : list (list Num)) : list VectorDocument :=
  update_batch_from batch newEmbeddings 0.

(** [MigrationStatus] *)
Record MigrationStatus : Type := mkStatus {
  total : nat;
  processed : nat;
  lastProcessedId : option string;
  isComplete : bool;
  error : option string
}.

(** Where the body of [start] is suspended, with its locals [allDocs],
    [batchSize], [i], [processedCount] and [batch]. *)
Inductive Phase : Type :=
| Idle
| AwaitGetAll (batchSize : nat)
| AwaitReset (batchSize : nat) (allDocs : list VectorDocument)
| AwaitEmbed (batchSize : nat) (allDocs : list VectorDocument) (i pc : nat)
    (batch : list VectorDocument)
| AwaitIndex (batchSize : nat) (allDocs : list VectorDocument) (i pc : nat)
    (batch : list VectorDocument)
| AwaitYield (batchSize : nat) (allDocs : list VectorDocument) (i pc : nat).

Record Mgr : Type := mkMgr {
  status : MigrationStatus;
  isRunning : bool;
  shouldStop : bool;
  phase : Phase;
  (** the batches handed to [indexDocuments], oldest first *)
  submitted : list (list VectorDocument)
}.

(** Calls into the manager and completions of the awaited operations. *)
Inductive Event : Type :=
| EvStart (batchSize : nat)
| EvStop
| EvGetAllDone (docs : list VectorDocument)
| EvResetDone
| EvEmbedDone (newEmbeddings : list (list Num))
| EvIndexDone
| EvYieldDone
| EvFail (message : string).

Definition set_status (m : Mgr) (s : MigrationStatus) : Mgr :=
  mkMgr s (isRunning m) (shouldStop m) (phase m) (submitted m).

Definition set_phase (m : Mgr) (p : Phase) : Mgr :=
  mkMgr (status m) (isRunning m) (shouldStop m) p (submitted m).

(** [catch (e) { this.status.error = e.message; throw e }
     finally { this.isRunning = false }] *)
Definition fail_run (m : Mgr) (msg : string) : Mgr :=
  let s := status m in
  mkMgr (mkStatus (total s) (processed s) (lastProcessedId s) (isComplete s)
           (Some msg))
    false (shouldStop m) Idle (submitted m).

(** After the loop: [if (!this.shouldStop) this.status.isComplete = true],
    then [finally { this.isRunning = false }]. *)
Definition finish_run (m : Mgr) : Mgr :=
  let s := status m in
  let s' := if shouldStop m
            then s
            else mkStatus (total s) (processed s) (lastProcessedId s) true
                   (error s) in
  mkMgr s' false (shouldStop m) Idle (submitted m).

(** The [for] condition [i < allDocs.length], the [shouldStop] check, the
    batch slice and the call of [embedBatch]. *)
Definition loop_head (m : Mgr) (batchSize : nat) (allDocs : list VectorDocument)
    (i pc : nat) : Mgr :=
  if i <? length allDocs then
    if shouldStop m then finish_run m
    else set_phase m (AwaitEmbed batchSize allDocs i pc
                        (firstn batchSize (skipn i allDocs)))
  else finish_run m.

Definition step (m : Mgr) (ev : Event) : Mgr :=
  match ev, phase m with
  | EvStart bs, _ =>
      if isRunning m then m  (* throw new Error("Migration already running") *)
      else mkMgr (status m) true false (AwaitGetAll bs) (submitted m)
  | EvStop, _ =>
      mkMgr (status m) (isRunning m) true (phase m) (submitted m)
  | EvGetAllDone docs, AwaitGetAll bs =>
      let s := status m in
      set_phase
        (set_status m (mkStatus (length docs) (processed s) (lastProcessedId s)
                         (isComplete s) (error s)))
        (AwaitReset bs docs)
  | EvResetDone, AwaitReset bs docs => loop_head m bs docs 0 0
  | EvEmbedDone embs, AwaitEmbed bs docs i pc batch =>
      let updatedDocs := update_batch batch embs in
      mkMgr (status m) (isRunning m) (shouldStop m)
        (AwaitIndex bs docs i pc batch) (submitted m ++ [updatedDocs])
  | EvIndexDone, AwaitIndex bs docs i pc batch =>
      match HNSW.last_opt batch with
      | None => fail_run m "TypeError"  (* batch[batch.length - 1].id *)
      | Some lastDoc =>
          let pc' := pc + length batch in
          let s := status m in
          set_phase
            (set_status m (mkStatus (total s) pc' (Some (id lastDoc))
                             (isComplete s) (error s)))
            (AwaitYield bs docs i pc')
      end
  | EvYieldDone, AwaitYield bs docs i pc => loop_head m bs docs (i + bs) pc
  | EvFail msg, AwaitGetAll _ => fail_run m msg
  | EvFail msg, AwaitReset _ _ => fail_run m msg
  | EvFail msg, AwaitEmbed _ _ _ _ _ => fail_run m msg
  | EvFail msg, AwaitIndex _ _ _ _ _ => fail_run m msg
  | _, _ => m  (* no such completion is pending *)
  end.

Definition run (m : Mgr) (evs : list Event) : Mgr := fold_left step evs m.

End Migration.
End Migration.

(** * A concrete instance for evaluation: lanes are integers, both
    conversions are the identity and the score is the dot product. *)
Module Inst.

Fixpoint dot (a b : list Z) : Z :=
  match a, b with
  | x :: a', y :: b' => (x * y + dot a' b')%Z
  | _, _ => 0%Z
  end.

Definition Index : Type := @HNSW.HNSWIndex Z Z.

Definition addPoint := @HNSW.addPoint Z Z (fun x => x) dot.
Definition search := @HNSW.search Z Z (fun x => x) dot.
Definition searchLayer := @HNSW.searchLayer Z Z dot.

Definition config (m efs : option nat) : @HNSW.HNSWConfig Z :=
  HNSW.mkConfig m None efs None.

(** Truthiness of an integer lane, and a fixed [1 / Math.log(M)]. *)
Definition num_truthy (z : Z) : bool := negb (Z.eqb z 0).
Definition inv_log (_ : nat) : Z := 1%Z.

Definition new_index (c : @HNSW.HNSWConfig Z) : Index :=
  @HNSW.new_index Z Z num_truthy inv_log c.

Definition toJSON := @HNSW.toJSON Z Z (fun x => x).
Definition fromJSON := @HNSW.fromJSON Z Z (fun x => x) num_truthy inv_log.

(** A sequence of insertions [(id, vector, level)], each with step bound 100,
    keeping the state left by each call. *)
Definition insert_all (g : Index) (pts : list (string * list Z * nat)) : Index :=
  fold_left (fun g p => fst (addPoint (fst (fst p)) (snd (fst p)) (snd p) 100 g))
    pts g.

(** Every insertion of the sequence succeeds. *)
Fixpoint insert_ok (g : Index) (pts : list (string * list Z * nat)) : bool :=
  match pts with
  | [] => true
  | p :: rest =>
      match addPoint (fst (fst p)) (snd (fst p)) (snd p) 100 g with
      | (g', HNSW.Ok _) => insert_ok g' rest
      | (_, HNSW.Err _) => false
      end
  end.

(** The degree bound, checked node by node and layer by layer. *)
Definition deg_okb (g : Index) : bool :=
  forallb (fun kn =>
      forallb (fun L =>
          match nth_error (HNSW.neighbors (snd kn)) L with
          | Some lst => length lst <=? HNSW.M g
          | None => true
          end)
        (seq 0 (S (HNSW.level (snd kn)))))
    (HNSW.nodes g).

Local Open Scope string_scope.

(** Two nodes, [M = 2]. *)
Definition g_two : Index :=
  insert_all (new_index (config (Some 2) None)) [("a", [1; 0]%Z, 0); ("b", [3; 1]%Z, 0)].

(** Three nodes with [M = 1]: pruning leaves no edge into "c". *)
Definition g_three : Index :=
  insert_all (new_index (config (Some 1) None))
    [("a", [3; 0]%Z, 0); ("b", [3; 1]%Z, 0); ("c", [1; 3]%Z, 0)].

(** Two nodes, default parameters. *)
Definition g_pair : Index :=
  insert_all (new_index (config None None)) [("a", [3; 0]%Z, 0); ("b", [3; 1]%Z, 0)].

(** A loaded index whose only node lists the unknown id "x" on layer 0. *)
Definition g_dangling : Index :=
  fromJSON (HNSW.mkIndexJSON 16 200 200 1%Z 0 (Some "a")
              [HNSW.mkNodeJSON "a" [1; 0]%Z 0 [["x"]]]).

Definition node_a : @HNSW.Node Z := HNSW.mkNode "a" [1; 0]%Z 0 [["x"]].

(** A loaded index: "a" (the entry point) lists "b", and "b" lists "a" and
    the unknown id "x". *)
Definition g_hop : Index :=
  fromJSON (HNSW.mkIndexJSON 16 200 200 1%Z 0 (Some "a")
              [HNSW.mkNodeJSON "a" [1; 0]%Z 0 [["b"]];
               HNSW.mkNodeJSON "b" [0; 1]%Z 0 [["a"; "x"]]]).

Definition node_ha : @HNSW.Node Z := HNSW.mkNode "a" [1; 0]%Z 0 [["b"]].
Definition node_hb : @HNSW.Node Z := HNSW.mkNode "b" [0; 1]%Z 0 [["a"; "x"]].

End Inst.

(** * A concrete migration: integer lanes, no metadata, and a graph that
    records the ids it was given. *)
Module MInst.

Local Open Scope string_scope.

Definition Doc : Type := @Migration.VectorDocument Z unit.
Definition Mgr : Type := @Migration.Mgr Z unit.
Definition Ev : Type := @Migration.Event Z unit.

Definition graphAddPoint (k : string) (_ : list Z) (g : list string)
  : list string + list string := inl (app g [k]).

Definition doc (k : string) : Doc := Migration.mkDoc k "t" None None 0%Z.

Definition docs3 : list Doc := [doc "d1"; doc "d2"; doc "d3"].

Definition m0 : Mgr :=
  Migration.mkMgr (Migration.mkStatus 0 0 None false None) false false Migration.Idle [].

(** The first batch is awaiting its embeddings. *)
Definition m_embed : Mgr :=
  Migration.run m0 [Migration.EvStart 1; Migration.EvGetAllDone docs3;
                    Migration.EvResetDone].

(** [stop] during the yield after the first batch. *)
Definition m_stopped : Mgr :=
  Migration.run m_embed [Migration.EvEmbedDone [[1%Z]]; Migration.EvIndexDone;
                         Migration.EvStop; Migration.EvYieldDone].

Definition embss3 : list (list (list Z)) := [[[1%Z]]; [[2%Z]]; [[3%Z]]].

End MInst.

(** * [Vectoria]: persistence and search ([src/src/index.ts]) over the
    [VectorStore] of [lib/db] ([src/unnamed/part_001]) *)
Module Vectoria.
Import HNSW.

Section Vectoria.
Context {Num F32 Meta : Type}.
Variable to_f32 : Num -> F32.
Variable of_f32 : F32 -> Num.
Variable dist : list F32 -> list F32 -> Z.
Variable num_truthy : Num -> bool.
Variable inv_log : nat -> Num.
(** [cosineSimilarity] of [lib/vector], used by the brute-force search. *)
Variable cosineSimilarity : list Num -> list Num -> Z.

Local Abbreviation Doc := (@Migration.VectorDocument Num Meta).
Local Abbreviation HNSWIndex := (@HNSWIndex Num F32).

(** ** The [hnsw_nodes] object store (key path [id]) *)

Definition NodeStore : Type := list (string * @NodeJSON Num).

Fixpoint nget (s : NodeStore) (k : string) : option (@NodeJSON Num) :=
  match s with
  | [] => None
  | (k', r) :: t => if String.eqb k k' then Some r else nget t k
  end.

(** [store.put(node)] *)
Fixpoint nput (s : NodeStore) (r : @NodeJSON Num) : NodeStore :=
  match s with
  | [] => [(jid r, r)]
  | (k', r') :: t =>
      if String.eqb (jid r) k' then (k', r) :: t else (k', r') :: nput t r
  end.

(** [saveNodes(nodes)]: one [put] per record, in order (the chunks of 500
    are consecutive and share one transaction). *)
Definition saveNodes (s : NodeStore) (recs : list (@NodeJSON Num)) : NodeStore :=
  fold_left nput recs s.

(** [getAllNodes()]: the stored records. *)
Definition getAllNodes (s : NodeStore) : list (@NodeJSON Num) := map snd s.

(** The three stores: [documents], [hnsw_nodes] and the [meta] key
    ["hnsw-meta"]. *)
Record VStore : Type := mkVStore {
  documents : @Migration.DocStore Num Meta;
  hnsw_nodes : NodeStore;
  meta : option (@IndexJSON Num)
}.

Record Vectoria : Type := mkVectoria {
  db : VStore;
  index : HNSWIndex;
  initialized : bool
}.

(** ** [saveIndex] and [init] *)

(** [const { nodes, ...meta } = json]: the record without its nodes. *)
Definition index_meta (json : @IndexJSON Num) : @IndexJSON Num :=
  mkIndexJSON (jM json) (jefConstruction json) (jefSearch json)
    (jlevelMultiplier json) (jmaxLevel json) (jentryPointId json) [].

(** [{ ...meta, nodes }] *)
Definition with_nodes (m : @IndexJSON Num) (ns : list (@NodeJSON Num)) : @IndexJSON Num :=
  mkIndexJSON (jM m) (jefConstruction m) (jefSearch m) (jlevelMultiplier m)
    (jmaxLevel m) (jentryPointId m) ns.

(** [{ ...node, vector: Array.from(node.vector) }] *)
Definition node_record (n : @Node F32) : @NodeJSON Num :=
  mkNodeJSON (id n) (map of_f32 (vector n)) (level n) (neighbors n).

(** [for (const id of touchedIds) { const node = this.index.getNode(id);
      if (node) nodesToSave.push(...) }] *)
Definition nodes_to_save (g : HNSWIndex) (touchedIds : list string)
  : list (@NodeJSON Num) :=
  flat_map (fun k => match mget (nodes g) k with
                     | Some n => [node_record n]
                     | None => []
                     end) touchedIds.

Definition saveIndex (touchedIds : option (list string)) (v : Vectoria) : Vectoria :=
  let json := toJSON of_f32 (index v) in
  let s := db v in
  let ns := match touchedIds with
            | Some t =>
                match nodes_to_save (index v) t with
                | [] => hnsw_nodes s
                | nodesToSave => saveNodes (hnsw_nodes s) nodesToSave
                end
            | None => saveNodes (hnsw_nodes s) (jnodes json)
            end in
  mkVectoria (mkVStore (documents s) ns (Some (index_meta json))) (index v)
    (initialized v).

Definition init (v : Vectoria) : Vectoria :=
  if initialized v then v
  else
    match meta (db v) with
    | Some m =>
        mkVectoria (db v)
          (fromJSON to_f32 num_truthy inv_log
             (with_nodes m (getAllNodes (hnsw_nodes (db v))))) true
    | None => mkVectoria (db v) (index v) true
    end.

(** ** [indexDocuments(docs)]

    [lvls n] is the result of [getRandomLevel()] in the [n]-th [addPoint]
    of the call.  A throw of [addPoint] rejects the call before anything is
    written. *)

(** [touched.forEach(id => allTouchedIds.add(id))] *)
Definition add_all (acc touched : list string) : list string :=
  fold_left (fun s x => sadd x s) touched acc.

Fixpoint index_loop (lvls : nat -> nat) (fuel : nat) (docs : list Doc) (n : nat)
    (allTouchedIds : list string) : st (list string) :=
  match docs with
  | [] => st_ret allTouchedIds
  | doc :: rest =>
      match Migration.embedding doc with
      | None => index_loop lvls fuel rest n allTouchedIds
      | Some e =>
          st_bind (addPoint to_f32 dist (Migration.id doc) e (lvls n) fuel)
            (fun touched =>
               index_loop lvls fuel rest (S n) (add_all allTouchedIds touched))
      end
  end.

Definition indexDocuments (lvls : nat -> nat) (fuel : nat) (docs : list Doc)
    (v : Vectoria) : Vectoria * res unit :=
  let v := init v in
  match index_loop lvls fuel docs 0 [] (index v) with
  | (g, Err e) => (mkVectoria (db v) g (initialized v), Err e)
  | (g, Ok allTouchedIds) =>
      let s := db v in
      let v := mkVectoria (mkVStore (Migration.addMany (documents s) docs)
                             (hnsw_nodes s) (meta s)) g (initialized v) in
      (saveIndex (Some allTouchedIds) v, Ok tt)
  end.

(** ** [addDocument(text, metadata)]

    [newId] is the result of [uuidv4()], [now] that of [Date.now()],
    [embedding] the embedder's result and [lvl] the result of
    [getRandomLevel()] in [addPoint].  A throw of [addPoint] rejects the
    call before anything is written. *)
Definition addDocument (lvl fuel : nat) (newId text : string) (metadata : Meta)
    (embedding : list Num) (now : Z) (v : Vectoria) : Vectoria * res Doc :=
  let v := init v in
  let doc := Migration.mkDoc newId text (Some metadata) (Some embedding) now in
  match addPoint to_f32 dist (Migration.id doc) embedding lvl fuel (index v) with
  | (g, Err e) => (mkVectoria (db v) g (initialized v), Err e)
  | (g, Ok touchedIds) =>
      let s := db v in
      let v := mkVectoria (mkVStore (Migration.dput (documents s) doc)
                             (hnsw_nodes s) (meta s)) g (initialized v) in
      (saveIndex (Some touchedIds) v, Ok doc)
  end.

(** ** [search(query, topK, true)]: the brute-force branch

    [queryEmbedding] is the embedder's result; the documents are those of
    [db.getAll()]. *)

(** [doc.embedding && doc.embedding.length > 0] *)
Definition has_embedding (doc : Doc) : bool :=
  match Migration.embedding doc with
  | Some (_ :: _) => true
  | _ => false
  end.

Definition brute_force (allDocs : list Doc) (queryEmbedding : list Num) (topK : Z)
  : list Cand :=
  slice0
    (sort_desc
       (map (fun doc =>
               mkCand (Migration.id doc)
                 (cosineSimilarity queryEmbedding
                    (match Migration.embedding doc with Some e => e | None => [] end)))
          (filter has_embedding allDocs)))
    topK.

(** [results.map((r, i) => docs[i] ? { ...docs[i], score: r.score } : null)
      .filter(Boolean)] *)
Definition finalResults (results : list Cand) (docs : list (option Doc))
  : list (Doc * Z) :=
  flat_map (fun p => match snd p with
                     | Some d => [(d, score (fst p))]
                     | None => []
                     end) (combine results docs).

Definition search_brute (s : VStore) (queryEmbedding : list Num) (topK : Z)
  : list (Doc * Z) :=
  let results := brute_force (map snd (documents s)) queryEmbedding topK in
  let docs := map (fun r => Migration.dget (documents s) (cid r)) results in
  finalResults results docs.

End Vectoria.
End Vectoria.

(** * Proofs about the HNSW engine *)
Module HNSWFacts.
Import HNSW.

Section Facts.
Context {Num F32 : Type}.
Variable to_f32 : Num -> F32.
Variable of_f32 : F32 -> Num.
Variable dist : list F32 -> list F32 -> Z.
Variable num_truthy : Num -> bool.
Variable inv_log : nat -> Num.

Local Abbreviation Node := (@Node F32).
Local Abbreviation HNSWIndex := (@HNSWIndex Num F32).
Implicit Types (g : HNSWIndex) (n : Node) (W C : list Cand).

(** ** Auxiliary notions and invariants *)

(** Keys with their levels, the entry point and the parameters. *)
Definition levels g : list (string * nat) :=
  map (fun kn => (fst kn, level (snd kn))) (nodes g).

Definition shape g :=
  (levels g, entryPointId g, maxLevel g, M g, efConstruction g, efSearch g,
   levelMultiplier g).

Definition frame {A} (m : st A) : Prop := forall g, shape (fst (m g)) = shape g.

Definition no_dup_err {A} (m : st A) : Prop :=
  forall g g' e, m g = (g', Err e) -> e <> DuplicateId.

Definition inserted g newId (vec : list Num) lvl : HNSWIndex :=
  set_nodes g (mset (nodes g) newId
    (mkNode newId (map to_f32 vec) lvl (repeat [] (S lvl)))).

Fixpoint lget (l : list (string * nat)) (k : string) : option nat :=
  match l with
  | [] => None
  | (k', x) :: t => if String.eqb k k' then Some x else lget t k
  end.

(** The invariant of C6, phrased on the keys and levels. *)
Definition top_inv g : Prop :=
  (entryPointId g = None <-> levels g = []) /\
  (entryPointId g = None -> maxLevel g = 0) /\
  (forall ep, entryPointId g = Some ep ->
     lget (levels g) ep = Some (maxLevel g) /\
     forall k l, In (k, l) (levels g) -> l <= maxLevel g).

Inductive reachable : HNSWIndex -> Prop :=
| reach_new (c : HNSWConfig) : reachable (new_index num_truthy inv_log c)
| reach_add g newId vec lvl fuel g' t :
    reachable g -> addPoint to_f32 dist newId vec lvl fuel g = (g', Ok t) ->
    reachable g'.

Fixpoint sorted_desc (l : list Cand) : bool :=
  match l with
  | x :: ((y :: _) as t) => (score y <=? score x)%Z && sorted_desc t
  | _ => true
  end.

Definition Winv (ef : nat) (v : list string) W : Prop :=
  sorted_desc W = true /\ length W <= Nat.max 1 ef /\ NoDup (map cid W) /\
  (forall w, In w W -> In (cid w) v).

Definition deg_ok g : Prop :=
  forall k n, In (k, n) (nodes g) ->
  forall L lst, L <= level n -> nth_error (neighbors n) L = Some lst ->
  length lst <= M g.

(** The node under key [k] has a list on layer [l] whose ids are all keys. *)
Definition GoodL g (l : nat) (k : string) : Prop :=
  exists n lst, mget (nodes g) k = Some n /\ nth_error (neighbors n) l = Some lst /\
    forall x, In x lst -> mhas (nodes g) x = true.

(** Graphs built by the constructor, by [fromJSON] or by [addPoint] calls
    (successful or not) on such a graph. *)
Inductive constructible : HNSWIndex -> Prop :=
| cons_new (c : HNSWConfig) : constructible (new_index num_truthy inv_log c)
| cons_json (j : IndexJSON) : constructible (fromJSON to_f32 num_truthy inv_log j)
| cons_add g newId vec lvl fuel :
    constructible g -> constructible (fst (addPoint to_f32 dist newId vec lvl fuel g)).

Definition graph_ok g : Prop :=
  M g <> 0 /\ efConstruction g <> 0 /\ efSearch g <> 0 /\
  (num_truthy (levelMultiplier g) = true \/ levelMultiplier g = inv_log (M g)) /\
  NoDup (map fst (nodes g)).

Definition json_node (nd : NodeJSON) : string * Node :=
  (jid nd, mkNode (jid nd) (map to_f32 (jvector nd)) (jlevel nd) (jneighbors nd)).

(** ** Traversal steps (the dangling ids of C1) *)

(** The list of node [n] on layer [l] holds an id that is no key of [g]. *)
Definition dangling_at g n (l : nat) : Prop :=
  exists lst x, nth_error (neighbors n) l = Some lst /\ In x lst /\
    mget (nodes g) x = None.

(** A pass of the [while (C.length > 0)] loop of [searchLayer] from the
    state [(visited, C, W)] gets past the stop test and reads [cNode], the
    node of the popped candidate. *)
Definition sl_expands g (ef : nat) C W (cNode : Node) : Prop :=
  exists c Ct f, sort_desc C = c :: Ct /\ last_opt (sort_desc W) = Some f /\
    (score c <? score f)%Z && (ef <=? length (sort_desc W)) = false /\
    mget (nodes g) (cid c) = Some cNode.

(** A complete pass of that loop on layer [lvl], from [(v, C, W)] to
    [(v', C', W')]. *)
Definition sl_step g (query : list F32) (ef lvl : nat) (v : list string) C W
    (v' : list string) (C' W' : list Cand) : Prop :=
  exists c Ct f (cNode : Node) nbrs,
    sort_desc C = c :: Ct /\ last_opt (sort_desc W) = Some f /\
    (score c <? score f)%Z && (ef <=? length (sort_desc W)) = false /\
    mget (nodes g) (cid c) = Some cNode /\
    nth_error (neighbors cNode) lvl = Some nbrs /\
    sl_inner dist g query ef f nbrs v Ct (sort_desc W) = Ok (v', C', W').

(** [i] complete passes of the loop. *)
Inductive sl_reach g (query : list F32) (ef lvl : nat)
  : nat -> list string -> list Cand -> list Cand ->
    list string -> list Cand -> list Cand -> Prop :=
| slr_here v C W : sl_reach g query ef lvl 0 v C W v C W
| slr_step i v C W v1 C1 W1 v2 C2 W2 :
    sl_step g query ef lvl v C W v1 C1 W1 ->
    sl_reach g query ef lvl i v1 C1 W1 v2 C2 W2 ->
    sl_reach g query ef lvl (S i) v C W v2 C2 W2.

(** [searchLayer(query, e, ef, lvl)] pops, after [i < fuel] complete passes,
    a node whose list on layer [lvl] holds a dangling id. *)
Definition sl_hits g (query : list F32) (ef lvl fuel : nat) (e : Node) : Prop :=
  let c0 := mkCand (id e) (dist query (vector e)) in
  exists i v C W cNode, i < fuel /\
    sl_reach g query ef lvl i [id e] [c0] [c0] v C W /\
    sl_expands g ef C W cNode /\ dangling_at g cNode lvl.

(** The greedy hill-climb on layer [l] moves from [curr] to [c] in [i]
    steps. *)
Inductive greedy_reach g (query : list F32) (l : nat)
  : nat -> Node -> Z -> Node -> Prop :=
| gr_here curr d : greedy_reach g query l 0 curr d curr
| gr_move i curr d nbrs b bd c :
    nth_error (neighbors curr) l = Some nbrs ->
    scan dist g query nbrs None d = Ok (Some b, bd) ->
    greedy_reach g query l i b bd c ->
    greedy_reach g query l (S i) curr d c.

(** The descent over the layers [ls] stands, on some layer, at a node whose
    list on that layer holds a dangling id. *)
Inductive descend_hits g (query : list F32) (fuel : nat)
  : list nat -> Node -> Z -> Prop :=
| dh_here l ls curr d i c :
    greedy_reach g query l i curr d c -> i < fuel -> dangling_at g c l ->
    descend_hits g query fuel (l :: ls) curr d
| dh_next l ls curr d c' d' :
    greedy dist g query l fuel curr d = Ok (c', d') ->
    descend_hits g query fuel ls c' d' ->
    descend_hits g query fuel (l :: ls) curr d.

(** The layer loop of [addPoint] over [ls], from the state [g], reaches a
    [searchLayer] call that pops a node with a dangling id. *)
Inductive cl_hits (newId : string) (fv : list F32) (fuel : nat)
  : list nat -> option Node -> list string -> HNSWIndex -> Prop :=
| clh_here l ls e touched g :
    sl_hits g fv (efConstruction g) l fuel e ->
    cl_hits newId fv fuel (l :: ls) (Some e) touched g
| clh_next l ls co touched g g' p :
    connect_layer dist newId fv fuel l co touched g = (g', Ok p) ->
    cl_hits newId fv fuel ls (fst p) (snd p) g' ->
    cl_hits newId fv fuel (l :: ls) co touched g.

(** ** The node map *)

Lemma mget_mset_same (m : list (string * Node)) k n :
  mget (mset m k n) k = Some n.
Proof.
  induction m as [|[k' n'] t IH]; simpl.
  - now rewrite String.eqb_refl.
  - destruct (String.eqb k k') eqn:E; simpl; rewrite E; auto.
Qed.

Lemma mget_mset_other (m : list (string * Node)) k k' n :
  k' <> k -> mget (mset m k n) k' = mget m k'.
Proof.
  intro Hne. induction m as [|[k0 n0] t IH]; simpl.
  - destruct (String.eqb k' k) eqn:E; auto.
    apply String.eqb_eq in E; congruence.
  - destruct (String.eqb k k0) eqn:E; simpl.
    + apply String.eqb_eq in E; subst k0.
      destruct (String.eqb k' k) eqn:E'; auto.
      apply String.eqb_eq in E'; congruence.
    + destruct (String.eqb k' k0); auto.
Qed.

Lemma in_mset (m : list (string * Node)) k n k' x :
  In (k', x) (mset m k n) -> In (k', x) m \/ (k' = k /\ x = n).
Proof.
  induction m as [|[k0 n0] t IH]; simpl.
  - intros [H|[]]. inversion H; auto.
  - destruct (String.eqb k k0) eqn:E; simpl.
    + apply String.eqb_eq in E; subst k0.
      intros [H|H]; [inversion H; auto|auto].
    + intros [H|H]; [auto|]. destruct (IH H); auto.
Qed.

Lemma mget_in (m : list (string * Node)) k n : mget m k = Some n -> In (k, n) m.
Proof.
  induction m as [|[k0 n0] t IH]; simpl; [discriminate|].
  destruct (String.eqb k k0) eqn:E.
  - apply String.eqb_eq in E; subst; intro H; inversion H; auto.
  - auto.
Qed.

Lemma mhas_mget (m : list (string * Node)) k :
  mhas m k = true <-> mget m k <> None.
Proof. unfold mhas; destruct (mget m k); split; congruence. Qed.

Lemma mhas_mset (m : list (string * Node)) k n k' :
  mhas m k' = true -> mhas (mset m k n) k' = true.
Proof.
  rewrite !mhas_mget. destruct (String.eqb k' k) eqn:E.
  - apply String.eqb_eq in E; subst; rewrite mget_mset_same; congruence.
  - rewrite mget_mset_other; auto. intro; subst; rewrite String.eqb_refl in E;
    discriminate.
Qed.

Lemma smem_In x s : smem x s = true <-> In x s.
Proof.
  unfold smem; rewrite existsb_exists; split.
  - intros [y [Hy E]]; apply String.eqb_eq in E; subst; auto.
  - intro H; exists x; split; auto; apply String.eqb_refl.
Qed.

(** ** No step after the membership test raises [DuplicateId] *)

Ltac crush_res :=
  repeat match goal with
  | |- context [match ?x with _ => _ end] => destruct x eqn:?
  | H : context [match ?x with _ => _ end] |- _ => destruct x eqn:?
  end; simpl in *; try congruence.

Lemma sl_inner_not_dup g query ef f nbrs v C W e :
  sl_inner dist g query ef f nbrs v C W = Err e -> e <> DuplicateId.
Proof.
  revert v C W; induction nbrs as [|nid rest IH]; intros v C W; simpl;
    [intros; congruence|].
  destruct (smem nid v); [apply IH|].
  destruct (mget (nodes g) nid); [|intros; congruence].
  destruct (_ || _); apply IH.
Qed.

Lemma sl_loop_not_dup g query ef lvl fuel v C W e :
  sl_loop dist g query ef lvl fuel v C W = Err e -> e <> DuplicateId.
Proof.
  revert v C W; induction fuel as [|fuel IH]; intros v C W; simpl;
    destruct C as [|c C]; try (intros; congruence).
  destruct (sort_desc (c :: C)) as [|c0 C0]; [intros; congruence|].
  destruct (last_opt (sort_desc W)) as [f|]; [|intros; congruence].
  destruct (_ && _); [intros; congruence|].
  destruct (mget (nodes g) (cid c0)) as [cNode|]; [|intros; congruence].
  destruct (nth_error (neighbors cNode) lvl) as [nbrs|]; [|intros; congruence].
  destruct (sl_inner dist g query ef f nbrs v C0 (sort_desc W))
    as [[[v' C'] W']|e'] eqn:Hi; [apply IH|].
  intro E; injection E as <-; exact (sl_inner_not_dup _ _ _ _ _ _ _ _ _ Hi).
Qed.

Lemma searchLayer_not_dup g query entry ef lvl fuel e :
  searchLayer dist g query entry ef lvl fuel = Err e -> e <> DuplicateId.
Proof.
  unfold searchLayer; destruct entry; [apply sl_loop_not_dup|intros; congruence].
Qed.

Lemma scan_not_dup g query nbrs best bd e :
  scan dist g query nbrs best bd = Err e -> e <> DuplicateId.
Proof.
  revert best bd; induction nbrs as [|nid rest IH]; intros best bd; simpl;
    [intros; congruence|].
  destruct (mget (nodes g) nid); [|intros; congruence].
  destruct (_ <? _)%Z; apply IH.
Qed.

Lemma greedy_not_dup g query l fuel curr d e :
  greedy dist g query l fuel curr d = Err e -> e <> DuplicateId.
Proof.
  revert curr d; induction fuel as [|fuel IH]; intros curr d; simpl;
    [intros; congruence|].
  destruct (nth_error (neighbors curr) l) as [nbrs|]; [|intros; congruence].
  destruct (scan dist g query nbrs None d) as [[[b|] bd]|e'] eqn:Hs;
    [apply IH|intros; congruence|].
  intro E; injection E as <-; exact (scan_not_dup _ _ _ _ _ _ Hs).
Qed.

Lemma descend_not_dup g query fuel ls curr d e :
  descend dist g query fuel ls curr d = Err e -> e <> DuplicateId.
Proof.
  revert curr d; induction ls as [|l ls IH]; intros curr d; simpl;
    [intros; congruence|].
  destruct (greedy dist g query l fuel curr d) as [[c' d']|e'] eqn:Hg;
    [apply IH|].
  intro E; injection E as <-; exact (greedy_not_dup _ _ _ _ _ _ _ Hg).
Qed.

Lemma score_all_not_dup g nv lst e :
  score_all dist g nv lst = Err e -> e <> DuplicateId.
Proof.
  induction lst as [|nid rest IH]; simpl; [intros; congruence|].
  destruct (mget (nodes g) nid); [|intros; congruence].
  destruct (score_all dist g nv rest) eqn:Hr; [intros; congruence|].
  intro E; injection E as <-; auto.
Qed.

(** ** The monadic steps only rewrite neighbor lists *)

Local Notation "x <- m ;; k" := (st_bind m (fun x => k))
  (at level 61, m at next level, right associativity).

Lemma frame_ret {A} (a : A) : frame (st_ret a).
Proof. intro g; reflexivity. Qed.

Lemma frame_get : frame st_get.
Proof. intro g; reflexivity. Qed.

Lemma frame_lift {A} (r : res A) : frame (st_lift r).
Proof. intro g; reflexivity. Qed.

Lemma frame_bind {A B} (m : st A) (k : A -> st B) :
  frame m -> (forall a, frame (k a)) -> frame (st_bind m k).
Proof.
  intros Hm Hk g; unfold st_bind.
  specialize (Hm g); destruct (m g) as [g1 [a|e]]; simpl in *; auto.
  rewrite Hk; auto.
Qed.

Lemma no_dup_ret {A} (a : A) : no_dup_err (st_ret a).
Proof. intros g g' e H; discriminate H. Qed.

Lemma no_dup_get : no_dup_err st_get.
Proof. intros g g' e H; discriminate H. Qed.

Lemma no_dup_bind {A B} (m : st A) (k : A -> st B) :
  no_dup_err m -> (forall a, no_dup_err (k a)) -> no_dup_err (st_bind m k).
Proof.
  intros Hm Hk g g' e; unfold st_bind.
  destruct (m g) as [g1 [a|e1]] eqn:E.
  - apply Hk.
  - intro H; injection H as <- <-; exact (Hm _ _ _ E).
Qed.

Lemma levels_mset_present (m : list (string * Node)) k n n' :
  mget m k = Some n -> level n' = level n ->
  map (fun kn => (fst kn, level (snd kn))) (mset m k n') =
  map (fun kn => (fst kn, level (snd kn))) m.
Proof.
  intros Hg Hl; induction m as [|[k0 n0] t IH]; simpl in *; [discriminate|].
  destruct (String.eqb k k0) eqn:E; simpl.
  - injection Hg as ->; rewrite Hl; reflexivity.
  - rewrite IH; auto.
Qed.

Lemma frame_set_nbrs k l lst : frame (set_nbrs k l lst).
Proof.
  intro g; unfold set_nbrs.
  destruct (mget (nodes g) k) as [n|] eqn:E; [|reflexivity].
  unfold shape, levels; simpl.
  erewrite levels_mset_present; eauto.
Qed.

Lemma no_dup_set_nbrs k l lst : no_dup_err (set_nbrs k l lst).
Proof.
  intros g g' e; unfold set_nbrs.
  destruct (mget (nodes g) k); intro H; discriminate H.
Qed.

Lemma frame_link_neighbor newId l touched ninfo :
  frame (link_neighbor dist newId l touched ninfo).
Proof.
  unfold link_neighbor; apply frame_bind; [apply frame_get|intro g].
  destruct (mget (nodes g) (cid ninfo)) as [nb|]; [|apply frame_lift].
  destruct (nth_error (neighbors nb) l) as [lst|]; [|apply frame_lift].
  apply frame_bind; [apply frame_set_nbrs|intros _].
  destruct (M g <? _); [|apply frame_ret].
  apply frame_bind; [apply frame_get|intro g'].
  apply frame_bind; [apply frame_lift|intro cands].
  apply frame_bind; [apply frame_set_nbrs|intros _]; apply frame_ret.
Qed.

Lemma no_dup_link_neighbor newId l touched ninfo :
  no_dup_err (link_neighbor dist newId l touched ninfo).
Proof.
  unfold link_neighbor; apply no_dup_bind; [apply no_dup_get|intro g].
  destruct (mget (nodes g) (cid ninfo)) as [nb|];
    [|intros ? ? ? H; injection H as _ <-; discriminate].
  destruct (nth_error (neighbors nb) l) as [lst|];
    [|intros ? ? ? H; injection H as _ <-; discriminate].
  apply no_dup_bind; [apply no_dup_set_nbrs|intros _].
  destruct (M g <? _); [|apply no_dup_ret].
  apply no_dup_bind; [apply no_dup_get|intro g'].
  apply no_dup_bind.
  - intros g0 g1 e H; injection H as _ He.
    exact (score_all_not_dup _ _ _ _ He).
  - intro cands; apply no_dup_bind; [apply no_dup_set_nbrs|intros _];
      apply no_dup_ret.
Qed.

Lemma frame_link_all newId l sel touched :
  frame (link_all dist newId l sel touched).
Proof.
  revert touched; induction sel as [|ninfo rest IH]; intro touched; simpl;
    [apply frame_ret|].
  apply frame_bind; [apply frame_link_neighbor|intro t; apply IH].
Qed.

Lemma no_dup_link_all newId l sel touched :
  no_dup_err (link_all dist newId l sel touched).
Proof.
  revert touched; induction sel as [|ninfo rest IH]; intro touched; simpl;
    [apply no_dup_ret|].
  apply no_dup_bind; [apply no_dup_link_neighbor|intro t; apply IH].
Qed.

Lemma frame_connect_layer newId fv fuel l co touched :
  frame (connect_layer dist newId fv fuel l co touched).
Proof.
  unfold connect_layer; apply frame_bind; [apply frame_get|intro g].
  apply frame_bind; [apply frame_lift|intro W].
  apply frame_bind; [apply frame_set_nbrs|intros _].
  apply frame_bind; [apply frame_link_all|intro t].
  apply frame_bind; [apply frame_get|intro g']; apply frame_ret.
Qed.

Lemma no_dup_connect_layer newId fv fuel l co touched :
  no_dup_err (connect_layer dist newId fv fuel l co touched).
Proof.
  unfold connect_layer; apply no_dup_bind; [apply no_dup_get|intro g].
  apply no_dup_bind.
  - intros g0 g1 e H; injection H as _ He.
    exact (searchLayer_not_dup _ _ _ _ _ _ _ He).
  - intro W; apply no_dup_bind; [apply no_dup_set_nbrs|intros _].
    apply no_dup_bind; [apply no_dup_link_all|intro t].
    apply no_dup_bind; [apply no_dup_get|intro g']; apply no_dup_ret.
Qed.

Lemma frame_connect_layers newId fv fuel ls co touched :
  frame (connect_layers dist newId fv fuel ls co touched).
Proof.
  revert co touched; induction ls as [|l ls IH]; intros co touched; simpl;
    [apply frame_ret|].
  apply frame_bind; [apply frame_connect_layer|intro p; apply IH].
Qed.

Lemma no_dup_connect_layers newId fv fuel ls co touched :
  no_dup_err (connect_layers dist newId fv fuel ls co touched).
Proof.
  revert co touched; induction ls as [|l ls IH]; intros co touched; simpl;
    [apply no_dup_ret|].
  apply no_dup_bind; [apply no_dup_connect_layer|intro p; apply IH].
Qed.

(** ** The shape of an [addPoint] call past the guard *)

Lemma addPoint_unfold g newId vec lvl fuel :
  mhas (nodes g) newId = false ->
  addPoint to_f32 dist newId vec lvl fuel g =
  let g1 := inserted g newId vec lvl in
  match entryPointId g with
  | None => (set_top g1 (Some newId) lvl, Ok [newId])
  | Some ep =>
      match mget (nodes g1) ep with
      | None => (g1, Err TypeError)
      | Some cur =>
          match descend dist g1 (map to_f32 vec) fuel
                  (layers_from (maxLevel g) (maxLevel g - lvl))
                  cur (dist (map to_f32 vec) (vector cur)) with
          | Err e => (g1, Err e)
          | Ok (c', _) =>
              match connect_layers dist newId (map to_f32 vec) fuel
                      (layers_from (Nat.min lvl (maxLevel g))
                         (S (Nat.min lvl (maxLevel g))))
                      (Some c') [newId] g1 with
              | (g2, Err e) => (g2, Err e)
              | (g2, Ok t) =>
                  (if maxLevel g2 <? lvl then set_top g2 (Some newId) lvl
                   else g2, Ok t)
              end
          end
      end
  end.
Proof. intro Hh; unfold addPoint; rewrite Hh; reflexivity. Qed.

(** ** C3: the duplicate-id guard *)

(** C3. If [id] is already a key of the node map, [addPoint] fails with the
    duplicate-id error and leaves the whole graph (node map, entryPointId,
    maxLevel, parameters) unchanged; if it is not a key, no outcome of
    [addPoint] is the duplicate-id error. *)
Theorem addPoint_duplicate_id g newId vec lvl fuel :
  (mhas (nodes g) newId = true ->
   addPoint to_f32 dist newId vec lvl fuel g = (g, Err DuplicateId)) /\
  (mhas (nodes g) newId = false ->
   snd (addPoint to_f32 dist newId vec lvl fuel g) <> Err DuplicateId).
Proof.
  split; intro Hh; [unfold addPoint; rewrite Hh; reflexivity|].
  rewrite (addPoint_unfold _ _ _ _ _ Hh); cbv zeta.
  destruct (entryPointId g) as [ep|]; [|discriminate].
  destruct (mget _ ep) as [cur|]; [|discriminate].
  match goal with |- context [descend ?a1 ?a2 ?a3 ?a4 ?a5 ?a6 ?a7] =>
    destruct (descend a1 a2 a3 a4 a5 a6 a7) as [[c' d']|e] eqn:Hd end.
  - match goal with
    | |- context [connect_layers ?a1 ?a2 ?a3 ?a4 ?a5 ?a6 ?a7 ?a8] =>
      destruct (connect_layers a1 a2 a3 a4 a5 a6 a7 a8) as [g2 [t|e]] eqn:Hc
    end; [destruct (_ <? _); discriminate|].
    intro E; injection E as E.
    exact (no_dup_connect_layers _ _ _ _ _ _ _ _ _ Hc E).
  - intro E; injection E as E; exact (descend_not_dup _ _ _ _ _ _ _ Hd E).
Qed.

(** ** Entry point and [maxLevel] *)

Lemma lget_app l1 l2 k :
  lget (l1 ++ l2) k = match lget l1 k with Some x => Some x | None => lget l2 k end.
Proof.
  induction l1 as [|[k' x] t IH]; simpl; auto.
  destruct (String.eqb k k'); auto.
Qed.

Lemma lget_levels g k : lget (levels g) k = option_map level (mget (nodes g) k).
Proof.
  unfold levels; induction (nodes g) as [|[k' n] t IH]; simpl; auto.
  destruct (String.eqb k k'); auto.
Qed.

Lemma in_levels g k n : In (k, n) (nodes g) -> In (k, level n) (levels g).
Proof.
  unfold levels; intro H; apply in_map_iff; exists (k, n); auto.
Qed.

Lemma levels_mset_absent (m : list (string * Node)) k n :
  mget m k = None ->
  map (fun kn => (fst kn, level (snd kn))) (mset m k n) =
  map (fun kn => (fst kn, level (snd kn))) m ++ [(k, level n)].
Proof.
  induction m as [|[k0 n0] t IH]; simpl; auto.
  destruct (String.eqb k k0); [discriminate|]; intro H; simpl; rewrite IH; auto.
Qed.

Lemma levels_inserted g newId vec lvl :
  mhas (nodes g) newId = false ->
  levels (inserted g newId vec lvl) = levels g ++ [(newId, lvl)].
Proof.
  intro Hh; unfold inserted, levels; simpl.
  rewrite levels_mset_absent; auto.
  unfold mhas in Hh; destruct (mget (nodes g) newId); congruence.
Qed.

Lemma levels_set_top g e ml : levels (set_top g e ml) = levels g.
Proof. reflexivity. Qed.

(** One successful [addPoint]: what happens to the entry point and to
    [maxLevel], and the invariant is kept. *)
Lemma addPoint_top g newId vec lvl fuel g' t :
  top_inv g ->
  addPoint to_f32 dist newId vec lvl fuel g = (g', Ok t) ->
  top_inv g' /\
  levels g' = levels g ++ [(newId, lvl)] /\
  maxLevel g' = (match entryPointId g with
                 | None => lvl
                 | Some _ => Nat.max (maxLevel g) lvl end) /\
  entryPointId g' = (match entryPointId g with
                     | None => Some newId
                     | Some ep => if maxLevel g <? lvl then Some newId else Some ep
                     end).
Proof.
  intros [Hnil [Hz Hsome]] Hadd.
  destruct (mhas (nodes g) newId) eqn:Hh.
  { unfold addPoint in Hadd; rewrite Hh in Hadd; discriminate. }
  assert (Hfresh : lget (levels g) newId = None).
  { rewrite lget_levels; unfold mhas in Hh; destruct (mget (nodes g) newId);
      [discriminate|reflexivity]. }
  rewrite (addPoint_unfold _ _ _ _ _ Hh) in Hadd; cbv zeta in Hadd.
  pose proof (levels_inserted g newId vec lvl Hh) as Hlv.
  destruct (entryPointId g) as [ep|] eqn:He.
  - destruct (mget _ ep) as [cur|]; [|discriminate].
    destruct (descend _ _ _ _ _ _ _) as [[c' d']|e]; [|discriminate].
    destruct (connect_layers _ _ _ _ _ _ _ _) as [g2 [t2|e]] eqn:Hc;
      [|discriminate].
    injection Hadd as <- <-.
    pose proof (frame_connect_layers newId (map to_f32 vec) fuel
                  (layers_from (Nat.min lvl (maxLevel g))
                     (S (Nat.min lvl (maxLevel g))))
                  (Some c') [newId] (inserted g newId vec lvl)) as Hf.
    rewrite Hc in Hf; unfold shape in Hf; simpl in Hf.
    injection Hf as Hlv2 He2 Hml2 _ _ _ _.
    rewrite Hlv in Hlv2.
    destruct (Hsome ep eq_refl) as [Hep Hall].
    destruct (maxLevel g2 <? lvl) eqn:Hlt; rewrite Hml2 in Hlt.
    + apply Nat.ltb_lt in Hlt.
      unfold top_inv; rewrite levels_set_top, Hlv2; simpl.
      rewrite (proj2 (Nat.ltb_lt _ _) Hlt).
      split; [split; [split|split]|split; [reflexivity|split; [lia|reflexivity]]].
      * discriminate.
      * intro H; destruct (levels g); discriminate.
      * discriminate.
      * intros ep' E; injection E as <-; split.
        -- rewrite lget_app, Hfresh; simpl; rewrite String.eqb_refl; reflexivity.
        -- intros k l Hin; apply in_app_or in Hin as [Hin|[E|[]]].
           ++ specialize (Hall k l Hin); lia.
           ++ injection E as -> ->; lia.
    + apply Nat.ltb_ge in Hlt.
      unfold top_inv; rewrite Hlv2, He2, He, Hml2.
      rewrite (proj2 (Nat.ltb_ge _ _) Hlt).
      split; [split; [split|split]|split; [reflexivity|split; [lia|reflexivity]]].
      * discriminate.
      * intro H; destruct (levels g); discriminate.
      * discriminate.
      * intros ep' E; injection E as <-; split.
        -- rewrite lget_app, Hep; reflexivity.
        -- intros k l Hin; apply in_app_or in Hin as [Hin|[E|[]]].
           ++ apply (Hall k l Hin).
           ++ injection E as -> ->; lia.
  - injection Hadd as <- <-.
    assert (Hl0 : levels g = []) by (apply Hnil; reflexivity).
    rewrite Hl0 in Hlv.
    unfold top_inv; rewrite levels_set_top, Hlv, Hl0; simpl.
    split; [split; [split|split]|split; [reflexivity|split; reflexivity]].
    + discriminate.
    + discriminate.
    + discriminate.
    + intros ep' E; injection E as <-; split.
      * simpl; rewrite String.eqb_refl; reflexivity.
      * intros k l [E|[]]; injection E as -> ->; lia.
Qed.

Lemma top_inv_reachable g : reachable g -> top_inv g.
Proof.
  induction 1 as [c|g newId vec lvl fuel g' t Hr IH Hadd].
  - unfold top_inv; simpl; repeat split; auto; discriminate.
  - exact (proj1 (addPoint_top _ _ _ _ _ _ _ IH Hadd)).
Qed.

(** C6. In every state reachable from a freshly constructed (empty) index by
    successful [addPoint] calls, [entryPointId] is null exactly when the node
    map is empty, and otherwise it names a node of the map whose level is
    [maxLevel], and no node of the map has a level above [maxLevel]. *)
Theorem reachable_entry_point g :
  reachable g ->
  (entryPointId g = None <-> nodes g = []) /\
  (forall ep, entryPointId g = Some ep ->
     exists n, mget (nodes g) ep = Some n /\ level n = maxLevel g /\
       forall k n', In (k, n') (nodes g) -> level n' <= maxLevel g).
Proof.
  intro Hr; destruct (top_inv_reachable g Hr) as [Hnil [_ Hsome]]; split.
  - rewrite Hnil; unfold levels; destruct (nodes g); simpl; split; congruence.
  - intros ep Hep; destruct (Hsome ep Hep) as [Hl Hall].
    rewrite lget_levels in Hl.
    destruct (mget (nodes g) ep) as [n|] eqn:Hn; [|discriminate].
    injection Hl as Hl; exists n; repeat split; auto.
    intros k n' Hin; exact (Hall k _ (in_levels g k n' Hin)).
Qed.

(** C10. Along successful [addPoint] calls from any reachable state,
    [maxLevel] never decreases and [entryPointId] is never null afterwards;
    once an entry point exists it changes only when the new node's level is
    strictly above the previous [maxLevel], and then it becomes the new node. *)
Theorem addPoint_entry_monotone g newId vec lvl fuel g' t :
  reachable g ->
  addPoint to_f32 dist newId vec lvl fuel g = (g', Ok t) ->
  maxLevel g <= maxLevel g' /\
  entryPointId g' <> None /\
  (forall ep, entryPointId g = Some ep ->
     entryPointId g' = if maxLevel g <? lvl then Some newId else Some ep).
Proof.
  intros Hr Hadd.
  pose proof (top_inv_reachable g Hr) as Hinv.
  destruct (addPoint_top _ _ _ _ _ _ _ Hinv Hadd) as [_ [_ [Hml Hep]]].
  destruct Hinv as [_ [Hz _]].
  destruct (entryPointId g) as [ep|] eqn:He.
  - repeat split.
    + rewrite Hml; lia.
    + rewrite Hep; destruct (_ <? _); discriminate.
    + intros ep' E; injection E as <-; exact Hep.
  - repeat split.
    + rewrite Hml, Hz; auto; lia.
    + rewrite Hep; discriminate.
    + intros ep' E; discriminate.
Qed.

(** ** Sorting *)

Lemma insert_desc_perm x l : Permutation (insert_desc x l) (x :: l).
Proof.
  induction l as [|y t IH]; simpl; auto.
  destruct (score y <? score x)%Z; auto.
  eapply perm_trans; [apply perm_skip, IH|apply perm_swap].
Qed.

Lemma sort_desc_perm_acc l acc :
  Permutation (fold_left (fun acc x => insert_desc x acc) l acc) (l ++ acc).
Proof.
  revert acc; induction l as [|x t IH]; intro acc; simpl; auto.
  eapply perm_trans; [apply IH|].
  eapply perm_trans; [apply Permutation_app_head, insert_desc_perm|].
  apply Permutation_sym, Permutation_middle.
Qed.

Lemma sort_desc_perm l : Permutation (sort_desc l) l.
Proof.
  unfold sort_desc; rewrite <- (app_nil_r l) at 2; apply sort_desc_perm_acc.
Qed.

Lemma insert_desc_sorted_cons x y t :
  sorted_desc (y :: t) = true -> (score x <= score y)%Z ->
  sorted_desc (y :: insert_desc x t) = true.
Proof.
  revert y; induction t as [|z t IH]; intros y Hs Hxy; simpl.
  - apply andb_true_intro; split; [apply Z.leb_le; lia|reflexivity].
  - simpl in Hs; apply andb_prop in Hs as [Hzy Hs]; apply Z.leb_le in Hzy.
    destruct (score z <? score x)%Z eqn:E.
    + apply Z.ltb_lt in E; simpl.
      repeat (apply andb_true_intro; split); try (apply Z.leb_le; lia); auto.
    + apply Z.ltb_ge in E.
      apply andb_true_intro; split; [apply Z.leb_le; lia|].
      apply IH; auto.
Qed.

Lemma insert_desc_sorted x l :
  sorted_desc l = true -> sorted_desc (insert_desc x l) = true.
Proof.
  destruct l as [|y t]; simpl; auto; intro Hs.
  destruct (score y <? score x)%Z eqn:E.
  - apply Z.ltb_lt in E; simpl.
    apply andb_true_intro; split; [apply Z.leb_le; lia|exact Hs].
  - apply Z.ltb_ge in E. apply insert_desc_sorted_cons; auto.
Qed.

Lemma sort_desc_sorted l : sorted_desc (sort_desc l) = true.
Proof.
  unfold sort_desc.
  assert (H : forall acc, sorted_desc acc = true ->
            sorted_desc (fold_left (fun acc x => insert_desc x acc) l acc) = true).
  { induction l as [|x t IH]; intros acc Ha; simpl; auto.
    apply IH, insert_desc_sorted, Ha. }
  apply H; reflexivity.
Qed.

Lemma sorted_tail x l : sorted_desc (x :: l) = true -> sorted_desc l = true.
Proof.
  destruct l; simpl; auto; intro H; apply andb_prop in H; tauto.
Qed.

Lemma firstn_sorted (j : nat) l :
  sorted_desc l = true -> sorted_desc (firstn j l) = true.
Proof.
  revert l; induction j as [|j IH]; intros [|x t] Hs; simpl; auto.
  destruct j as [|j']; [reflexivity|].
  destruct t as [|y t']; [reflexivity|].
  simpl in Hs |- *; apply andb_prop in Hs as [Hxy Hs].
  rewrite Hxy; apply (IH (y :: t') Hs).
Qed.

Lemma removelast_sorted l : sorted_desc l = true -> sorted_desc (removelast l) = true.
Proof.
  intro Hs; rewrite removelast_firstn_len; apply firstn_sorted, Hs.
Qed.

Lemma slice0_sorted l k : sorted_desc l = true -> sorted_desc (slice0 l k) = true.
Proof.
  unfold slice0; destruct (k <? 0)%Z; apply firstn_sorted.
Qed.

(** ** Results of [searchLayer] and [search]: sorted, bounded, distinct *)

Lemma firstn_nodup (j : nat) W : NoDup (map cid W) -> NoDup (map cid (firstn j W)).
Proof.
  revert W; induction j as [|j IH]; intros [|x t] H; simpl; [constructor..|].
  inversion H as [|? ? Hx Ht]; subst; constructor; auto.
  intro Hin; apply Hx; rewrite <- (firstn_skipn j t), map_app.
  apply in_or_app; left; exact Hin.
Qed.

Lemma firstn_in (j : nat) W w : In w (firstn j W) -> In w W.
Proof.
  rewrite <- (firstn_skipn j W) at 2; intro H; apply in_or_app; auto.
Qed.

Lemma firstn_len_le (j : nat) (l : list Cand) : length (firstn j l) <= j /\ length (firstn j l) <= length l.
Proof. rewrite length_firstn; lia. Qed.

Lemma Winv_perm ef v W W2 :
  Permutation W W2 -> sorted_desc W2 = true -> Winv ef v W -> Winv ef v W2.
Proof.
  intros Hp Hs [_ [Hl [Hn Hi]]]; repeat split; auto.
  - rewrite <- (Permutation_length Hp); exact Hl.
  - eapply Permutation_NoDup; [apply Permutation_map, Hp|exact Hn].
  - intros w Hw; apply Hi; eapply Permutation_in; [apply Permutation_sym, Hp|exact Hw].
Qed.

Lemma Winv_mono ef v v' W : incl v v' -> Winv ef v W -> Winv ef v' W.
Proof. intros Hv [Hs [Hl [Hn Hi]]]; repeat split; auto. Qed.

Lemma Winv_push ef v W nid s :
  Winv ef v W -> ~ In nid v ->
  Winv ef (v ++ [nid])
    (if ef <? length (sort_desc (W ++ [mkCand nid s]))
     then removelast (sort_desc (W ++ [mkCand nid s]))
     else sort_desc (W ++ [mkCand nid s])).
Proof.
  intros HW Hnv.
  assert (HW1 : Winv ef (v ++ [nid]) (W ++ [mkCand nid s]) \/
                length (W ++ [mkCand nid s]) = S (length W)).
  { right; rewrite length_app; simpl; lia. }
  destruct HW as [Hs [Hl [Hn Hi]]].
  assert (Hp := sort_desc_perm (W ++ [mkCand nid s])).
  set (W1 := sort_desc (W ++ [mkCand nid s])) in *.
  assert (Hlen : length W1 = S (length W))
    by (rewrite (Permutation_length Hp), length_app; simpl; lia).
  assert (Hn1 : NoDup (map cid W1)).
  { eapply Permutation_NoDup; [apply Permutation_map, Permutation_sym, Hp|].
    rewrite map_app; simpl; apply NoDup_app; auto.
    - repeat constructor; auto.
    - intros x Hx [E|[]]; subst x; apply in_map_iff in Hx as [w [Ew Hw]].
      apply Hnv; rewrite <- Ew; apply Hi, Hw. }
  assert (Hi1 : forall w, In w W1 -> In (cid w) (v ++ [nid])).
  { intros w Hw; apply (Permutation_in _ Hp), in_app_or in Hw as [Hw|[E|[]]].
    - apply in_or_app; left; apply Hi, Hw.
    - subst w; apply in_or_app; right; left; reflexivity. }
  destruct (ef <? length W1) eqn:E.
  - apply Nat.ltb_lt in E; rewrite removelast_firstn_len.
    repeat split.
    + apply firstn_sorted, sort_desc_sorted.
    + rewrite length_firstn; lia.
    + apply firstn_nodup, Hn1.
    + intros w Hw; apply Hi1; eapply firstn_in; exact Hw.
  - apply Nat.ltb_ge in E; repeat split; auto.
    + apply sort_desc_sorted.
    + lia.
Qed.

Lemma sl_inner_Winv g query ef f nbrs v C W v' C' W' :
  Winv ef v W ->
  sl_inner dist g query ef f nbrs v C W = Ok (v', C', W') ->
  Winv ef v' W' /\ incl v v'.
Proof.
  revert v C W; induction nbrs as [|nid rest IH]; intros v C W HW Hr; simpl in Hr.
  - injection Hr as <- <- <-; split; [exact HW|apply incl_refl].
  - destruct (smem nid v) eqn:Hm; [apply (IH _ _ _ HW Hr)|].
    assert (Hnv : ~ In nid v).
    { intro Hin; apply smem_In in Hin; congruence. }
    destruct (mget (nodes g) nid) as [nb|]; [|discriminate].
    assert (Hinc : incl v (v ++ [nid])) by (intros x Hx; apply in_or_app; auto).
    destruct ((length W <? ef) || (score f <? dist query (vector nb))%Z).
    + destruct (IH _ _ _ (Winv_push ef v W nid _ HW Hnv) Hr) as [H1 H2].
      split; [exact H1|eapply incl_tran; eauto].
    + destruct (IH _ _ _ (Winv_mono _ _ _ _ Hinc HW) Hr) as [H1 H2].
      split; [exact H1|eapply incl_tran; eauto].
Qed.

Lemma sl_loop_Winv g query ef lvl fuel v C W W' :
  Winv ef v W ->
  sl_loop dist g query ef lvl fuel v C W = Ok W' -> exists v', Winv ef v' W'.
Proof.
  revert v C W; induction fuel as [|fuel IH]; intros v C W HW Hr.
  - destruct C; simpl in Hr; [injection Hr as <-; eauto|discriminate].
  - destruct C as [|c0 C0]; simpl in Hr; [injection Hr as <-; eauto|].
    assert (HW2 : Winv ef v (sort_desc W))
      by (eapply Winv_perm; [apply Permutation_sym, sort_desc_perm|
                             apply sort_desc_sorted|exact HW]).
    destruct (sort_desc (c0 :: C0)) as [|c C']; [discriminate|].
    destruct (last_opt (sort_desc W)) as [f|]; [|discriminate].
    destruct ((score c <? score f)%Z && (ef <=? length (sort_desc W))).
    + injection Hr as <-; eauto.
    + destruct (mget (nodes g) (cid c)) as [cNode|]; [|discriminate].
      destruct (nth_error (neighbors cNode) lvl) as [nbrs|]; [|discriminate].
      destruct (sl_inner dist g query ef f nbrs v C' (sort_desc W))
        as [[[v1 C1] W1]|e] eqn:Hi; [|discriminate].
      destruct (sl_inner_Winv _ _ _ _ _ _ _ _ _ _ _ HW2 Hi) as [HW1 _].
      exact (IH _ _ _ HW1 Hr).
Qed.

Lemma searchLayer_Winv g query e ef lvl fuel W :
  searchLayer dist g query (Some e) ef lvl fuel = Ok W ->
  sorted_desc W = true /\ length W <= Nat.max 1 ef /\ NoDup (map cid W).
Proof.
  unfold searchLayer; intro Hr.
  assert (H0 : Winv ef [id e] [mkCand (id e) (dist query (vector e))]).
  { split; [reflexivity|split; [apply Nat.le_max_l|split]].
    - repeat constructor; intros [].
    - intros w [<-|[]]; left; reflexivity. }
  destruct (sl_loop_Winv _ _ _ _ _ _ _ _ _ H0 Hr) as [v' [Hs [Hl [Hn _]]]].
  auto.
Qed.

Lemma search_inv g query k fuel r :
  search to_f32 dist g query k fuel = Ok r ->
  exists W, r = slice0 W k /\ sorted_desc W = true /\
    length W <= Nat.max 1 (efSearch g) /\ NoDup (map cid W).
Proof.
  unfold search; intro Hr.
  destruct (entryPointId g) as [ep|].
  - destruct (mget (nodes g) ep) as [cur|]; [|discriminate].
    destruct (descend _ _ _ _ _ _ _) as [[c d]|e]; [|discriminate].
    destruct (searchLayer _ _ _ _ _ _ _) as [W|e] eqn:Hs; [|discriminate].
    injection Hr as <-; exists W; split; auto; eapply searchLayer_Winv; eauto.
  - injection Hr as <-; exists [].
    split; [unfold slice0; destruct (k <? 0)%Z; symmetry; apply firstn_nil|].
    split; [reflexivity|split; [simpl; lia|constructor]].
Qed.

Lemma slice0_len_nonneg (l : list Cand) k :
  (0 <= k)%Z -> (Z.of_nat (length (slice0 l k)) <= k)%Z.
Proof.
  intro Hk; unfold slice0; destruct (k <? 0)%Z eqn:E; [apply Z.ltb_lt in E; lia|].
  rewrite length_firstn; lia.
Qed.

Lemma slice0_incl (l : list Cand) k :
  length (slice0 l k) <= length l /\ NoDup (map cid l) -> NoDup (map cid (slice0 l k)).
Proof.
  intros [_ Hn]; unfold slice0; destruct (k <? 0)%Z; apply firstn_nodup, Hn.
Qed.

Lemma slice0_length (l : list Cand) k : length (slice0 l k) <= length l.
Proof. unfold slice0; destruct (k <? 0)%Z; rewrite length_firstn; lia. Qed.

(** C5 (corrected). [search] on a graph without entry point returns the
    empty list; whenever [search] returns a list its scores are
    non-increasing, and for [k >= 0] it has at most [k] elements.  (For a
    negative [k], [W.slice(0, k)] drops [-k] elements from the end instead.) *)
Theorem search_sorted_at_most_k g query k fuel :
  (entryPointId g = None -> search to_f32 dist g query k fuel = Ok []) /\
  (forall r, search to_f32 dist g query k fuel = Ok r ->
     sorted_desc r = true /\ ((0 <= k)%Z -> (Z.of_nat (length r) <= k)%Z)).
Proof.
  split.
  - intro He; unfold search; rewrite He; reflexivity.
  - intros r Hr; destruct (search_inv _ _ _ _ _ Hr) as [W [-> [Hs _]]].
    split; [apply slice0_sorted, Hs|apply slice0_len_nonneg].
Qed.

(** C4 (corrected). Whatever the corpus size and [k], a result of [search] is
    a list of distinct ids of length at most [max 1 efSearch]: it is drawn
    from the beam of width [efSearch] explored from the entry point, not from
    the whole corpus. *)
Theorem search_beam_bounded g query k fuel r :
  search to_f32 dist g query k fuel = Ok r ->
  length r <= Nat.max 1 (efSearch g) /\ NoDup (map cid r).
Proof.
  intro Hr; destruct (search_inv _ _ _ _ _ Hr) as [W [-> [_ [Hl Hn]]]].
  split.
  - pose proof (slice0_length W k); lia.
  - apply slice0_incl; split; [apply slice0_length|exact Hn].
Qed.

(** ** Dangling ids *)

Lemma sl_inner_dangling g query ef f nbrs v C W x :
  In x nbrs -> ~ In x v -> mget (nodes g) x = None ->
  sl_inner dist g query ef f nbrs v C W = Err TypeError.
Proof.
  revert v C W; induction nbrs as [|nid rest IH]; intros v C W Hin Hv Hx;
    [destruct Hin|].
  simpl; destruct (String.eqb nid x) eqn:E.
  - apply String.eqb_eq in E; subst nid.
    destruct (smem x v) eqn:Hm; [apply smem_In in Hm; contradiction|].
    rewrite Hx; reflexivity.
  - apply String.eqb_neq in E.
    destruct Hin as [Hin|Hin]; [congruence|].
    destruct (smem nid v); [apply IH; auto|].
    assert (Hv' : ~ In x (v ++ [nid]))
      by (intro H; apply in_app_or in H as [H|[H|[]]]; congruence).
    destruct (mget (nodes g) nid); [|reflexivity].
    destruct (_ || _); apply IH; auto.
Qed.

Lemma scan_dangling g query nbrs best d x :
  In x nbrs -> mget (nodes g) x = None ->
  scan dist g query nbrs best d = Err TypeError.
Proof.
  revert best d; induction nbrs as [|nid rest IH]; intros best d Hin Hx;
    [destruct Hin|].
  simpl; destruct Hin as [<-|Hin]; [rewrite Hx; reflexivity|].
  destruct (mget (nodes g) nid); [|reflexivity].
  destruct (_ <? _)%Z; apply IH; auto.
Qed.

Lemma greedy_dangling g query l fuel curr d lst x :
  nth_error (neighbors curr) l = Some lst ->
  In x lst -> mget (nodes g) x = None ->
  greedy dist g query l (S fuel) curr d = Err TypeError.
Proof.
  intros Hl Hin Hx; simpl; rewrite Hl, (scan_dangling _ _ _ _ _ x Hin Hx).
  reflexivity.
Qed.

Lemma layers_from_S (hi n : nat) :
  layers_from hi (S n) = hi :: layers_from (hi - 1) n.
Proof.
  unfold layers_from; simpl; rewrite Nat.sub_0_r; f_equal.
  rewrite <- seq_shift, map_map; apply map_ext; intro i; lia.
Qed.

Lemma descend_cons g query fuel l ls curr d :
  descend dist g query fuel (l :: ls) curr d =
  match greedy dist g query l fuel curr d with
  | Err e => Err e
  | Ok (c', d') => descend dist g query fuel ls c' d'
  end.
Proof. reflexivity. Qed.

Lemma sl_inner_present g query ef f nbrs v C W v' C' W' :
  (forall y, In y v -> mhas (nodes g) y = true) ->
  sl_inner dist g query ef f nbrs v C W = Ok (v', C', W') ->
  forall y, In y v' -> mhas (nodes g) y = true.
Proof.
  revert v C W; induction nbrs as [|nid rest IH]; intros v C W Hv H.
  - injection H as <- _ _; exact Hv.
  - simpl in H; destruct (smem nid v); [exact (IH _ _ _ Hv H)|].
    destruct (mget (nodes g) nid) as [nb|] eqn:Hm; [|discriminate].
    assert (Hv' : forall y, In y (v ++ [nid]) -> mhas (nodes g) y = true).
    { intros y Hy; apply in_app_or in Hy as [Hy|[<-|[]]]; [exact (Hv y Hy)|].
      unfold mhas; rewrite Hm; reflexivity. }
    destruct (_ || _); exact (IH _ _ _ Hv' H).
Qed.

Lemma sort_desc_one (c : Cand) : sort_desc [c] = [c].
Proof. reflexivity. Qed.

Lemma sl_loop_hits g query ef lvl i v C W v2 C2 W2 cNode :
  sl_reach g query ef lvl i v C W v2 C2 W2 ->
  (forall y, In y v -> mhas (nodes g) y = true) ->
  sl_expands g ef C2 W2 cNode -> dangling_at g cNode lvl ->
  forall fuel, i < fuel -> sl_loop dist g query ef lvl fuel v C W = Err TypeError.
Proof.
  induction 1 as [v C W|i v C W v1 C1 W1 v2 C2 W2 Hs Hr IH];
    intros Hv Hexp Hd fuel Hf; (destruct fuel as [|fuel]; [lia|]).
  - destruct Hexp as (c & Ct & f & Hs & Hl & Hst & Hm).
    destruct Hd as (lst & x & Hn & Hin & Hx).
    destruct C as [|c1 C1]; [discriminate Hs|].
    cbn [sl_loop]; rewrite Hs, Hl, Hst, Hm, Hn.
    rewrite (sl_inner_dangling _ _ _ _ _ _ _ _ x Hin); [reflexivity| |exact Hx].
    intro Hxv; specialize (Hv x Hxv); unfold mhas in Hv; rewrite Hx in Hv;
      discriminate.
  - destruct Hs as (c & Ct & f & cN & nbrs & Hs & Hl & Hst & Hm & Hn & Hi).
    destruct C as [|c2 C3]; [discriminate Hs|].
    cbn [sl_loop]; rewrite Hs, Hl, Hst, Hm, Hn, Hi.
    apply IH; [exact (sl_inner_present _ _ _ _ _ _ _ _ _ _ _ Hv Hi)|exact Hexp
              |exact Hd|lia].
Qed.

Lemma searchLayer_hits g query ef lvl fuel e :
  sl_hits g query ef lvl fuel e ->
  searchLayer dist g query (Some e) ef lvl fuel = Err TypeError.
Proof.
  intros (i & v & C & W & cNode & Hf & Hr & Hexp & Hd).
  assert (Hp : mhas (nodes g) (id e) = true).
  { inversion Hr as [v0 C0 W0 E1 E2 E3 E4 E5 E6 E7
                    |i0 v0 C0 W0 v1 C1 W1 v3 C3 W3 Hs Hr' E1 E2 E3 E4 E5 E6 E7];
      subst.
    - destruct Hexp as (c & Ct & f & Hs & _ & _ & Hm).
      rewrite sort_desc_one in Hs; injection Hs as <- _.
      unfold mhas; simpl in Hm; rewrite Hm; reflexivity.
    - destruct Hs as (c & Ct & f & cN & nbrs & Hs & _ & _ & Hm & _).
      rewrite sort_desc_one in Hs; injection Hs as <- _.
      unfold mhas; simpl in Hm; rewrite Hm; reflexivity. }
  unfold searchLayer.
  exact (sl_loop_hits _ _ _ _ _ _ _ _ _ _ _ _ Hr
           (fun y Hy => match Hy with
                        | or_introl E => eq_ind _ (fun z => mhas (nodes g) z = true) Hp _ E
                        | or_intror F => match F with end
                        end) Hexp Hd fuel Hf).
Qed.

Lemma greedy_reach_hits g query l i curr d c :
  greedy_reach g query l i curr d c -> dangling_at g c l ->
  forall fuel, i < fuel -> greedy dist g query l fuel curr d = Err TypeError.
Proof.
  induction 1 as [curr d|i curr d nbrs b bd c Hn Hs Hr IH];
    intros Hd fuel Hf; (destruct fuel as [|fuel]; [lia|]).
  - destruct Hd as (lst & x & Hn & Hin & Hx).
    exact (greedy_dangling _ _ _ _ _ _ _ x Hn Hin Hx).
  - cbn [greedy]; rewrite Hn, Hs; apply IH; [exact Hd|lia].
Qed.

Lemma descend_hits_err g query fuel ls curr d :
  descend_hits g query fuel ls curr d ->
  descend dist g query fuel ls curr d = Err TypeError.
Proof.
  induction 1 as [l ls curr d i c Hr Hf Hd|l ls curr d c' d' Hg _ IH];
    rewrite descend_cons.
  - rewrite (greedy_reach_hits _ _ _ _ _ _ _ Hr Hd _ Hf); reflexivity.
  - rewrite Hg; exact IH.
Qed.

Lemma cl_hits_err newId fv fuel ls co touched g :
  cl_hits newId fv fuel ls co touched g ->
  snd (connect_layers dist newId fv fuel ls co touched g) = Err TypeError.
Proof.
  induction 1 as [l ls e touched g Hs|l ls co touched g g' p Hc _ IH].
  - cbn [connect_layers]; unfold connect_layer, st_bind, st_get, st_lift.
    cbv beta iota.
    rewrite (searchLayer_hits _ _ _ _ _ _ Hs); reflexivity.
  - cbn [connect_layers]; unfold st_bind at 1; rewrite Hc; exact IH.
Qed.

(** C1 (corrected). A dangling id is not skipped: whenever the traversal
    reads the list of a node that holds an id absent from the node map,
    [this.nodes.get(id)!.vector] throws a [TypeError].  This happens when
    [searchLayer] pops such a node (on the searched layer) after any number
    of passes, when the greedy hill-climb arrives at such a node after any
    number of moves, in [search] when its descent or its layer-0
    [searchLayer] reaches one, and in [addPoint] when its descent or the
    [searchLayer] of any layer it connects reaches one. *)
Theorem dangling_id_raises g :
  (forall query e ef lvl fuel, sl_hits g query ef lvl fuel e ->
     searchLayer dist g query (Some e) ef lvl fuel = Err TypeError) /\
  (forall query l i curr d c fuel, greedy_reach g query l i curr d c ->
     dangling_at g c l -> i < fuel ->
     greedy dist g query l fuel curr d = Err TypeError) /\
  (forall q k fuel ep e, entryPointId g = Some ep -> mget (nodes g) ep = Some e ->
     descend_hits g (map to_f32 q) fuel (layers_from (maxLevel g) (maxLevel g)) e
       (dist (map to_f32 q) (vector e)) \/
     (exists c dc,
        descend dist g (map to_f32 q) fuel (layers_from (maxLevel g) (maxLevel g)) e
          (dist (map to_f32 q) (vector e)) = Ok (c, dc) /\
        sl_hits g (map to_f32 q) (efSearch g) 0 fuel c) ->
     search to_f32 dist g q k fuel = Err TypeError) /\
  (forall newId vec lvl fuel ep e, mhas (nodes g) newId = false ->
     entryPointId g = Some ep ->
     mget (nodes (inserted g newId vec lvl)) ep = Some e ->
     descend_hits (inserted g newId vec lvl) (map to_f32 vec) fuel
       (layers_from (maxLevel g) (maxLevel g - lvl)) e
       (dist (map to_f32 vec) (vector e)) \/
     (exists c dc,
        descend dist (inserted g newId vec lvl) (map to_f32 vec) fuel
          (layers_from (maxLevel g) (maxLevel g - lvl)) e
          (dist (map to_f32 vec) (vector e)) = Ok (c, dc) /\
        cl_hits newId (map to_f32 vec) fuel
          (layers_from (Nat.min lvl (maxLevel g)) (S (Nat.min lvl (maxLevel g))))
          (Some c) [newId] (inserted g newId vec lvl)) ->
     snd (addPoint to_f32 dist newId vec lvl fuel g) = Err TypeError).
Proof.
  split; [|split; [|split]].
  - intros query e ef lvl fuel H; exact (searchLayer_hits _ _ _ _ _ _ H).
  - intros query l i curr d c fuel Hr Hd Hf; exact (greedy_reach_hits _ _ _ _ _ _ _ Hr Hd _ Hf).
  - intros q k fuel ep e Hep He H; unfold search; rewrite Hep, He.
    destruct H as [H|(c & dc & H & Hs)].
    + rewrite (descend_hits_err _ _ _ _ _ _ H); reflexivity.
    + rewrite H, (searchLayer_hits _ _ _ _ _ _ Hs); reflexivity.
  - intros newId vec lvl fuel ep e Hh Hep He H.
    rewrite (addPoint_unfold _ _ _ _ _ Hh); cbv zeta; rewrite Hep, He.
    destruct H as [H|(c & dc & H & Hs)].
    + rewrite (descend_hits_err _ _ _ _ _ _ H); reflexivity.
    + rewrite H; pose proof (cl_hits_err _ _ _ _ _ _ _ Hs) as Hc.
      destruct (connect_layers _ _ _ _ _ _ _ _) as [g2 r]; simpl in Hc; subst r.
      reflexivity.
Qed.

(** ** The degree bound *)

Lemma nth_error_upd_nth {A} (l : list A) i x j :
  nth_error (upd_nth l i x) j =
  if Nat.eqb i j then option_map (fun _ => x) (nth_error l j) else nth_error l j.
Proof.
  revert i j; induction l as [|h t IH]; intros i j.
  - destruct (Nat.eqb i j), j; reflexivity.
  - destruct i as [|i], j as [|j]; simpl; auto.
Qed.

Lemma mhas_frame {A} (m : st A) g x :
  frame m -> mhas (nodes (fst (m g))) x = mhas (nodes g) x.
Proof.
  intro Hf; specialize (Hf g); unfold shape in Hf; injection Hf as Hl _ _ _ _ _ _.
  pose proof (lget_levels (fst (m g)) x) as H1; pose proof (lget_levels g x) as H2.
  rewrite Hl in H1; unfold mhas.
  destruct (mget (nodes (fst (m g))) x), (mget (nodes g) x); simpl in *; congruence.
Qed.

Lemma M_frame {A} (m : st A) g : frame m -> M (fst (m g)) = M g.
Proof.
  intro Hf; specialize (Hf g); unfold shape in Hf; injection Hf as _ _ _ HM _ _ _.
  exact HM.
Qed.

Lemma set_nbrs_snd k l lst g : snd (set_nbrs k l lst g) = Ok tt.
Proof. unfold set_nbrs; destruct (mget (nodes g) k); reflexivity. Qed.

Lemma deg_ok_set_nbrs g k l X :
  deg_ok g -> length X <= M g -> deg_ok (fst (set_nbrs k l X g)).
Proof.
  intros Hd HX; unfold set_nbrs.
  destruct (mget (nodes g) k) as [n|] eqn:Hk; [|exact Hd].
  intros k' n' Hin L lst HL Hnth; simpl in *.
  apply in_mset in Hin as [Hin|[-> ->]]; [exact (Hd _ _ Hin L lst HL Hnth)|].
  simpl in HL, Hnth; rewrite nth_error_upd_nth in Hnth.
  destruct (Nat.eqb l L) eqn:E.
  - destruct (nth_error (neighbors n) L); simpl in Hnth; [|discriminate].
    injection Hnth as <-; exact HX.
  - exact (Hd _ _ (mget_in _ _ _ Hk) L lst HL Hnth).
Qed.

Lemma GoodL_set_nbrs g k l X l0 k0 :
  GoodL g l0 k0 -> (forall x, In x X -> mhas (nodes g) x = true) ->
  GoodL (fst (set_nbrs k l X g)) l0 k0.
Proof.
  intros [n0 [lst0 [Hk0 [Hl0 Hx0]]]] HX.
  assert (Hm : forall x, mhas (nodes (fst (set_nbrs k l X g))) x = mhas (nodes g) x)
    by (intro x; apply mhas_frame, frame_set_nbrs).
  unfold GoodL; setoid_rewrite Hm.
  unfold set_nbrs in *; destruct (mget (nodes g) k) as [n|] eqn:Hk;
    [|exists n0, lst0; auto].
  simpl. destruct (String.eqb k0 k) eqn:E.
  - apply String.eqb_eq in E; subst k0; rewrite Hk in Hk0; injection Hk0 as <-.
    rewrite mget_mset_same; eexists; destruct (Nat.eqb l l0) eqn:El.
    + exists X; split; [reflexivity|]; simpl; rewrite nth_error_upd_nth, El, Hl0.
      split; [reflexivity|exact HX].
    + exists lst0; split; [reflexivity|]; simpl; rewrite nth_error_upd_nth, El.
      split; [exact Hl0|exact Hx0].
  - apply String.eqb_neq in E; rewrite (mget_mset_other _ _ _ _ E).
    exists n0, lst0; auto.
Qed.

Lemma score_all_ok g nv lst :
  (forall x, In x lst -> mhas (nodes g) x = true) ->
  exists cs, score_all dist g nv lst = Ok cs /\ map cid cs = lst.
Proof.
  induction lst as [|x rest IH]; intro Hp; simpl; [exists []; auto|].
  assert (Hx : mhas (nodes g) x = true) by (apply Hp; left; reflexivity).
  destruct (mget (nodes g) x) as [n|] eqn:E;
    [|unfold mhas in Hx; rewrite E in Hx; discriminate].
  destruct IH as [cs [-> Hcs]]; [intros y Hy; apply Hp; right; exact Hy|].
  exists (mkCand x (dist nv (vector n)) :: cs); simpl; rewrite Hcs; auto.
Qed.

Lemma sort_desc_in l x : In x (sort_desc l) <-> In x l.
Proof.
  split; apply Permutation_in; [|apply Permutation_sym]; apply sort_desc_perm.
Qed.

Lemma select_ids_in g cs (m : nat) :
  (forall x, In x (map cid cs) -> mhas (nodes g) x = true) ->
  forall x, In x (map cid (firstn m (sort_desc cs))) -> mhas (nodes g) x = true.
Proof.
  intros Hp x Hx; apply Hp; apply in_map_iff in Hx as [c [<- Hc]].
  apply in_map, sort_desc_in, (firstn_in m), Hc.
Qed.

Lemma select_ids_len cs (m : nat) : length (map cid (firstn m (sort_desc cs))) <= m.
Proof. rewrite length_map, length_firstn; lia. Qed.

Lemma mset_mset (m : list (string * Node)) k a b :
  mset (mset m k a) k b = mset m k b.
Proof.
  induction m as [|[k0 n0] t IH]; simpl; [rewrite String.eqb_refl; reflexivity|].
  destruct (String.eqb k k0) eqn:E; simpl; rewrite E; [reflexivity|rewrite IH; reflexivity].
Qed.

Lemma upd_nth_twice {A} (l : list A) i x y :
  upd_nth (upd_nth l i x) i y = upd_nth l i y.
Proof.
  revert i; induction l as [|h t IH]; intros [|i]; simpl; auto; rewrite IH; auto.
Qed.

Lemma set_nbrs_twice k l X Y g :
  fst (set_nbrs k l X (fst (set_nbrs k l Y g))) = fst (set_nbrs k l X g).
Proof.
  unfold set_nbrs; destruct (mget (nodes g) k) as [n|] eqn:Hk; simpl;
    [|rewrite Hk; reflexivity].
  rewrite mget_mset_same, mset_mset; simpl; rewrite upd_nth_twice; reflexivity.
Qed.

Lemma link_neighbor_ok newId l touched ninfo g :
  deg_ok g -> mhas (nodes g) newId = true -> GoodL g l (cid ninfo) ->
  (exists t, snd (link_neighbor dist newId l touched ninfo g) = Ok t) /\
  deg_ok (fst (link_neighbor dist newId l touched ninfo g)) /\
  (forall l0 k0, GoodL g l0 k0 -> GoodL (fst (link_neighbor dist newId l touched ninfo g)) l0 k0).
Proof.
  intros Hd Hn [n [lst [Hk [Hl Hx]]]].
  assert (Hp : forall x, In x (lst ++ [newId]) -> mhas (nodes g) x = true).
  { intros x Hin; apply in_app_or in Hin as [Hin|[<-|[]]]; auto. }
  unfold link_neighbor, st_bind, st_get, st_lift, st_ret; rewrite Hk, Hl.
  rewrite (surjective_pairing (set_nbrs _ _ _ g)), set_nbrs_snd.
  set (g1 := fst (set_nbrs (cid ninfo) l (lst ++ [newId]) g)).
  assert (Hm1 : forall x, mhas (nodes g1) x = mhas (nodes g) x)
    by (intro x; apply mhas_frame, frame_set_nbrs).
  destruct (M g <? length (lst ++ [newId])) eqn:Hlt.
  - destruct (score_all_ok g1 (vector n) (lst ++ [newId])) as [cs [Hcs Hids]].
    { intros x Hin; rewrite Hm1; auto. }
    rewrite Hcs.
    rewrite (surjective_pairing (set_nbrs _ _ _ g1)), set_nbrs_snd.
    unfold selectNeighbors; split; [eexists; reflexivity|split].
    + unfold g1; rewrite set_nbrs_twice.
      apply deg_ok_set_nbrs; [exact Hd|apply select_ids_len].
    + intros l0 k0 HG; apply GoodL_set_nbrs.
      * apply GoodL_set_nbrs; auto.
      * apply select_ids_in; rewrite Hids; intros x Hin; rewrite Hm1; auto.
  - apply Nat.ltb_ge in Hlt; split; [eexists; reflexivity|split].
    + apply deg_ok_set_nbrs; auto.
    + intros l0 k0 HG; apply GoodL_set_nbrs; auto.
Qed.

Lemma sorted_head_max c l w :
  sorted_desc (c :: l) = true -> In w (c :: l) -> (score w <= score c)%Z.
Proof.
  revert c; induction l as [|y t IH]; intros c Hs [<-|Hin]; try lia; [destruct Hin|].
  simpl in Hs; apply andb_prop in Hs as [Hyc Hs]; apply Z.leb_le in Hyc.
  specialize (IH y Hs Hin); lia.
Qed.

Lemma sorted_last_min l f w :
  sorted_desc l = true -> last_opt l = Some f -> In w l -> (score f <= score w)%Z.
Proof.
  revert w; induction l as [|x t IH]; intros w Hs Hf Hin; [destruct Hin|].
  destruct t as [|y t'].
  - simpl in Hf; injection Hf as <-; destruct Hin as [<-|[]]; lia.
  - simpl in Hs; apply andb_prop in Hs as [Hyx Hs]; apply Z.leb_le in Hyx.
    change (last_opt (y :: t') = Some f) in Hf.
    destruct Hin as [<-|Hin].
    + specialize (IH y Hs Hf (or_introl eq_refl)); lia.
    + exact (IH w Hs Hf Hin).
Qed.

Lemma removelast_in (l : list Cand) w : In w (removelast l) -> In w l.
Proof. rewrite removelast_firstn_len; apply firstn_in. Qed.

Lemma sl_inner_good (P : Cand -> Prop) g query ef f nbrs v C W v' C' W' :
  (forall x, In x v -> mhas (nodes g) x = true) ->
  (forall w, In w W -> P w \/ In w C) ->
  sl_inner dist g query ef f nbrs v C W = Ok (v', C', W') ->
  (forall x, In x v' -> mhas (nodes g) x = true) /\
  (forall w, In w W' -> P w \/ In w C') /\
  (forall x, In x nbrs -> mhas (nodes g) x = true).
Proof.
  revert v C W; induction nbrs as [|nid rest IH]; intros v C W Hv HW Hr; simpl in Hr.
  - injection Hr as <- <- <-; repeat split; auto; intros x [].
  - destruct (smem nid v) eqn:Hm.
    + destruct (IH _ _ _ Hv HW Hr) as [H1 [H2 H3]]; repeat split; auto.
      intros x [<-|Hx]; [apply Hv, smem_In, Hm|auto].
    + destruct (mget (nodes g) nid) as [nb|] eqn:Hnb; [|discriminate].
      assert (Hnid : mhas (nodes g) nid = true) by (unfold mhas; rewrite Hnb; auto).
      assert (Hv' : forall x, In x (v ++ [nid]) -> mhas (nodes g) x = true)
        by (intros x Hx; apply in_app_or in Hx as [Hx|[<-|[]]]; auto).
      destruct ((length W <? ef) || (score f <? dist query (vector nb))%Z).
      * set (e := mkCand nid (dist query (vector nb))) in *.
        assert (HW' : forall w, In w (if ef <? length (sort_desc (W ++ [e]))
                                      then removelast (sort_desc (W ++ [e]))
                                      else sort_desc (W ++ [e])) ->
                        P w \/ In w (C ++ [e])).
        { intros w Hw.
          assert (Hw' : In w (sort_desc (W ++ [e])))
            by (destruct (_ <? _); [apply removelast_in|]; exact Hw).
          apply sort_desc_in, in_app_or in Hw' as [Hw'|[<-|[]]].
          - destruct (HW w Hw') as [H|H]; [left; exact H|right; apply in_or_app; auto].
          - right; apply in_or_app; right; left; reflexivity. }
        destruct (IH _ _ _ Hv' HW' Hr) as [H1 [H2 H3]]; repeat split; auto.
        intros x [<-|Hx]; auto.
      * destruct (IH _ _ _ Hv' HW Hr) as [H1 [H2 H3]]; repeat split; auto.
        intros x [<-|Hx]; auto.
Qed.

Lemma sl_loop_good g query ef lvl fuel v C W W' :
  (forall x, In x v -> mhas (nodes g) x = true) ->
  (forall w, In w W -> GoodL g lvl (cid w) \/ In w C) ->
  sl_loop dist g query ef lvl fuel v C W = Ok W' ->
  forall w, In w W' -> GoodL g lvl (cid w).
Proof.
  revert v C W; induction fuel as [|fuel IH]; intros v C W Hv HW Hr.
  - destruct C; simpl in Hr; [injection Hr as <-|discriminate].
    intros w Hw; destruct (HW w Hw) as [H|[]]; exact H.
  - destruct C as [|c0 C0]; simpl in Hr.
    { injection Hr as <-; intros w Hw; destruct (HW w Hw) as [H|[]]; exact H. }
    assert (HCs := sort_desc_sorted (c0 :: C0)).
    assert (HCi : forall w, In w (c0 :: C0) <-> In w (sort_desc (c0 :: C0)))
      by (intro w; symmetry; apply sort_desc_in).
    destruct (sort_desc (c0 :: C0)) as [|c C']; [discriminate|].
    assert (HW2 : forall w, In w (sort_desc W) -> GoodL g lvl (cid w) \/ In w (c :: C'))
      by (intros w Hw; apply sort_desc_in, HW in Hw as [H|H]; [left|right; apply HCi]; auto).
    destruct (last_opt (sort_desc W)) as [f|] eqn:Hf; [|discriminate].
    destruct ((score c <? score f)%Z && (ef <=? length (sort_desc W))) eqn:Hbrk.
    + injection Hr as <-; intros w Hw.
      destruct (HW2 w Hw) as [H|H]; [exact H|exfalso].
      apply andb_prop in Hbrk as [Hcf _]; apply Z.ltb_lt in Hcf.
      pose proof (sorted_head_max _ _ _ HCs H).
      pose proof (sorted_last_min _ _ _ (sort_desc_sorted W) Hf Hw); lia.
    + destruct (mget (nodes g) (cid c)) as [cNode|] eqn:Hc; [|discriminate].
      destruct (nth_error (neighbors cNode) lvl) as [nbrs|] eqn:Hn; [|discriminate].
      destruct (sl_inner dist g query ef f nbrs v C' (sort_desc W))
        as [[[v1 C1] W1]|e] eqn:Hi; [|discriminate].
      assert (HWc : forall w, In w (sort_desc W) ->
                      (GoodL g lvl (cid w) \/ w = c) \/ In w C')
        by (intros w Hw; destruct (HW2 w Hw) as [H|[<-|H]]; auto).
      destruct (sl_inner_good (fun w => GoodL g lvl (cid w) \/ w = c)
                  _ _ _ _ _ _ _ _ _ _ _ Hv HWc Hi) as [H1 [H2 H3]].
      refine (IH _ _ _ H1 _ Hr).
      intros w Hw; destruct (H2 w Hw) as [[H|<-]|H]; auto.
      left; exists cNode, nbrs; auto.
Qed.

Lemma searchLayer_good g query e ef lvl fuel W :
  searchLayer dist g query (Some e) ef lvl fuel = Ok W ->
  forall w, In w W -> GoodL g lvl (cid w).
Proof.
  unfold searchLayer; intro Hr.
  destruct (mget (nodes g) (id e)) as [n|] eqn:He.
  - refine (sl_loop_good _ _ _ _ _ _ _ _ _ _ _ Hr).
    + intros x [<-|[]]; unfold mhas; rewrite He; reflexivity.
    + intros w Hw; right; exact Hw.
  - destruct fuel; simpl in Hr; [discriminate|].
    rewrite Z.ltb_irrefl, andb_false_l, He in Hr; discriminate.
Qed.

Lemma link_all_ok newId l sel touched g :
  deg_ok g -> mhas (nodes g) newId = true ->
  (forall w, In w sel -> GoodL g l (cid w)) ->
  (exists t, snd (link_all dist newId l sel touched g) = Ok t) /\
  deg_ok (fst (link_all dist newId l sel touched g)).
Proof.
  revert touched g; induction sel as [|ninfo rest IH]; intros touched g Hd Hn Hs.
  - split; [eexists; reflexivity|exact Hd].
  - simpl; unfold st_bind.
    destruct (link_neighbor_ok newId l touched ninfo g Hd Hn) as [[t Ht] [Hd1 HG1]];
      [apply Hs; left; reflexivity|].
    pose proof (mhas_frame _ g newId (frame_link_neighbor newId l touched ninfo)) as Hn1.
    destruct (link_neighbor dist newId l touched ninfo g) as [g1 r] eqn:E.
    simpl in Ht, Hd1, HG1, Hn1; subst r.
    apply IH; auto; [rewrite Hn1; exact Hn|].
    intros w Hw; apply HG1, Hs; right; exact Hw.
Qed.

Lemma GoodL_mhas g l k : GoodL g l k -> mhas (nodes g) k = true.
Proof. intros [n [_ [Hk _]]]; unfold mhas; rewrite Hk; reflexivity. Qed.

Lemma connect_layer_deg newId fv fuel l co touched g :
  deg_ok g -> mhas (nodes g) newId = true ->
  deg_ok (fst (connect_layer dist newId fv fuel l co touched g)).
Proof.
  intros Hd Hn; unfold connect_layer, st_bind, st_get, st_lift, st_ret.
  destruct (searchLayer dist g fv co (efConstruction g) l fuel) as [W|e] eqn:Hs;
    [|exact Hd].
  destruct co as [e|]; [|discriminate].
  pose proof (searchLayer_good _ _ _ _ _ _ _ Hs) as HG.
  set (sel := firstn (M g) (sort_desc W)).
  assert (HGs : forall w, In w sel -> GoodL g l (cid w))
    by (intros w Hw; apply HG, sort_desc_in, (firstn_in (M g)), Hw).
  assert (Hids : forall x, In x (map cid sel) -> mhas (nodes g) x = true).
  { intros x Hx; apply in_map_iff in Hx as [w [<- Hw]]; apply (GoodL_mhas g l), HGs, Hw. }
  rewrite (surjective_pairing (set_nbrs _ _ _ g)), set_nbrs_snd.
  set (g1 := fst (set_nbrs newId l (map cid sel) g)).
  assert (Hd1 : deg_ok g1) by (apply deg_ok_set_nbrs; [exact Hd|apply select_ids_len]).
  assert (Hn1 : mhas (nodes g1) newId = true)
    by (unfold g1; rewrite mhas_frame; [exact Hn|apply frame_set_nbrs]).
  assert (HGs1 : forall w, In w sel -> GoodL g1 l (cid w))
    by (intros w Hw; apply GoodL_set_nbrs; auto).
  destruct (link_all_ok newId l sel touched g1 Hd1 Hn1 HGs1) as [[t Ht] Hd2].
  destruct (link_all dist newId l sel touched g1) as [g2 r]; simpl in Ht, Hd2; subst r.
  exact Hd2.
Qed.

Lemma connect_layers_deg newId fv fuel ls co touched g :
  deg_ok g -> mhas (nodes g) newId = true ->
  deg_ok (fst (connect_layers dist newId fv fuel ls co touched g)).
Proof.
  revert co touched g; induction ls as [|l ls IH]; intros co touched g Hd Hn;
    [exact Hd|].
  simpl; unfold st_bind.
  pose proof (connect_layer_deg newId fv fuel l co touched g Hd Hn) as Hd1.
  pose proof (mhas_frame _ g newId (frame_connect_layer newId fv fuel l co touched)) as Hn1.
  destruct (connect_layer dist newId fv fuel l co touched g) as [g1 [p|e]];
    simpl in Hd1, Hn1; [|exact Hd1].
  apply IH; [exact Hd1|rewrite Hn1; exact Hn].
Qed.

Lemma deg_ok_inserted g newId vec lvl :
  deg_ok g -> mhas (nodes g) newId = false -> deg_ok (inserted g newId vec lvl).
Proof.
  intros Hd Hh k n Hin L lst HL Hnth; unfold inserted in *; simpl in *.
  apply in_mset in Hin as [Hin|[-> ->]]; [exact (Hd _ _ Hin L lst HL Hnth)|].
  apply nth_error_In in Hnth.
  change (In lst (repeat (@nil string) (S lvl))) in Hnth.
  apply repeat_spec in Hnth; subst lst; simpl; lia.
Qed.

(** C2. The degree bound is kept by every [addPoint] call, whatever its
    outcome: if every node [n] of the map has at most [M] ids in
    [n.neighbors[L]] for every [L <= n.level], the same holds in the graph the
    call leaves behind, for the new node and for every neighbor whose list
    was extended and pruned. *)
Theorem addPoint_degree_bound g newId vec lvl fuel :
  deg_ok g -> deg_ok (fst (addPoint to_f32 dist newId vec lvl fuel g)).
Proof.
  intro Hd.
  destruct (mhas (nodes g) newId) eqn:Hh.
  { unfold addPoint; rewrite Hh; exact Hd. }
  rewrite (addPoint_unfold _ _ _ _ _ Hh); cbv zeta.
  pose proof (deg_ok_inserted g newId vec lvl Hd Hh) as Hd1.
  assert (Hn1 : mhas (nodes (inserted g newId vec lvl)) newId = true)
    by (unfold mhas, inserted; simpl; rewrite mget_mset_same; reflexivity).
  destruct (entryPointId g) as [ep|]; [|exact Hd1].
  destruct (mget _ ep) as [cur|]; [|exact Hd1].
  destruct (descend _ _ _ _ _ _ _) as [[c' d']|e]; [|exact Hd1].
  pose proof (connect_layers_deg newId (map to_f32 vec) fuel
                (layers_from (Nat.min lvl (maxLevel g)) (S (Nat.min lvl (maxLevel g))))
                (Some c') [newId] _ Hd1 Hn1) as Hd2.
  destruct (connect_layers _ _ _ _ _ _ _ _) as [g2 [t|e]]; simpl in Hd2 |- *;
    [|exact Hd2].
  destruct (maxLevel g2 <? lvl); [exact Hd2|exact Hd2].
Qed.

(** ** [toJSON] and [fromJSON] *)

Lemma keys_levels g : map fst (levels g) = map fst (nodes g).
Proof. unfold levels; rewrite map_map; reflexivity. Qed.

Lemma mget_none (m : list (string * Node)) k : ~ In k (map fst m) -> mget m k = None.
Proof.
  induction m as [|[k0 n0] t IH]; simpl; auto; intro H.
  destruct (String.eqb k k0) eqn:E.
  - apply String.eqb_eq in E; subst; exfalso; apply H; left; reflexivity.
  - apply IH; intro Hin; apply H; right; exact Hin.
Qed.

Lemma mget_some_in (m : list (string * Node)) k n : mget m k = Some n -> In k (map fst m).
Proof. intro H; apply in_map_iff; exists (k, n); split; auto; apply mget_in, H. Qed.

Lemma mset_absent (m : list (string * Node)) k n :
  mget m k = None -> mset m k n = m ++ [(k, n)].
Proof.
  induction m as [|[k0 n0] t IH]; simpl; auto.
  destruct (String.eqb k k0); [discriminate|]; intro H; rewrite IH; auto.
Qed.

Lemma keys_mset (m : list (string * Node)) k n :
  map fst (mset m k n) = if mhas m k then map fst m else map fst m ++ [k].
Proof.
  unfold mhas; induction m as [|[k0 n0] t IH]; simpl; auto.
  destruct (String.eqb k k0) eqn:E; simpl; auto.
  rewrite IH; destruct (mget t k); reflexivity.
Qed.

Lemma mget_none_notin (m : list (string * Node)) k : mget m k = None -> ~ In k (map fst m).
Proof.
  induction m as [|[k0 n0] t IH]; simpl; auto.
  destruct (String.eqb k k0) eqn:E; [discriminate|]; intros H [Ek|Hin].
  - subst; rewrite String.eqb_refl in E; discriminate.
  - exact (IH H Hin).
Qed.

Lemma nodup_snoc (l : list string) x : NoDup l -> ~ In x l -> NoDup (l ++ [x]).
Proof.
  intros Hn Hx; eapply Permutation_NoDup; [apply Permutation_cons_append|].
  constructor; auto.
Qed.

Lemma nodup_keys_mset (m : list (string * Node)) k n :
  NoDup (map fst m) -> NoDup (map fst (mset m k n)).
Proof.
  intro H; rewrite keys_mset; unfold mhas.
  destruct (mget m k) eqn:E; auto.
  apply nodup_snoc; auto; apply mget_none_notin, E.
Qed.

Lemma new_index_ok (c : HNSWConfig) : graph_ok (new_index num_truthy inv_log c).
Proof.
  unfold graph_ok, new_index, or_nat, or_num; simpl.
  destruct c as [m efc efs lm]; simpl.
  repeat split;
    [destruct m as [[|]|]; discriminate|destruct efc as [[|]|]; discriminate|
     destruct efs as [[|]|]; discriminate| |constructor].
  destruct lm as [v|]; [destruct (num_truthy v) eqn:E; auto|auto].
Qed.

Lemma fromJSON_fold js (idx : HNSWIndex) :
  fold_left (fun idx nd =>
      set_nodes idx (mset (nodes idx) (jid nd)
        (mkNode (jid nd) (map to_f32 (jvector nd)) (jlevel nd) (jneighbors nd))))
    js idx =
  set_nodes idx (fold_left (fun m nd => mset m (fst (json_node nd)) (snd (json_node nd)))
                   js (nodes idx)).
Proof.
  revert idx; induction js as [|nd js IH]; intro idx; simpl.
  - destruct idx; reflexivity.
  - rewrite IH; reflexivity.
Qed.

Lemma fold_mset_nodup js (m : list (string * Node)) :
  NoDup (map fst m) ->
  NoDup (map fst (fold_left (fun m nd => mset m (fst (json_node nd)) (snd (json_node nd)))
                    js m)).
Proof.
  revert m; induction js as [|nd js IH]; intros m H; simpl; auto.
  apply IH, nodup_keys_mset, H.
Qed.

Lemma fold_mset_fresh js (m : list (string * Node)) :
  NoDup (map fst m ++ map jid js) ->
  fold_left (fun m nd => mset m (fst (json_node nd)) (snd (json_node nd))) js m =
  m ++ map json_node js.
Proof.
  revert m; induction js as [|nd js IH]; intros m H; simpl; [rewrite app_nil_r; auto|].
  rewrite mset_absent.
  - rewrite IH; [rewrite <- app_assoc; reflexivity|].
    rewrite map_app, <- app_assoc; exact H.
  - apply mget_none; intro Hin.
    apply NoDup_remove_2 in H; apply H; apply in_or_app; left; exact Hin.
Qed.

Lemma fromJSON_ok j : graph_ok (fromJSON to_f32 num_truthy inv_log j).
Proof.
  unfold fromJSON; rewrite fromJSON_fold.
  destruct (new_index_ok (mkConfig (Some (jM j)) (Some (jefConstruction j))
              (Some (jefSearch j)) (Some (jlevelMultiplier j))))
    as [H1 [H2 [H3 [H4 _]]]].
  repeat split; auto; simpl; apply fold_mset_nodup; constructor.
Qed.

Lemma addPoint_keys g newId vec lvl fuel :
  let g' := fst (addPoint to_f32 dist newId vec lvl fuel g) in
  M g' = M g /\ efConstruction g' = efConstruction g /\ efSearch g' = efSearch g /\
  levelMultiplier g' = levelMultiplier g /\
  (map fst (nodes g') = map fst (nodes g) \/
   (mhas (nodes g) newId = false /\ map fst (nodes g') = map fst (nodes g) ++ [newId])).
Proof.
  cbv zeta.
  destruct (mhas (nodes g) newId) eqn:Hh.
  { unfold addPoint; rewrite Hh; simpl; auto 10. }
  assert (Hk1 : map fst (nodes (inserted g newId vec lvl)) = map fst (nodes g) ++ [newId])
    by (unfold inserted; simpl; rewrite keys_mset, Hh; reflexivity).
  assert (G1 : forall g2, shape g2 = shape (inserted g newId vec lvl) ->
     M g2 = M g /\ efConstruction g2 = efConstruction g /\ efSearch g2 = efSearch g /\
     levelMultiplier g2 = levelMultiplier g /\
     map fst (nodes g2) = map fst (nodes g) ++ [newId]).
  { intros g2 Hs; unfold shape in Hs; injection Hs as Hl _ _ HM Hc Hse Hlm.
    rewrite <- !keys_levels in Hk1 |- *; rewrite Hl; repeat split; auto. }
  rewrite (addPoint_unfold _ _ _ _ _ Hh); cbv zeta.
  destruct (entryPointId g) as [ep|].
  all: destruct (G1 _ eq_refl) as [A1 [A2 [A3 [A4 A5]]]].
  2:{ unfold set_top; cbn [fst M efConstruction efSearch levelMultiplier nodes]; auto 10. }
  destruct (mget _ ep) as [cur|]; [|simpl; auto 10].
  destruct (descend _ _ _ _ _ _ _) as [[c' d']|e]; [|simpl; auto 10].
  pose proof (frame_connect_layers newId (map to_f32 vec) fuel
                (layers_from (Nat.min lvl (maxLevel g)) (S (Nat.min lvl (maxLevel g))))
                (Some c') [newId] (inserted g newId vec lvl)) as Hf.
  destruct (connect_layers _ _ _ _ _ _ _ _) as [g2 [t|e]]; simpl in Hf |- *.
  - destruct (G1 g2 Hf) as [B1 [B2 [B3 [B4 B5]]]].
    destruct (maxLevel g2 <? lvl); simpl; auto 10.
  - destruct (G1 g2 Hf) as [B1 [B2 [B3 [B4 B5]]]]; auto 10.
Qed.

Lemma constructible_ok g : constructible g -> graph_ok g.
Proof.
  induction 1 as [c|j|g newId vec lvl fuel Hc IH].
  - apply new_index_ok.
  - apply fromJSON_ok.
  - destruct (addPoint_keys g newId vec lvl fuel) as [E1 [E2 [E3 [E4 E5]]]].
    destruct IH as [H1 [H2 [H3 [H4 H5]]]].
    split; [congruence|split; [congruence|split; [congruence|split]]].
    + rewrite E4, E1; exact H4.
    + destruct E5 as [->|[Hh ->]]; auto.
      apply nodup_snoc; auto; apply mget_none_notin.
      unfold mhas in Hh; destruct (mget (nodes g) newId); congruence.
Qed.

Section Roundtrip.
(** [Array.from(float32Array)] followed by [new Float32Array(...)] gives the
    lanes back: every Float32 value is a JavaScript number. *)
Hypothesis f32_round : forall x, to_f32 (of_f32 x) = x.

(** C9. For every graph built by the constructor, by [fromJSON] or by
    [addPoint] calls on such a graph, [toJSON(fromJSON(toJSON(g)))] is
    [toJSON(g)]: parameters, [maxLevel], [entryPointId] and every node's id,
    vector, level and neighbor lists, in the same order. *)
Theorem toJSON_fromJSON_toJSON g :
  constructible g ->
  toJSON of_f32 (fromJSON to_f32 num_truthy inv_log (toJSON of_f32 g)) = toJSON of_f32 g.
Proof.
  intro Hc; destruct (constructible_ok g Hc) as [HM [HC [HS [Hlm Hnd]]]].
  unfold fromJSON; rewrite fromJSON_fold, fold_mset_fresh.
  2:{ simpl; rewrite map_map; exact Hnd. }
  assert (Hl : (if num_truthy (levelMultiplier g) then levelMultiplier g
                else inv_log (M g)) = levelMultiplier g)
    by (destruct Hlm as [E|E]; [rewrite E|destruct (num_truthy _)]; auto).
  unfold toJSON; simpl.
  destruct (M g) as [|m] eqn:EM; [contradiction|].
  destruct (efConstruction g) as [|c]; [contradiction|].
  destruct (efSearch g) as [|s]; [contradiction|].
  rewrite Hl; f_equal.
  rewrite !map_map; apply map_ext; intros [k n]; simpl.
  rewrite map_map; f_equal.
  rewrite map_map; apply map_ext; intro x; rewrite f32_round; reflexivity.
Qed.

End Roundtrip.

End Facts.
End HNSWFacts.

(** * Proofs about the migration *)
Module MigrationFacts.
Import Migration.

Section Facts.
Context {Num Meta Graph : Type}.
Variable graphAddPoint : string -> list Num -> Graph -> Graph + Graph.

Local Abbreviation Doc := (@VectorDocument Num Meta).
Local Abbreviation Mgr := (@Mgr Num Meta).
Implicit Types (d : Doc) (docs batch : list Doc) (m x : Mgr).

(** ** Auxiliary notions *)

Definition is_start (ev : @Event Num Meta) : bool :=
  match ev with EvStart _ => true | _ => false end.

(** No batch is in flight: nothing has been handed to [embedBatch] or
    [indexDocuments] without its completion. *)
Definition quiet_phase (p : @Phase Num Meta) : bool :=
  match p with
  | AwaitEmbed _ _ _ _ _ | AwaitIndex _ _ _ _ _ => false
  | _ => true
  end.

Definition same_progress x y : Prop :=
  submitted y = submitted x /\ processed (status y) = processed (status x) /\
  isComplete (status y) = isComplete (status x).

(** The batches [allDocs.slice(i, i + batchSize)] for [i = 0, batchSize, ...]. *)
Fixpoint chunks_f (bs fuel : nat) (l : list Doc) : list (list Doc) :=
  match fuel with
  | 0 => []
  | S f =>
      match l with
      | [] => []
      | _ :: _ => firstn bs l :: chunks_f bs f (skipn bs l)
      end
  end.

Definition chunks (bs : nat) (l : list Doc) : list (list Doc) :=
  chunks_f bs (length l) l.

(** One batch of the loop, each awaited call completing normally. *)
Definition batch_events (embs : list (list Num)) : list (@Event Num Meta) :=
  [EvEmbedDone embs; EvIndexDone; EvYieldDone].

Definition batches_events (embss : list (list (list Num))) : list (@Event Num Meta) :=
  concat (map batch_events embss).

Definition submitted_batches (cs : list (list Doc)) (embss : list (list (list Num)))
  : list (list Doc) :=
  map (fun p => update_batch (fst p) (snd p)) (combine cs embss).

(** ** The records written back *)

Lemma dget_dput_same (s : list (string * Doc)) d : dget (dput s d) (id d) = Some d.
Proof.
  induction s as [|[k d'] t IH]; simpl; [rewrite String.eqb_refl; reflexivity|].
  destruct (String.eqb (id d) k) eqn:E; simpl; rewrite E; auto.
Qed.

Lemma dget_dput_other (s : list (string * Doc)) d k :
  k <> id d -> dget (dput s d) k = dget s k.
Proof.
  intro Hne; induction s as [|[k0 d0] t IH]; simpl.
  - destruct (String.eqb k (id d)) eqn:E; [apply String.eqb_eq in E; congruence|reflexivity].
  - destruct (String.eqb (id d) k0) eqn:E; simpl.
    + apply String.eqb_eq in E; subst k0.
      destruct (String.eqb k (id d)) eqn:E'; [apply String.eqb_eq in E'; congruence|auto].
    + rewrite IH; reflexivity.
Qed.

Lemma addMany_other s docs k :
  ~ In k (map id docs) -> dget (addMany s docs) k = dget s k.
Proof.
  unfold addMany; revert s; induction docs as [|d rest IH]; intros s Hk; simpl; auto.
  rewrite IH; [apply dget_dput_other|]; intro H; apply Hk; simpl; auto.
Qed.

Lemma addMany_get s docs d :
  NoDup (map id docs) -> In d docs -> dget (addMany s docs) (id d) = Some d.
Proof.
  unfold addMany; revert s; induction docs as [|d0 rest IH]; intros s Hn Hin;
    [destruct Hin|].
  simpl in Hn |- *; inversion Hn as [|? ? Hnot Hrest]; subst.
  destruct Hin as [<-|Hin].
  - change (dget (addMany (dput s d0) rest) (id d0) = Some d0).
    rewrite addMany_other by exact Hnot; apply dget_dput_same.
  - apply IH; auto.
Qed.

Lemma update_batch_from_nth batch embs k j d :
  nth_error batch j = Some d ->
  nth_error (update_batch_from batch embs k) j =
  Some (mkDoc (id d) (text d) (metadata d) (nth_error embs (k + j)) (createdAt d)).
Proof.
  revert k j; induction batch as [|d0 rest IH]; intros k j Hj;
    [destruct j; discriminate|].
  destruct j as [|j]; simpl in Hj |- *.
  - injection Hj as <-; rewrite Nat.add_0_r; reflexivity.
  - rewrite (IH (S k) j Hj), Nat.add_succ_r; reflexivity.
Qed.

Lemma update_batch_from_ids batch embs k :
  map id (update_batch_from batch embs k) = map id batch.
Proof.
  revert k; induction batch as [|d rest IH]; intro k; simpl; [reflexivity|].
  rewrite IH; reflexivity.
Qed.

(** C8. The batch a migration step hands to [indexDocuments] is
    [batch.map((doc, idx) => ({ ...doc, embedding: newEmbeddings[idx] }))]:
    its [j]-th record is the [j]-th document with only its embedding
    replaced.  When [indexDocuments] completes, the store holds under each
    document's id exactly that record: id, text, metadata and createdAt of
    the original, the new embedding. *)
Theorem migration_preserves_fields m bs docs i pc batch embs :
  phase m = AwaitEmbed bs docs i pc batch ->
  submitted (step m (EvEmbedDone embs)) = submitted m ++ [update_batch batch embs] /\
  (forall j d, nth_error batch j = Some d ->
     nth_error (update_batch batch embs) j =
     Some (mkDoc (id d) (text d) (metadata d) (nth_error embs j) (createdAt d))) /\
  (forall g s g' s', NoDup (map id batch) ->
     indexDocuments graphAddPoint (update_batch batch embs) g s = inl (g', s') ->
     forall j d, nth_error batch j = Some d ->
     dget s' (id d) =
     Some (mkDoc (id d) (text d) (metadata d) (nth_error embs j) (createdAt d))).
Proof.
  intro Hp; split; [unfold step; rewrite Hp; reflexivity|].
  assert (Hnth : forall j d, nth_error batch j = Some d ->
            nth_error (update_batch batch embs) j =
            Some (mkDoc (id d) (text d) (metadata d) (nth_error embs j) (createdAt d)))
    by (intros j d Hj; exact (update_batch_from_nth batch embs 0 j d Hj)).
  split; [exact Hnth|].
  intros g s g' s' Hn Hi j d Hj.
  unfold indexDocuments in Hi; destruct (index_points _ _ _); [|discriminate].
  injection Hi as _ <-.
  specialize (Hnth j d Hj).
  change (id d) with (id (mkDoc (id d) (text d) (metadata d) (nth_error embs j) (createdAt d))).
  apply addMany_get.
  - unfold update_batch; rewrite update_batch_from_ids; exact Hn.
  - eapply nth_error_In; exact Hnth.
Qed.

(** ** Stopping a run *)

Lemma step_quiet x ev :
  is_start ev = false -> shouldStop x = true -> quiet_phase (phase x) = true ->
  shouldStop (step x ev) = true /\ quiet_phase (phase (step x ev)) = true /\
  same_progress x (step x ev).
Proof.
  intros Hs Hst Hq; destruct x as [[tt pr lp ic er] r ss p sub]; simpl in *; subst ss.
  unfold same_progress.
  destruct ev; try discriminate; destruct p; try discriminate; simpl;
    unfold loop_head; simpl; try destruct (_ <? _); simpl; auto 10.
Qed.

Lemma run_quiet evs x :
  (forall ev, In ev evs -> is_start ev = false) ->
  shouldStop x = true -> quiet_phase (phase x) = true ->
  same_progress x (run x evs).
Proof.
  unfold run; revert x; induction evs as [|ev evs IH]; intros x Hs Hst Hq; simpl.
  - repeat split.
  - destruct (step_quiet x ev) as [H1 [H2 [E1 [E2 E3]]]]; auto; [apply Hs; left; auto|].
    destruct (IH (step x ev)) as [F1 [F2 F3]]; auto; [intros e He; apply Hs; right; auto|].
    repeat split; congruence.
Qed.

Local Ltac quiet_tail :=
  match goal with
  | Hs' : forall e, In e ?evs -> is_start e = false
    |- context [fold_left step ?evs ?y] =>
      destruct (run_quiet evs y Hs' eq_refl eq_refl) as [A [B C]]
  end.

Lemma run_index evs x bs docs i pc batch :
  (forall ev, In ev evs -> is_start ev = false) ->
  shouldStop x = true -> phase x = AwaitIndex bs docs i pc batch ->
  submitted (run x evs) = submitted x /\
  isComplete (status (run x evs)) = isComplete (status x) /\
  (processed (status (run x evs)) = processed (status x) \/
   processed (status (run x evs)) = pc + length batch).
Proof.
  unfold run; revert x; induction evs as [|ev evs IH]; intros x Hs Hst Hp; simpl;
    [auto|].
  assert (Hs' : forall e, In e evs -> is_start e = false) by (intros; apply Hs; right; auto).
  assert (Hev : is_start ev = false) by (apply Hs; left; auto).
  destruct x as [[tt pr lp ic er] r ss p sub]; simpl in *; subst ss p.
  destruct ev; try discriminate; simpl; try (apply IH; auto; fail).
  - destruct (HNSW.last_opt batch).
    + quiet_tail.
      unfold run in A, B, C; simpl in A, B, C; rewrite A, B, C; auto.
    + quiet_tail.
      unfold run in A, B, C; simpl in A, B, C; rewrite A, B, C; auto.
  - quiet_tail.
    unfold run in A, B, C; simpl in A, B, C; rewrite A, B, C; auto.
Qed.

Lemma run_embed evs x bs docs i pc batch :
  (forall ev, In ev evs -> is_start ev = false) ->
  shouldStop x = true -> phase x = AwaitEmbed bs docs i pc batch ->
  isComplete (status (run x evs)) = isComplete (status x) /\
  (submitted (run x evs) = submitted x \/
   exists embs, submitted (run x evs) = submitted x ++ [update_batch batch embs]) /\
  (processed (status (run x evs)) = processed (status x) \/
   processed (status (run x evs)) = pc + length batch).
Proof.
  unfold run; revert x; induction evs as [|ev evs IH]; intros x Hs Hst Hp; simpl;
    [auto|].
  assert (Hs' : forall e, In e evs -> is_start e = false) by (intros; apply Hs; right; auto).
  assert (Hev : is_start ev = false) by (apply Hs; left; auto).
  destruct x as [[tt pr lp ic er] r ss p sub]; simpl in *; subst ss p.
  destruct ev; try discriminate; simpl; try (apply IH; auto; fail).
  - match goal with
    | |- context [fold_left step evs ?y] =>
        destruct (run_index evs y bs docs i pc batch Hs' eq_refl eq_refl)
          as [A [B C]]
    end.
    unfold run in A, B, C; simpl in A, B, C; rewrite A, B.
    split; [reflexivity|split; [right; eexists; reflexivity|exact C]].
  - quiet_tail.
    unfold run in A, B, C; simpl in A, B, C; rewrite A, B, C; auto.
Qed.

(** ** Running to completion *)

Lemma last_opt_cons (a : Doc) l : exists z, HNSW.last_opt (a :: l) = Some z.
Proof.
  revert a; induction l as [|b l IH]; intro a; [eexists; reflexivity|].
  destruct (IH b) as [z Hz]; exists z; exact Hz.
Qed.

Lemma concat_chunks_f bs fuel l :
  0 < bs -> length l <= fuel -> concat (chunks_f bs fuel l) = l.
Proof.
  intro Hb; revert l; induction fuel as [|f IH]; intros l Hl.
  - destruct l; [reflexivity|simpl in Hl; lia].
  - destruct l as [|a t]; [reflexivity|].
    cbn [chunks_f concat].
    rewrite IH; [apply firstn_skipn|].
    rewrite length_skipn; cbn [length] in *; lia.
Qed.

Lemma batch_steps st sub bs docs i pc batch e (z : Doc) :
  HNSW.last_opt batch = Some z ->
  fold_left step (batch_events e)
    (mkMgr st true false (AwaitEmbed bs docs i pc batch) sub) =
  loop_head
    (mkMgr (mkStatus (total st) (pc + length batch) (Some (id z)) (isComplete st)
              (error st))
       true false (AwaitYield bs docs i (pc + length batch))
       (sub ++ [update_batch batch e]))
    bs docs (i + bs) (pc + length batch).
Proof.
  intro H; cbn [fold_left batch_events step phase]; rewrite H; reflexivity.
Qed.

Lemma loop_run bs docs fuel : 0 < bs ->
  forall i pc x embss,
  length (skipn i docs) <= fuel ->
  length embss = length (chunks_f bs fuel (skipn i docs)) ->
  shouldStop x = false -> isRunning x = true ->
  let y := run (loop_head x bs docs i pc) (batches_events embss) in
  submitted y = submitted x ++ submitted_batches (chunks_f bs fuel (skipn i docs)) embss /\
  isComplete (status y) = true /\ isRunning y = false /\ phase y = Idle /\
  total (status y) = total (status x) /\
  processed (status y) =
    match skipn i docs with [] => processed (status x) | _ => pc + length (skipn i docs) end.
Proof.
  intro Hb; induction fuel as [|f IH]; intros i pc x embss Hl He Hst Hr; cbv zeta.
  - destruct (skipn i docs) eqn:Es; [|simpl in Hl; lia].
    destruct embss; [|discriminate].
    assert (Hi : (i <? length docs) = false)
      by (apply Nat.ltb_ge, skipn_all_iff; exact Es).
    unfold run, batches_events, loop_head; rewrite Hi; cbn [map concat fold_left].
    unfold finish_run; rewrite Hst; cbn.
    rewrite ?app_nil_r; repeat split.
  - destruct (skipn i docs) as [|a t] eqn:Es.
    + destruct embss; [|discriminate].
      assert (Hi : (i <? length docs) = false)
        by (apply Nat.ltb_ge, skipn_all_iff; exact Es).
      unfold run, batches_events, loop_head; rewrite Hi; cbn [map concat fold_left].
      unfold finish_run; rewrite Hst; cbn.
      rewrite ?app_nil_r; repeat split.
    + destruct embss as [|e embss]; [discriminate|].
      cbn [chunks_f length] in He; injection He as He.
      assert (Hi : (i <? length docs) = true).
      { apply Nat.ltb_lt. destruct (Nat.lt_ge_cases i (length docs)) as [H|H]; auto.
        apply skipn_all2 in H; congruence. }
      destruct (last_opt_cons a t) as [z Hz].
      set (batch := firstn bs (a :: t)).
      assert (Hz' : exists z, HNSW.last_opt batch = Some z).
      { unfold batch; destruct bs as [|b]; [lia|]; apply last_opt_cons. }
      destruct Hz' as [z' Hz'].
      assert (Hsk : skipn (i + bs) docs = skipn bs (a :: t))
        by (rewrite Nat.add_comm, <- skipn_skipn, Es; reflexivity).
      destruct x as [st r ss p sub]; simpl in Hst, Hr; subst ss r.
      assert (Hlh : loop_head (mkMgr st true false p sub) bs docs i pc =
                    mkMgr st true false (AwaitEmbed bs docs i pc batch) sub)
        by (unfold loop_head; rewrite Hi, Es; reflexivity).
      unfold run, batches_events; cbn [map concat].
      rewrite fold_left_app, Hlh, (batch_steps _ _ _ _ _ _ _ _ _ Hz').
      assert (Hlt : length (skipn (i + bs) docs) <= f)
        by (rewrite Hsk, length_skipn; cbn [length] in *; lia).
      assert (Hlen : length embss = length (chunks_f bs f (skipn (i + bs) docs)))
        by (rewrite Hsk; exact He).
      destruct (IH (i + bs) (pc + length batch)
        (mkMgr (mkStatus (total st) (pc + length batch) (Some (id z')) (isComplete st)
                  (error st))
           true false (AwaitYield bs docs i (pc + length batch))
           (sub ++ [update_batch batch e])) embss Hlt Hlen eq_refl eq_refl)
        as [A [B [C [D [E F]]]]].
      unfold run in A, B, C, D, E, F.
      fold (batches_events embss).
      rewrite A, B, C, D, E, F; cbn [submitted status total processed].
      rewrite Hsk.
      split; [|split; [reflexivity|split; [reflexivity|split; [reflexivity|split; [reflexivity|]]]]].
      * rewrite <- app_assoc; reflexivity.
      * pose proof (firstn_skipn bs (a :: t)) as Hft.
        destruct (skipn bs (a :: t)) as [|u w] eqn:Ew.
        -- rewrite app_nil_r in Hft; unfold batch; rewrite Hft; reflexivity.
        -- fold batch in Hft; rewrite <- Hft, length_app; lia.
Qed.

Lemma restart_run m bs docs embss :
  isRunning m = false -> 0 < bs -> length embss = length (chunks bs docs) ->
  let y := run m ([EvStart bs; EvGetAllDone docs; EvResetDone] ++ batches_events embss) in
  submitted y = submitted m ++ submitted_batches (chunks bs docs) embss /\
  isComplete (status y) = true /\ isRunning y = false /\
  total (status y) = length docs /\
  (docs <> [] -> processed (status y) = length docs).
Proof.
  intros Hr Hb He; cbv zeta.
  destruct m as [st r ss p sub]; simpl in Hr; subst r.
  unfold run; rewrite fold_left_app.
  cbn [fold_left step isRunning phase status submitted].
  unfold set_phase, set_status; cbn [step status isRunning shouldStop submitted phase].
  destruct (loop_run bs docs (length docs) Hb 0 0
              (mkMgr (mkStatus (length docs) (processed st) (lastProcessedId st)
                        (isComplete st) (error st))
                 true false (AwaitReset bs docs) sub) embss)
    as [A [B [C [D [E F]]]]]; rewrite ?skipn_0; auto.
  unfold run in A, B, C, D, E, F.
  rewrite A, B, C, E, F; cbn [submitted status total].
  split; [reflexivity|split; [reflexivity|split; [reflexivity|split; [reflexivity|]]]].
  intro Hd; rewrite skipn_0; destruct docs; [contradiction|reflexivity].
Qed.

(** C7. After [stop] no batch beyond the one in flight is handed to
    [indexDocuments], [status.processed] moves at most past that batch, and
    [isComplete] keeps the value it had when [stop] was called (it is not set
    by this run); a later [start] on an idle manager with all awaited calls
    completing hands every chunk of the documents, in order, to
    [indexDocuments] and ends complete, with [processed] equal to the number
    of documents when there are any. *)
Theorem stop_then_restart :
  (forall m evs,
     (forall ev, In ev evs -> is_start ev = false) ->
     let y := run (step m EvStop) evs in
     isComplete (status y) = isComplete (status m) /\
     (submitted y = submitted m \/
      exists bs docs i pc batch embs,
        phase m = AwaitEmbed bs docs i pc batch /\
        submitted y = submitted m ++ [update_batch batch embs]) /\
     (processed (status y) = processed (status m) \/
      exists bs docs i pc batch,
        (phase m = AwaitEmbed bs docs i pc batch \/
         phase m = AwaitIndex bs docs i pc batch) /\
        processed (status y) = pc + length batch)) /\
  (forall m bs docs embss,
     isRunning m = false -> 0 < bs -> length embss = length (chunks bs docs) ->
     let y := run m ([EvStart bs; EvGetAllDone docs; EvResetDone] ++
                     batches_events embss) in
     concat (chunks bs docs) = docs /\
     submitted y = submitted m ++ submitted_batches (chunks bs docs) embss /\
     isComplete (status y) = true /\ isRunning y = false /\
     (docs <> [] -> processed (status y) = length docs)).
Proof.
  split.
  - intros m evs Hs; cbv zeta.
    destruct m as [st r ss p sub]; cbn [step status isRunning phase submitted].
    destruct p.
    1-3, 6: match goal with
            | |- context [run ?y ?evs] =>
                destruct (run_quiet evs y Hs eq_refl eq_refl) as [A [B C]]
            end;
      rewrite A, B, C; auto.
    + destruct (run_embed evs (mkMgr st r true (AwaitEmbed batchSize allDocs i pc batch) sub)
                  batchSize allDocs i pc batch Hs eq_refl eq_refl) as [A [B C]].
      rewrite A; cbn [status submitted phase] in *; split; [reflexivity|split].
      * destruct B as [B|[embs B]]; [left; exact B|right].
        exists batchSize, allDocs, i, pc, batch, embs; auto.
      * destruct C as [C|C]; [left; exact C|right].
        exists batchSize, allDocs, i, pc, batch; auto.
    + destruct (run_index evs (mkMgr st r true (AwaitIndex batchSize allDocs i pc batch) sub)
                  batchSize allDocs i pc batch Hs eq_refl eq_refl) as [A [B C]].
      rewrite A, B; cbn [status submitted phase] in *; split; [reflexivity|split; [left; reflexivity|]].
      destruct C as [C|C]; [left; exact C|right].
      exists batchSize, allDocs, i, pc, batch; auto.
  - intros m bs docs embss Hr Hb He; cbv zeta.
    destruct (restart_run m bs docs embss Hr Hb He) as [A [B [C [D E]]]].
    split; [apply concat_chunks_f; auto|auto].
Qed.

End Facts.
End MigrationFacts.

(** * Further facts about [addPoint]: what it rewrites and what it reports *)
Module HNSWExtra.
Import HNSW HNSWFacts.

Section Extra.
Context {Num F32 : Type}.
Variable to_f32 : Num -> F32.
Variable of_f32 : F32 -> Num.
Variable dist : list F32 -> list F32 -> Z.
Variable num_truthy : Num -> bool.
Variable inv_log : nat -> Num.

Local Abbreviation Node := (@Node F32).
Local Abbreviation HNSWIndex := (@HNSWIndex Num F32).
Implicit Types (g : HNSWIndex) (n : Node).

(** ** Notions *)

(** Every entry of the node map is stored under its own id. *)
Definition ids_ok g : Prop := forall k n, In (k, n) (nodes g) -> id n = k.

(** A node keeps its id, vector, level and number of layers. *)
Definition node_kept n n' : Prop :=
  id n' = id n /\ vector n' = vector n /\ level n' = level n /\
  length (neighbors n') = length (neighbors n).

(** Same keys in the same order, and every node kept. *)
Definition kept g g' : Prop :=
  map fst (nodes g') = map fst (nodes g) /\
  forall k n', mget (nodes g') k = Some n' ->
    exists n, mget (nodes g) k = Some n /\ node_kept n n'.

(** [R] relates the state before and after every run of [m]. *)
Definition pres {A} (R : HNSWIndex -> HNSWIndex -> Prop) (m : st A) : Prop :=
  forall g, R g (fst (m g)).

Definition ids_pres g g' : Prop := ids_ok g -> ids_ok g'.

(** A successful run from [g] with touched set [t] to [g'] with [t']:
    [t'] grows [t], keeps it duplicate-free, adds only keys of [g], and
    every entry outside [t'] is unchanged. *)
Definition tracked g g' (t t' : list string) : Prop :=
  incl t t' /\ (NoDup t -> NoDup t') /\
  (forall x, In x t' -> In x t \/ mhas (nodes g) x = true) /\
  (forall k, ~ In k t' -> mget (nodes g') k = mget (nodes g) k).

(** A search candidate names a stored node and carries the similarity of the
    query to that node's vector. *)
Definition scored g (query : list F32) (w : Cand) : Prop :=
  exists n, mget (nodes g) (cid w) = Some n /\ score w = dist query (vector n).

(** ** Generic preservation along the monadic steps *)

Section Pres.
Variable R : HNSWIndex -> HNSWIndex -> Prop.
Hypothesis R_refl : forall g, R g g.
Hypothesis R_trans : forall g1 g2 g3, R g1 g2 -> R g2 g3 -> R g1 g3.
Hypothesis R_set_nbrs : forall k l lst, pres R (set_nbrs k l lst).
Hypothesis R_top : forall g e ml, R g (set_top g e ml).

Lemma pres_ret {A} (a : A) : pres R (st_ret a).
Proof. intro g; apply R_refl. Qed.

Lemma pres_get : pres R st_get.
Proof. intro g; apply R_refl. Qed.

Lemma pres_lift {A} (r : res A) : pres R (st_lift r).
Proof. intro g; apply R_refl. Qed.

Lemma pres_bind {A B} (m : st A) (k : A -> st B) :
  pres R m -> (forall a, pres R (k a)) -> pres R (st_bind m k).
Proof.
  intros Hm Hk g; unfold st_bind.
  specialize (Hm g); destruct (m g) as [g1 [a|e]]; simpl in *; auto.
  eapply R_trans; [exact Hm|apply Hk].
Qed.

Lemma pres_link_neighbor newId l touched ninfo :
  pres R (link_neighbor dist newId l touched ninfo).
Proof.
  unfold link_neighbor; apply pres_bind; [apply pres_get|intro g].
  destruct (mget (nodes g) (cid ninfo)) as [nb|]; [|apply pres_lift].
  destruct (nth_error (neighbors nb) l) as [lst|]; [|apply pres_lift].
  apply pres_bind; [apply R_set_nbrs|intros _].
  destruct (M g <? _); [|apply pres_ret].
  apply pres_bind; [apply pres_get|intro g'].
  apply pres_bind; [apply pres_lift|intro cands].
  apply pres_bind; [apply R_set_nbrs|intros _]; apply pres_ret.
Qed.

Lemma pres_link_all newId l sel touched :
  pres R (link_all dist newId l sel touched).
Proof.
  revert touched; induction sel as [|ninfo rest IH]; intro touched; simpl;
    [apply pres_ret|].
  apply pres_bind; [apply pres_link_neighbor|intro t; apply IH].
Qed.

Lemma pres_connect_layer newId fv fuel l co touched :
  pres R (connect_layer dist newId fv fuel l co touched).
Proof.
  unfold connect_layer; apply pres_bind; [apply pres_get|intro g].
  apply pres_bind; [apply pres_lift|intro W].
  apply pres_bind; [apply R_set_nbrs|intros _].
  apply pres_bind; [apply pres_link_all|intro t].
  apply pres_bind; [apply pres_get|intro g']; apply pres_ret.
Qed.

Lemma pres_connect_layers newId fv fuel ls co touched :
  pres R (connect_layers dist newId fv fuel ls co touched).
Proof.
  revert co touched; induction ls as [|l ls IH]; intros co touched; simpl;
    [apply pres_ret|].
  apply pres_bind; [apply pres_connect_layer|intro p; apply IH].
Qed.

(** Past the duplicate-id guard, every outcome of [addPoint] is related to
    the graph right after [this.nodes.set(id, newNode)]. *)
Lemma addPoint_pres g newId vec lvl fuel :
  mhas (nodes g) newId = false ->
  R (inserted to_f32 g newId vec lvl) (fst (addPoint to_f32 dist newId vec lvl fuel g)).
Proof.
  intro Hh; rewrite (addPoint_unfold to_f32 dist g newId vec lvl fuel Hh); cbv zeta.
  destruct (entryPointId g) as [ep|]; [|apply R_top].
  destruct (mget _ ep) as [cur|]; [|apply R_refl].
  destruct (descend _ _ _ _ _ _ _) as [[c' d']|e]; [|apply R_refl].
  pose proof (pres_connect_layers newId (map to_f32 vec) fuel
                (layers_from (Nat.min lvl (maxLevel g)) (S (Nat.min lvl (maxLevel g))))
                (Some c') [newId] (inserted to_f32 g newId vec lvl)) as Hp.
  destruct (connect_layers _ _ _ _ _ _ _ _) as [g2 [t|e]]; simpl in Hp |- *; auto.
  destruct (maxLevel g2 <? lvl); eauto.
Qed.

End Pres.

(** ** The map under [set_nbrs] and [mset] *)

Lemma mhas_keys (m : list (string * Node)) x : mhas m x = true <-> In x (map fst m).
Proof.
  unfold mhas; split.
  - destruct (mget m x) as [n|] eqn:E; [intros _; exact (mget_some_in m x n E)|discriminate].
  - intro Hin; destruct (mget m x) eqn:E; [reflexivity|].
    exfalso; exact (mget_none_notin m x E Hin).
Qed.

Lemma kept_mhas g g' x : kept g g' -> mhas (nodes g') x = mhas (nodes g) x.
Proof.
  intros [Hk _]; apply eq_true_iff_eq; rewrite !mhas_keys, Hk; tauto.
Qed.

Lemma kept_refl g : kept g g.
Proof.
  split; [reflexivity|]; intros k n' H; exists n'; split; [exact H|].
  repeat split.
Qed.

Lemma kept_trans g1 g2 g3 : kept g1 g2 -> kept g2 g3 -> kept g1 g3.
Proof.
  intros [K1 H1] [K2 H2]; split; [congruence|].
  intros k n3 E3; destruct (H2 k n3 E3) as [n2 [E2 [A1 [A2 [A3 A4]]]]].
  destruct (H1 k n2 E2) as [n1 [E1 [B1 [B2 [B3 B4]]]]].
  exists n1; split; [exact E1|]; repeat split; congruence.
Qed.

Lemma length_upd_nth {A} (l : list A) i x : length (upd_nth l i x) = length l.
Proof.
  revert i; induction l as [|h t IH]; intros [|i]; simpl; auto.
Qed.

Lemma kept_set_nbrs k l lst : pres kept (set_nbrs k l lst).
Proof.
  intro g; unfold set_nbrs.
  destruct (mget (nodes g) k) as [n|] eqn:Hk; [|apply kept_refl].
  split; simpl.
  - rewrite keys_mset; unfold mhas; rewrite Hk; reflexivity.
  - intros k' n' E; destruct (String.eqb_spec k' k) as [->|Hne].
    + rewrite mget_mset_same in E; injection E as <-.
      exists n; split; [exact Hk|]; unfold node_kept; simpl.
      rewrite length_upd_nth; repeat split.
    + rewrite mget_mset_other in E by exact Hne.
      exists n'; split; [exact E|]; repeat split.
Qed.

Lemma kept_top g e ml : kept g (set_top g e ml).
Proof. exact (kept_refl g). Qed.

Lemma ids_set_nbrs k l lst : pres ids_pres (set_nbrs k l lst).
Proof.
  intros g Hi; unfold set_nbrs.
  destruct (mget (nodes g) k) as [n|] eqn:Hk; [|exact Hi].
  intros k' x Hin; simpl in Hin.
  destruct (in_mset _ _ _ _ _ Hin) as [H|[-> ->]]; [exact (Hi _ _ H)|].
  simpl; exact (Hi _ _ (mget_in _ _ _ Hk)).
Qed.

Lemma ids_inserted g newId vec lvl : ids_ok g -> ids_ok (inserted to_f32 g newId vec lvl).
Proof.
  intros Hi k x Hin; unfold inserted in Hin; simpl in Hin.
  destruct (in_mset _ _ _ _ _ Hin) as [H|[-> ->]]; [exact (Hi _ _ H)|reflexivity].
Qed.

(** Every outcome of [addPoint] keeps the invariant [ids_ok]. *)
Lemma addPoint_ids g newId vec lvl fuel :
  ids_ok g -> ids_ok (fst (addPoint to_f32 dist newId vec lvl fuel g)).
Proof.
  intro Hi; destruct (mhas (nodes g) newId) eqn:Hh.
  - unfold addPoint; rewrite Hh; exact Hi.
  - apply (addPoint_pres ids_pres); unfold ids_pres; auto.
    + apply ids_set_nbrs.
    + apply ids_inserted, Hi.
Qed.

Lemma ids_fold js (m : list (string * Node)) :
  (forall k n, In (k, n) m -> id n = k) ->
  forall k n, In (k, n) (fold_left (fun m nd => mset m (fst (json_node to_f32 nd))
                                     (snd (json_node to_f32 nd))) js m) -> id n = k.
Proof.
  revert m; induction js as [|nd js IH]; intros m Hm; simpl; auto.
  apply IH; intros k n Hin.
  destruct (in_mset _ _ _ _ _ Hin) as [H|[-> ->]]; [exact (Hm _ _ H)|reflexivity].
Qed.

Lemma constructible_ids g : constructible to_f32 dist num_truthy inv_log g -> ids_ok g.
Proof.
  induction 1 as [c|j|g newId vec lvl fuel Hc IH].
  - intros k n H; destruct H.
  - unfold fromJSON; rewrite fromJSON_fold; intros k n Hin; simpl in Hin.
    exact (ids_fold _ [] (fun k n H => match H with end) k n Hin).
  - apply addPoint_ids, IH.
Qed.

(** ** What [addPoint] does to the existing nodes *)

Lemma addPoint_nodes g newId vec lvl fuel :
  let g' := fst (addPoint to_f32 dist newId vec lvl fuel g) in
  map fst (nodes g') =
    (if mhas (nodes g) newId then map fst (nodes g) else map fst (nodes g) ++ [newId]) /\
  (forall k n', mget (nodes g') k = Some n' ->
     (exists n, mget (nodes g) k = Some n /\ node_kept n n') \/
     (k = newId /\ mhas (nodes g) newId = false /\ id n' = newId /\
      vector n' = map to_f32 vec /\ level n' = lvl /\ length (neighbors n') = S lvl)).
Proof.
  cbv zeta; destruct (mhas (nodes g) newId) eqn:Hh.
  { unfold addPoint; rewrite Hh; simpl; split; [reflexivity|].
    intros k n' E; left; exists n'; split; [exact E|]; repeat split. }
  destruct (addPoint_pres kept kept_refl kept_trans kept_set_nbrs kept_top
              g newId vec lvl fuel Hh) as [K H].
  split.
  - rewrite K; unfold inserted; simpl; rewrite keys_mset, Hh; reflexivity.
  - intros k n' E; destruct (H k n' E) as [n [E1 [A1 [A2 [A3 A4]]]]].
    unfold inserted in E1; simpl in E1.
    destruct (String.eqb_spec k newId) as [->|Hne].
    + rewrite mget_mset_same in E1; injection E1 as <-; simpl in *.
      right; rewrite repeat_length in A4; auto 7.
    + rewrite mget_mset_other in E1 by exact Hne.
      left; exists n; split; [exact E1|]; repeat split; auto.
Qed.

(** Every node of the graph after [addPoint] (whatever the outcome) is either
    an old node under the same key with its id, vector, level and number of
    layers unchanged, or the new node: id [newId], the converted vector,
    level [lvl] and [lvl + 1] layers; the new node appears only when [newId]
    was absent.  The keys are the old keys, followed by [newId] when the call
    passed the guard. *)
Theorem addPoint_keeps_nodes g newId vec lvl fuel :
  let g' := fst (addPoint to_f32 dist newId vec lvl fuel g) in
  map fst (nodes g') =
    (if mhas (nodes g) newId then map fst (nodes g) else map fst (nodes g) ++ [newId]) /\
  (forall k n', mget (nodes g') k = Some n' ->
     (exists n, mget (nodes g) k = Some n /\ node_kept n n') \/
     (k = newId /\ mhas (nodes g) newId = false /\ id n' = newId /\
      vector n' = map to_f32 vec /\ level n' = lvl /\ length (neighbors n') = S lvl)).
Proof. exact (addPoint_nodes g newId vec lvl fuel). Qed.

(** ** The touched set *)

Lemma st_bind_ok {A B} (m : st A) (k : A -> st B) g g' b :
  st_bind m k g = (g', Ok b) -> exists g1 a, m g = (g1, Ok a) /\ k a g1 = (g', Ok b).
Proof.
  unfold st_bind; destruct (m g) as [g1 [a|e]]; [|discriminate]; eauto.
Qed.

Lemma set_nbrs_eq k l lst g : set_nbrs k l lst g = (fst (set_nbrs k l lst g), Ok tt).
Proof. rewrite <- (set_nbrs_snd k l lst g); apply surjective_pairing. Qed.

Lemma set_nbrs_other k l lst g k' :
  k' <> k -> mget (nodes (fst (set_nbrs k l lst g))) k' = mget (nodes g) k'.
Proof.
  intro Hne; unfold set_nbrs; destruct (mget (nodes g) k); [|reflexivity].
  simpl; apply mget_mset_other, Hne.
Qed.

Lemma In_sadd x s y : In y (sadd x s) <-> In y s \/ y = x.
Proof.
  unfold sadd; destruct (smem x s) eqn:E.
  - apply smem_In in E; split; [intro H; left; exact H|intros [H| ->]; auto].
  - rewrite in_app_iff; simpl; split.
    + intros [H|[H|[]]]; [left; exact H|right; symmetry; exact H].
    + intros [H|H]; [left; exact H|right; left; symmetry; exact H].
Qed.

Lemma NoDup_sadd x s : NoDup s -> NoDup (sadd x s).
Proof.
  unfold sadd; destruct (smem x s) eqn:E; auto.
  intro H; apply nodup_snoc; auto; intro Hin; apply smem_In in Hin; congruence.
Qed.

Lemma tracked_refl g t : tracked g g t t.
Proof. repeat split; auto using incl_refl. Qed.

Lemma tracked_trans g g1 g2 t t1 t2 :
  (forall x, mhas (nodes g1) x = mhas (nodes g) x) ->
  tracked g g1 t t1 -> tracked g1 g2 t1 t2 -> tracked g g2 t t2.
Proof.
  intros Hm [I1 [N1 [S1 U1]]] [I2 [N2 [S2 U2]]]; split; [|split; [|split]].
  - eapply incl_tran; eauto.
  - auto.
  - intros x Hx; destruct (S2 x Hx) as [H|H]; [apply S1, H|right; rewrite <- Hm; exact H].
  - intros k Hk; rewrite U2 by exact Hk; apply U1; intro H; apply Hk, I2, H.
Qed.

Lemma link_neighbor_tracked newId l t ninfo g g' t' :
  ids_ok g -> link_neighbor dist newId l t ninfo g = (g', Ok t') -> tracked g g' t t'.
Proof.
  intros Hi H; unfold link_neighbor, st_bind, st_get, st_lift, st_ret in H.
  destruct (mget (nodes g) (cid ninfo)) as [nb|] eqn:Hnb; [|discriminate].
  destruct (nth_error (neighbors nb) l) as [lst|]; [|discriminate].
  assert (Hid : id nb = cid ninfo) by exact (Hi _ _ (mget_in _ _ _ Hnb)).
  assert (Hgen : forall g2,
            (forall k, k <> cid ninfo -> mget (nodes g2) k = mget (nodes g) k) ->
            tracked g g2 t (sadd (id nb) t)).
  { intros g2 Hg2; split; [|split; [|split]].
    - intros x Hx; apply In_sadd; auto.
    - apply NoDup_sadd.
    - intros x Hx; apply In_sadd in Hx as [Hx| ->]; [auto|].
      right; rewrite Hid; unfold mhas; rewrite Hnb; reflexivity.
    - intros k Hk; apply Hg2; intros ->; apply Hk, In_sadd; right; auto. }
  rewrite set_nbrs_eq in H.
  set (g1 := fst (set_nbrs (cid ninfo) l (lst ++ [newId]) g)) in H.
  destruct (M g <? _).
  - destruct (score_all dist g1 (vector nb) (lst ++ [newId])) as [cands|e]; [|discriminate].
    rewrite set_nbrs_eq in H; injection H as <- <-.
    apply Hgen; intros k Hk; rewrite set_nbrs_other by exact Hk.
    apply set_nbrs_other, Hk.
  - injection H as <- <-; apply Hgen; intros k Hk; apply set_nbrs_other, Hk.
Qed.

Lemma link_all_tracked newId l sel : forall t g g' t',
  ids_ok g -> link_all dist newId l sel t g = (g', Ok t') -> tracked g g' t t'.
Proof.
  induction sel as [|ninfo rest IH]; intros t g g' t' Hi H; simpl in H.
  - injection H as <- <-; apply tracked_refl.
  - apply st_bind_ok in H as [g1 [t1 [H1 H2]]].
    assert (Hk : kept g g1)
      by (pose proof (pres_link_neighbor kept kept_refl kept_trans kept_set_nbrs
                        newId l t ninfo g) as P; rewrite H1 in P; exact P).
    assert (Hi1 : ids_ok g1)
      by (pose proof (pres_link_neighbor ids_pres (fun _ h => h) (fun _ _ _ a b h => b (a h))
                        ids_set_nbrs newId l t ninfo g) as P; rewrite H1 in P; exact (P Hi)).
    apply (tracked_trans g g1 g' t t1 t'); [intro x; apply kept_mhas, Hk| |].
    + exact (link_neighbor_tracked _ _ _ _ _ _ _ Hi H1).
    + exact (IH _ _ _ _ Hi1 H2).
Qed.

Lemma connect_layer_tracked newId fv fuel l co t g g' p :
  ids_ok g -> In newId t ->
  connect_layer dist newId fv fuel l co t g = (g', Ok p) -> tracked g g' t (snd p).
Proof.
  intros Hi Hn H; unfold connect_layer in H.
  apply st_bind_ok in H as [g0 [a [H1 H]]]; injection H1 as <- _.
  apply st_bind_ok in H as [g0 [W [H1 H]]]; injection H1 as <- _.
  cbv zeta in H; apply st_bind_ok in H as [g1 [u [H1 H]]].
  rewrite set_nbrs_eq in H1; injection H1 as E1 _.
  apply st_bind_ok in H as [g2 [t2 [H3 H]]].
  unfold st_bind, st_get, st_ret in H; injection H as <- <-; simpl.
  assert (Hg1 : tracked g g1 t t).
  { rewrite <- E1; split; [apply incl_refl|split; [auto|split; [auto|]]].
    intros k Hk; apply set_nbrs_other; intros ->; contradiction. }
  apply (tracked_trans g g1 g2 t t t2); [|exact Hg1|].
  - intro x; rewrite <- E1; apply kept_mhas, kept_set_nbrs.
  - assert (Hi1 : ids_ok g1) by (rewrite <- E1; apply ids_set_nbrs, Hi).
    exact (link_all_tracked _ _ _ _ _ _ _ Hi1 H3).
Qed.

Lemma connect_layers_tracked newId fv fuel ls : forall co t g g' t',
  ids_ok g -> In newId t ->
  connect_layers dist newId fv fuel ls co t g = (g', Ok t') -> tracked g g' t t'.
Proof.
  induction ls as [|l ls IH]; intros co t g g' t' Hi Hn H; simpl in H.
  - injection H as <- <-; apply tracked_refl.
  - apply st_bind_ok in H as [g1 [p [H1 H2]]].
    pose proof (connect_layer_tracked _ _ _ _ _ _ _ _ _ Hi Hn H1) as T1.
    assert (Hk : kept g g1)
      by (pose proof (pres_connect_layer kept kept_refl kept_trans kept_set_nbrs
                        newId fv fuel l co t g) as P; rewrite H1 in P; exact P).
    assert (Hi1 : ids_ok g1)
      by (pose proof (pres_connect_layer ids_pres (fun _ h => h) (fun _ _ _ a b h => b (a h))
                        ids_set_nbrs newId fv fuel l co t g) as P; rewrite H1 in P; exact (P Hi)).
    apply (tracked_trans g g1 g' t (snd p) t'); [intro x; apply kept_mhas, Hk|exact T1|].
    apply (IH (fst p)); auto.
    destruct T1 as [I _]; apply I, Hn.
Qed.

Lemma addPoint_touched_ids g newId vec lvl fuel g' t :
  ids_ok g -> addPoint to_f32 dist newId vec lvl fuel g = (g', Ok t) ->
  NoDup t /\ In newId t /\
  (forall x, In x t -> mhas (nodes g') x = true) /\
  (forall k, ~ In k t -> mget (nodes g') k = mget (nodes g) k).
Proof.
  intros Hi H.
  destruct (mhas (nodes g) newId) eqn:Hh.
  { unfold addPoint in H; rewrite Hh in H; discriminate. }
  set (g1 := inserted to_f32 g newId vec lvl).
  assert (Hin1 : mhas (nodes g1) newId = true)
    by (unfold mhas, g1, inserted; simpl; rewrite mget_mset_same; reflexivity).
  assert (Hout1 : forall k, k <> newId -> mget (nodes g1) k = mget (nodes g) k)
    by (intros k Hk; unfold g1, inserted; simpl; apply mget_mset_other, Hk).
  assert (Hmh1 : forall x, mhas (nodes g1) x = true -> x = newId \/ mhas (nodes g) x = true).
  { intros x Hx; destruct (String.eqb_spec x newId) as [->|Hne]; [auto|].
    right; unfold mhas in Hx |- *; rewrite <- Hout1 by exact Hne; exact Hx. }
  rewrite (addPoint_unfold to_f32 dist g newId vec lvl fuel Hh) in H; cbv zeta in H.
  fold g1 in H.
  destruct (entryPointId g) as [ep|].
  2:{ injection H as <- <-; simpl; split; [repeat constructor; intros []|].
      split; [left; reflexivity|split].
      - intros x [<-|[]]; exact Hin1.
      - intros k Hk; apply Hout1; intros ->; apply Hk; left; reflexivity. }
  destruct (mget (nodes g1) ep) as [cur|]; [|discriminate].
  destruct (descend _ _ _ _ _ _ _) as [[c' d']|e]; [|discriminate].
  destruct (connect_layers _ _ _ _ _ _ _ g1) as [g2 [t2|e]] eqn:Ec; [|discriminate].
  assert (Hk2 : kept g1 g2)
    by (pose proof (pres_connect_layers kept kept_refl kept_trans kept_set_nbrs
                      newId (map to_f32 vec) fuel
                      (layers_from (Nat.min lvl (maxLevel g)) (S (Nat.min lvl (maxLevel g))))
                      (Some c') [newId] g1) as P; rewrite Ec in P; exact P).
  destruct (connect_layers_tracked _ _ _ _ _ _ _ _ _ (ids_inserted _ _ _ _ Hi)
              (in_eq newId []) Ec) as [I [N [S U]]].
  assert (Hg' : nodes g' = nodes g2)
    by (destruct (maxLevel g2 <? lvl); injection H as <- _; reflexivity).
  assert (Ht : t = t2) by (destruct (maxLevel g2 <? lvl); injection H as _ <-; reflexivity).
  subst t; rewrite Hg'; split; [apply N; repeat constructor; intros []|].
  split; [apply I; left; reflexivity|split].
  - intros x Hx; rewrite (kept_mhas _ _ x Hk2).
    destruct (S x Hx) as [[<-|[]]|Hm]; [exact Hin1|exact Hm].
  - intros k Hk; rewrite U by exact Hk; apply Hout1.
    intros ->; apply Hk, I; left; reflexivity.
Qed.

(** The set returned by a successful [addPoint] is what [saveIndex] writes
    back: it holds [newId], has no duplicate, names only keys of the new
    node map, and every key outside it maps to the same node object as
    before the call.  Stated for every graph the class can build. *)
Theorem addPoint_touched g newId vec lvl fuel g' t :
  constructible to_f32 dist num_truthy inv_log g ->
  addPoint to_f32 dist newId vec lvl fuel g = (g', Ok t) ->
  NoDup t /\ In newId t /\
  (forall x, In x t -> mhas (nodes g') x = true) /\
  (forall k, ~ In k t -> mget (nodes g') k = mget (nodes g) k).
Proof.
  intro Hc; exact (addPoint_touched_ids g newId vec lvl fuel g' t (constructible_ids g Hc)).
Qed.

(** ** A used id stays used *)

(** After any call [addPoint(id, ...)], returning or throwing, [id] is a key
    of the node map, so every later [addPoint] with the same id throws the
    duplicate-id error and changes nothing. *)
Theorem addPoint_id_taken g newId vec lvl fuel vec' lvl' fuel' :
  let g' := fst (addPoint to_f32 dist newId vec lvl fuel g) in
  mhas (nodes g') newId = true /\
  addPoint to_f32 dist newId vec' lvl' fuel' g' = (g', Err DuplicateId).
Proof.
  cbv zeta.
  assert (H : mhas (nodes (fst (addPoint to_f32 dist newId vec lvl fuel g))) newId = true).
  { apply mhas_keys; rewrite (proj1 (addPoint_nodes g newId vec lvl fuel)).
    destruct (mhas (nodes g) newId) eqn:Hh.
    - apply mhas_keys, Hh.
    - apply in_or_app; right; left; reflexivity. }
  split; [exact H|]; unfold addPoint at 1; rewrite H; reflexivity.
Qed.

(** ** [selectNeighbors] keeps the best [M] *)

Lemma sorted_app_le l1 l2 x y :
  sorted_desc (l1 ++ l2) = true -> In x l1 -> In y l2 -> (score y <= score x)%Z.
Proof.
  induction l1 as [|a t IH]; intros Hs Hx Hy; [destruct Hx|].
  destruct Hx as [->|Hx].
  - apply (sorted_head_max x (t ++ l2) y Hs); right; apply in_or_app; right; exact Hy.
  - apply IH; auto; exact (sorted_tail a _ Hs).
Qed.

(** [selectNeighbors(candidates, M)] returns [min(M, |candidates|)]
    candidates in non-increasing score order; together with the candidates
    it drops they are a rearrangement of the input, and no dropped
    candidate scores higher than a kept one. *)
Theorem selectNeighbors_top (cands : list Cand) (m : nat) :
  let sel := selectNeighbors cands m in
  sorted_desc sel = true /\ length sel = Nat.min m (length cands) /\
  exists rest, Permutation cands (sel ++ rest) /\
    forall x y, In x sel -> In y rest -> (score y <= score x)%Z.
Proof.
  cbv zeta; unfold selectNeighbors.
  split; [apply firstn_sorted, sort_desc_sorted|split].
  - rewrite length_firstn, (Permutation_length (sort_desc_perm cands)); reflexivity.
  - exists (skipn m (sort_desc cands)); split.
    + rewrite firstn_skipn; apply Permutation_sym, sort_desc_perm.
    + intros x y Hx Hy; apply (sorted_app_le (firstn m (sort_desc cands))
                                 (skipn m (sort_desc cands))); auto.
      rewrite firstn_skipn; apply sort_desc_sorted.
Qed.

(** ** What [search] returns *)

Lemma removelast_nonempty (l : list Cand) : 2 <= length l -> removelast l <> [].
Proof.
  destruct l as [|a [|b t]]; simpl; try lia; intros _; destruct t; discriminate.
Qed.

Lemma push_nonempty ef W e :
  W <> [] ->
  (if ef <? length (sort_desc (W ++ [e])) then removelast (sort_desc (W ++ [e]))
   else sort_desc (W ++ [e])) <> [].
Proof.
  intro HW.
  assert (HL : 2 <= length (sort_desc (W ++ [e]))).
  { rewrite (Permutation_length (sort_desc_perm _)), length_app.
    destruct W; [contradiction|simpl; lia]. }
  destruct (ef <? _); [apply removelast_nonempty, HL|].
  intro E; rewrite E in HL; simpl in HL; lia.
Qed.

Lemma sl_inner_scored g query ef f nbrs : forall v C W v' C' W',
  W <> [] -> (forall w, In w C \/ In w W -> scored g query w) ->
  sl_inner dist g query ef f nbrs v C W = Ok (v', C', W') ->
  W' <> [] /\ forall w, In w C' \/ In w W' -> scored g query w.
Proof.
  induction nbrs as [|nid rest IH]; intros v C W v' C' W' HW Hs H; simpl in H.
  - injection H as <- <- <-; auto.
  - destruct (smem nid v); [exact (IH _ _ _ _ _ _ HW Hs H)|].
    destruct (mget (nodes g) nid) as [nb|] eqn:Hnb; [|discriminate].
    destruct (_ || _); [|exact (IH _ _ _ _ _ _ HW Hs H)].
    refine (IH _ _ _ _ _ _ (push_nonempty ef W _ HW) _ H).
    assert (He : scored g query (mkCand nid (dist query (vector nb))))
      by (exists nb; split; [exact Hnb|reflexivity]).
    intros w [Hw|Hw].
    + apply in_app_iff in Hw as [Hw|[<-|[]]]; auto.
    + assert (Hw' : In w (sort_desc (W ++ [mkCand nid (dist query (vector nb))])))
        by (destruct (ef <? _); [apply removelast_in|]; exact Hw).
      apply sort_desc_in, in_app_iff in Hw' as [Hw'|[<-|[]]]; auto.
Qed.

Lemma sl_loop_scored g query ef lvl fuel : forall v C W W',
  W <> [] -> (forall w, In w C \/ In w W -> scored g query w) ->
  sl_loop dist g query ef lvl fuel v C W = Ok W' ->
  W' <> [] /\ forall w, In w W' -> scored g query w.
Proof.
  induction fuel as [|fuel IH]; intros v C W W' HW Hs H; destruct C as [|c0 C0];
    simpl in H; try discriminate.
  - injection H as <-; split; auto.
  - injection H as <-; split; auto.
  - assert (HsW : sort_desc W <> []).
    { intro E; apply HW, Permutation_nil; rewrite <- E; apply sort_desc_perm. }
    assert (Hs2 : forall w, In w (sort_desc (c0 :: C0)) \/ In w (sort_desc W) ->
                  scored g query w)
      by (intros w [Hw|Hw]; apply Hs; rewrite sort_desc_in in Hw; auto).
    destruct (sort_desc (c0 :: C0)) as [|c C'] eqn:Ec; [discriminate|].
    destruct (last_opt (sort_desc W)) as [fw|]; [|discriminate].
    destruct (_ && _).
    { injection H as <-; split; auto. }
    destruct (mget (nodes g) (cid c)) as [cn|]; [|discriminate].
    destruct (nth_error (neighbors cn) lvl) as [nbrs|]; [|discriminate].
    destruct (sl_inner dist g query ef fw nbrs v C' (sort_desc W))
      as [[[v' C''] W'']|e] eqn:Ei; [|discriminate].
    destruct (sl_inner_scored g query ef fw nbrs v C' (sort_desc W) v' C'' W'' HsW
                (fun w Hw => Hs2 w (match Hw with
                                    | or_introl h => or_introl (in_cons c w C' h)
                                    | or_intror h => or_intror h end)) Ei) as [HW'' Hs''].
    exact (IH _ _ _ _ HW'' Hs'' H).
Qed.

Lemma searchLayer_scored g query e ef lvl fuel W :
  mget (nodes g) (id e) = Some e ->
  searchLayer dist g query (Some e) ef lvl fuel = Ok W ->
  W <> [] /\ forall w, In w W -> scored g query w.
Proof.
  intros He H; unfold searchLayer in H.
  refine (sl_loop_scored g query ef lvl fuel _ _ _ W _ _ H); [discriminate|].
  intros w [[<-|[]]|[<-|[]]]; exists e; split; auto.
Qed.

Lemma sl_inner_nonempty g query ef f nbrs : forall v C W v' C' W',
  W <> [] -> sl_inner dist g query ef f nbrs v C W = Ok (v', C', W') -> W' <> [].
Proof.
  induction nbrs as [|nid rest IH]; intros v C W v' C' W' HW H; simpl in H.
  - injection H as <- <- <-; exact HW.
  - destruct (smem nid v); [exact (IH _ _ _ _ _ _ HW H)|].
    destruct (mget (nodes g) nid) as [nb|]; [|discriminate].
    destruct (_ || _); [|exact (IH _ _ _ _ _ _ HW H)].
    exact (IH _ _ _ _ _ _ (push_nonempty ef W _ HW) H).
Qed.

Lemma sl_loop_nonempty g query ef lvl fuel : forall v C W W',
  W <> [] -> sl_loop dist g query ef lvl fuel v C W = Ok W' -> W' <> [].
Proof.
  induction fuel as [|fuel IH]; intros v C W W' HW H; destruct C as [|c0 C0];
    simpl in H; try discriminate.
  - injection H as <-; exact HW.
  - injection H as <-; exact HW.
  - assert (HsW : sort_desc W <> []).
    { intro E; apply HW, Permutation_nil; rewrite <- E; apply sort_desc_perm. }
    destruct (sort_desc (c0 :: C0)) as [|c C']; [discriminate|].
    destruct (last_opt (sort_desc W)) as [fw|]; [|discriminate].
    destruct (_ && _); [injection H as <-; exact HsW|].
    destruct (mget (nodes g) (cid c)) as [cn|]; [|discriminate].
    destruct (nth_error (neighbors cn) lvl) as [nbrs|]; [|discriminate].
    destruct (sl_inner dist g query ef fw nbrs v C' (sort_desc W))
      as [[[v' C''] W'']|e] eqn:Ei; [|discriminate].
    exact (IH _ _ _ _ (sl_inner_nonempty _ _ _ _ _ _ _ _ _ _ _ HsW Ei) H).
Qed.

Lemma scan_node g query nbrs : forall best bd b' d',
  ids_ok g -> (forall b, best = Some b -> mget (nodes g) (id b) = Some b) ->
  scan dist g query nbrs best bd = Ok (b', d') ->
  forall b, b' = Some b -> mget (nodes g) (id b) = Some b.
Proof.
  induction nbrs as [|nid rest IH]; intros best bd b' d' Hi Hb H; simpl in H.
  - injection H as <- _; exact Hb.
  - destruct (mget (nodes g) nid) as [nb|] eqn:Hnb; [|discriminate].
    destruct (bd <? _)%Z; [|exact (IH _ _ _ _ Hi Hb H)].
    refine (IH _ _ _ _ Hi _ H).
    intros b E; injection E as <-; rewrite (Hi _ _ (mget_in _ _ _ Hnb)); exact Hnb.
Qed.

Lemma greedy_node g query l fuel : forall curr d c d',
  ids_ok g -> mget (nodes g) (id curr) = Some curr ->
  greedy dist g query l fuel curr d = Ok (c, d') -> mget (nodes g) (id c) = Some c.
Proof.
  induction fuel as [|fuel IH]; intros curr d c d' Hi Hc H; simpl in H; [discriminate|].
  destruct (nth_error (neighbors curr) l) as [nbrs|]; [|discriminate].
  destruct (scan dist g query nbrs None d) as [[[b|] bd]|e] eqn:Es; try discriminate.
  - refine (IH b bd c d' Hi _ H).
    refine (scan_node g query nbrs None d (Some b) bd Hi _ Es b eq_refl); discriminate.
  - injection H as <- _; exact Hc.
Qed.

Lemma descend_node g query fuel ls : forall curr d c d',
  ids_ok g -> mget (nodes g) (id curr) = Some curr ->
  descend dist g query fuel ls curr d = Ok (c, d') -> mget (nodes g) (id c) = Some c.
Proof.
  induction ls as [|l ls IH]; intros curr d c d' Hi Hc H; simpl in H.
  - injection H as <- _; exact Hc.
  - destruct (greedy dist g query l fuel curr d) as [[c1 d1]|e] eqn:Eg; [|discriminate].
    exact (IH c1 d1 c d' Hi (greedy_node _ _ _ _ _ _ _ _ Hi Hc Eg) H).
Qed.

Lemma slice0_in (l : list Cand) k x : In x (slice0 l k) -> In x l.
Proof. unfold slice0; destruct (k <? 0)%Z; apply firstn_in. Qed.

(** Every result of [search(query, k)] names a stored node and carries the
    similarity [dist] of the converted query to that node's vector; stated
    for every graph the class can build. *)
Theorem search_results_scored g query k fuel r :
  constructible to_f32 dist num_truthy inv_log g ->
  search to_f32 dist g query k fuel = Ok r ->
  forall w, In w r ->
  exists n, mget (nodes g) (cid w) = Some n /\ score w = dist (map to_f32 query) (vector n).
Proof.
  intros Hc H w Hw; pose proof (constructible_ids g Hc) as Hi.
  unfold search in H.
  destruct (entryPointId g) as [ep|]; [|injection H as <-; destruct Hw].
  destruct (mget (nodes g) ep) as [cur|] eqn:Ecur; [|discriminate].
  assert (Hcur : mget (nodes g) (id cur) = Some cur)
    by (rewrite (Hi _ _ (mget_in _ _ _ Ecur)); exact Ecur).
  destruct (descend _ _ _ _ _ _ _) as [[c d]|e] eqn:Ed; [|discriminate].
  destruct (searchLayer _ _ _ _ _ _ _) as [W|e] eqn:Es; [|discriminate].
  injection H as <-.
  pose proof (descend_node _ _ _ _ _ _ _ _ Hi Hcur Ed) as Hnode.
  exact (proj2 (searchLayer_scored _ _ _ _ _ _ _ Hnode Es) w (slice0_in _ _ _ Hw)).
Qed.

(** On an index with an entry point, a [search] with [k >= 1] that returns
    gives at least one result: the beam always keeps its entry node. *)
Theorem search_nonempty g query k fuel r :
  entryPointId g <> None -> (1 <= k)%Z ->
  search to_f32 dist g query k fuel = Ok r -> r <> [].
Proof.
  intros He Hk H; unfold search in H.
  destruct (entryPointId g) as [ep|]; [|contradiction].
  destruct (mget (nodes g) ep) as [cur|]; [|discriminate].
  destruct (descend _ _ _ _ _ _ _) as [[c d]|e]; [|discriminate].
  destruct (searchLayer _ _ _ _ _ _ _) as [W|e] eqn:Es; [|discriminate].
  injection H as <-.
  assert (HW : W <> []).
  { unfold searchLayer in Es; refine (sl_loop_nonempty _ _ _ _ _ _ _ _ _ _ Es).
    discriminate. }
  unfold slice0; replace (k <? 0)%Z with false by lia.
  destruct W as [|w W]; [contradiction|].
  destruct (Z.to_nat k) as [|j] eqn:Ej; [lia|discriminate].
Qed.

(** ** [fromJSON]: lookups and the other round trip *)

Local Abbreviation jfold js m :=
  (fold_left (fun m nd => mset m (fst (json_node to_f32 nd)) (snd (json_node to_f32 nd))) js m).

Lemma jfold_absent js (m : list (string * Node)) k :
  ~ In k (map jid js) -> mget (jfold js m) k = mget m k.
Proof.
  revert m; induction js as [|nd js IH]; intros m Hk; simpl; [reflexivity|].
  simpl in Hk; rewrite IH by tauto; apply mget_mset_other; simpl; intro E; apply Hk; auto.
Qed.

Lemma jfold_mhas js (m : list (string * Node)) k :
  mhas m k = true -> mhas (jfold js m) k = true.
Proof.
  revert m; induction js as [|nd js IH]; intros m Hk; simpl; [exact Hk|].
  apply IH, mhas_mset, Hk.
Qed.

Lemma jfold_present js (m : list (string * Node)) k :
  In k (map jid js) -> mhas (jfold js m) k = true.
Proof.
  revert m; induction js as [|nd js IH]; intros m Hk; simpl in *; [destruct Hk|].
  destruct Hk as [<-|Hk]; [|apply IH, Hk].
  apply jfold_mhas; unfold mhas; rewrite mget_mset_same; reflexivity.
Qed.

(** [fromJSON(json)] takes the parameters and the top of the graph from the
    record without any check ([0] becomes the default [16] or [200]; an
    [entryPointId] that names no node is kept).  Looking up an id gives
    nothing when no node record has that id, and otherwise the node built
    from the last record with that id: a later duplicate overwrites an
    earlier one. *)
Theorem fromJSON_lookup j k :
  let g := fromJSON to_f32 num_truthy inv_log j in
  entryPointId g = jentryPointId j /\ maxLevel g = jmaxLevel j /\
  M g = (if jM j =? 0 then 16 else jM j) /\
  efConstruction g = (if jefConstruction j =? 0 then 200 else jefConstruction j) /\
  efSearch g = (if jefSearch j =? 0 then 200 else jefSearch j) /\
  (mget (nodes g) k = None <-> ~ In k (map jid (jnodes j))) /\
  (forall pre nd post, jnodes j = pre ++ nd :: post -> jid nd = k ->
     ~ In k (map jid post) ->
     mget (nodes g) k =
       Some (mkNode k (map to_f32 (jvector nd)) (jlevel nd) (jneighbors nd))).
Proof.
  cbv zeta; unfold fromJSON; rewrite fromJSON_fold.
  cbn [nodes entryPointId maxLevel M efConstruction efSearch set_nodes set_top new_index
       cfgM cfgEfConstruction cfgEfSearch].
  split; [reflexivity|split; [reflexivity|]].
  split; [destruct (jM j); reflexivity|].
  split; [destruct (jefConstruction j); reflexivity|].
  split; [destruct (jefSearch j); reflexivity|].
  split.
  - split.
    + intros E Hin; pose proof (jfold_present (jnodes j) [] k Hin) as Hm.
      unfold mhas in Hm; rewrite E in Hm; discriminate.
    + intro Hn; rewrite jfold_absent by exact Hn; reflexivity.
  - intros pre nd post Hj Hk Hpost; rewrite Hj, fold_left_app; simpl.
    rewrite jfold_absent by exact Hpost; unfold json_node; simpl.
    rewrite Hk; apply mget_mset_same.
Qed.

(** When the node records have distinct ids, every lane survives the
    Float32 conversion, and the counts and [levelMultiplier] are truthy,
    [toJSON(fromJSON(json))] gives back [json] itself, nodes in order. *)
Theorem toJSON_fromJSON j :
  NoDup (map jid (jnodes j)) ->
  (forall nd x, In nd (jnodes j) -> In x (jvector nd) -> of_f32 (to_f32 x) = x) ->
  jM j <> 0 -> jefConstruction j <> 0 -> jefSearch j <> 0 ->
  num_truthy (jlevelMultiplier j) = true ->
  toJSON of_f32 (fromJSON to_f32 num_truthy inv_log j) = j.
Proof.
  intros Hnd Hx HM HC HS Hl.
  unfold fromJSON; rewrite fromJSON_fold, fold_mset_fresh by exact Hnd.
  destruct j as [m c s lm ml ep js]; simpl in *.
  unfold toJSON, or_nat, or_num; simpl; rewrite Hl.
  destruct m as [|m]; [contradiction|]; destruct c as [|c]; [contradiction|].
  destruct s as [|s]; [contradiction|].
  f_equal; rewrite map_map.
  transitivity (map (fun nd => nd) js); [|apply map_id].
  apply map_ext_in; intros [k v l nb] Hin; simpl.
  f_equal; rewrite map_map; transitivity (map (fun x => x) v); [|apply map_id].
  apply map_ext_in; intros x Hxv; exact (Hx _ x Hin Hxv).
Qed.

(** ** [getRandomLevel] *)

Lemma rl_loop_spec (lt : Num -> Num -> bool) (rand : nat -> Num) lm s : forall level,
  level <= 16 -> 17 <= s + level ->
  (forall i, i < level -> lt (rand i) lm = true) ->
  let L := rl_loop lt rand s lm level in
  L <= 16 /\ (forall i, i < L -> lt (rand i) lm = true) /\
  (L < 16 -> lt (rand L) lm = false).
Proof.
  induction s as [|s IH]; intros level H16 Hs Hi; cbv zeta; simpl; [lia|].
  destruct (lt (rand level) lm) eqn:Er; simpl.
  - destruct (level <? 16) eqn:El.
    + apply Nat.ltb_lt in El; apply IH; [lia|lia|].
      intros i Hil; destruct (Nat.eq_dec i level) as [->|Hne]; [exact Er|apply Hi; lia].
    + apply Nat.ltb_ge in El; split; [lia|split; [exact Hi|lia]].
  - split; [lia|split; [exact Hi|auto]].
Qed.

(** [getRandomLevel()] returns the number [L <= 16] of leading draws of
    [Math.random()] below [levelMultiplier]: the draws [0 .. L-1] are all
    below it, and when [L < 16] the draw [L] is not. *)
Theorem getRandomLevel_spec (lt : Num -> Num -> bool) (rand : nat -> Num) lm :
  let L := getRandomLevel lt rand lm in
  L <= 16 /\ (forall i, i < L -> lt (rand i) lm = true) /\
  (L < 16 -> lt (rand L) lm = false).
Proof.
  apply rl_loop_spec; [lia|lia|intros i Hi; lia].
Qed.

End Extra.
End HNSWExtra.

(** * Proofs about persistence and the brute-force search *)
Module VectoriaFacts.
Import HNSW HNSWFacts HNSWExtra Vectoria.

Section Facts.
Context {Num F32 Meta : Type}.
Variable to_f32 : Num -> F32.
Variable of_f32 : F32 -> Num.
Variable dist : list F32 -> list F32 -> Z.
Variable num_truthy : Num -> bool.
Variable inv_log : nat -> Num.
Variable cosineSimilarity : list Num -> list Num -> Z.

Local Abbreviation Doc := (@Migration.VectorDocument Num Meta).
Local Abbreviation HNSWIndex := (@HNSW.HNSWIndex Num F32).
Local Abbreviation NodeStore := (@NodeStore Num).
Implicit Types (g : HNSWIndex) (s : NodeStore).

(** ** Notions *)

(** The [hnsw_nodes] store as IndexedDB keeps it: one record per key, stored
    under its own [id]. *)
Definition store_ok s : Prop :=
  NoDup (map fst s) /\ forall k r, In (k, r) s -> jid r = k.

(** The node store holds, under every key, the record of the graph's node
    with that key, and nothing else. *)
Definition mirrors g s : Prop :=
  store_ok s /\ forall k, nget s k = option_map (node_record of_f32) (mget (nodes g) k).

(** A successful run of the [indexDocuments] loop from [g] with the touched
    set [acc] to [g'] with [T]: [g'] keeps [ids_ok], [T] grows [acc] and stays
    duplicate-free, every id of [T] not in [acc] is a key of [g'], no key is
    lost, and every node outside [T] is unchanged. *)
Definition loop_ok g g' (acc T : list string) : Prop :=
  ids_ok g' /\ incl acc T /\ (NoDup acc -> NoDup T) /\
  (forall x, In x T -> In x acc \/ mhas (nodes g') x = true) /\
  (forall x, mhas (nodes g) x = true -> mhas (nodes g') x = true) /\
  (forall k, ~ In k T -> mget (nodes g') k = mget (nodes g) k).

(** The [documents] store: one document per key, stored under its own id. *)
Definition docs_ok (ds : @Migration.DocStore Num Meta) : Prop :=
  NoDup (map fst ds) /\ forall k d, In (k, d) ds -> Migration.id d = k.

(** ** The node store *)

Lemma nget_nput s r k :
  nget (nput s r) k = if String.eqb (jid r) k then Some r else nget s k.
Proof.
  induction s as [|[k' r'] t IH]; simpl.
  - destruct (String.eqb_spec k (jid r)), (String.eqb_spec (jid r) k); congruence.
  - destruct (String.eqb_spec (jid r) k') as [E|E]; simpl.
    + destruct (String.eqb_spec k k'), (String.eqb_spec (jid r) k); congruence.
    + rewrite IH; destruct (String.eqb_spec k k'), (String.eqb_spec (jid r) k); congruence.
Qed.

Lemma keys_nput s r :
  map fst (nput s r) = if existsb (String.eqb (jid r)) (map fst s) then map fst s
                       else map fst s ++ [jid r].
Proof.
  induction s as [|[k' r'] t IH]; simpl; [reflexivity|].
  destruct (String.eqb (jid r) k'); simpl; [reflexivity|].
  rewrite IH; destruct (existsb _ _); reflexivity.
Qed.

Lemma in_nput s r k x : In (k, x) (nput s r) -> In (k, x) s \/ (k = jid r /\ x = r).
Proof.
  induction s as [|[k' r'] t IH]; simpl; [intros [H|[]]; injection H; auto|].
  destruct (String.eqb_spec (jid r) k') as [E|E]; simpl.
  - intros [H|H]; [injection H as <- <-; auto|auto].
  - intros [H|H]; [auto|destruct (IH H); auto].
Qed.

Lemma store_ok_nput s r : store_ok s -> store_ok (nput s r).
Proof.
  intros [Hn He]; split.
  - rewrite keys_nput; destruct (existsb _ _) eqn:E; [exact Hn|].
    apply nodup_snoc; [exact Hn|]; intro Hin.
    assert (existsb (String.eqb (jid r)) (map fst s) = true)
      by (apply existsb_exists; exists (jid r); split; [exact Hin|apply String.eqb_refl]).
    congruence.
  - intros k x Hin; destruct (in_nput _ _ _ _ Hin) as [H|[-> ->]]; [exact (He _ _ H)|reflexivity].
Qed.

Lemma store_ok_save s recs : store_ok s -> store_ok (saveNodes s recs).
Proof.
  unfold saveNodes; revert s; induction recs as [|r rs IH]; intros s H; simpl; auto.
  apply IH, store_ok_nput, H.
Qed.

Lemma save_nonempty s recs :
  match recs with [] => s | _ => saveNodes s recs end = saveNodes s recs.
Proof. destruct recs; reflexivity. Qed.

Lemma nget_save_other s recs k :
  ~ In k (map jid recs) -> nget (saveNodes s recs) k = nget s k.
Proof.
  unfold saveNodes; revert s; induction recs as [|r rs IH]; intros s Hk; simpl; auto.
  simpl in Hk; rewrite IH by tauto; rewrite nget_nput.
  destruct (String.eqb_spec (jid r) k); [tauto|reflexivity].
Qed.

Lemma jids_to_save g T : ids_ok g -> incl (map jid (nodes_to_save of_f32 g T)) T.
Proof.
  intros Hi x Hx; unfold nodes_to_save in Hx.
  apply in_map_iff in Hx as [r [<- Hr]]; apply in_flat_map in Hr as [k [Hk Hr]].
  destruct (mget (nodes g) k) as [n|] eqn:E; [|destruct Hr].
  destruct Hr as [<-|[]]; simpl; rewrite (Hi _ _ (mget_in _ _ _ E)); exact Hk.
Qed.

Lemma save_app s a b : saveNodes s (a ++ b) = saveNodes (saveNodes s a) b.
Proof. unfold saveNodes; apply fold_left_app. Qed.

Lemma to_save_split g pre k post n :
  mget (nodes g) k = Some n ->
  nodes_to_save of_f32 g (pre ++ k :: post)
  = nodes_to_save of_f32 g pre ++ node_record of_f32 n :: nodes_to_save of_f32 g post.
Proof.
  intros Hm; unfold nodes_to_save; rewrite flat_map_app; cbn [flat_map]; rewrite Hm.
  reflexivity.
Qed.

Lemma nget_save_in g T s k n :
  ids_ok g -> NoDup T -> In k T -> mget (nodes g) k = Some n ->
  nget (saveNodes s (nodes_to_save of_f32 g T)) k = Some (node_record of_f32 n).
Proof.
  intros Hi Hn Hk Hm; apply in_split in Hk as [pre [post ->]].
  apply NoDup_remove_2 in Hn.
  rewrite (to_save_split g pre k post n Hm), save_app.
  change (saveNodes ?s0 (?r :: ?l)) with (saveNodes (nput s0 r) l).
  rewrite nget_save_other.
  - rewrite nget_nput; unfold node_record; cbn [jid].
    rewrite (Hi _ _ (mget_in _ _ _ Hm)), String.eqb_refl; reflexivity.
  - intro H; apply (jids_to_save g post Hi) in H; apply Hn, in_or_app; right; exact H.
Qed.

(** ** [indexDocuments] *)

Lemma In_add_all acc t y : In y (add_all acc t) <-> In y acc \/ In y t.
Proof.
  unfold add_all; revert acc; induction t as [|x t IH]; intro acc; simpl; [tauto|].
  rewrite IH, In_sadd; split.
  - intros [[H|H]|H]; auto.
  - intros [H|[H|H]]; auto.
Qed.

Lemma NoDup_add_all acc t : NoDup acc -> NoDup (add_all acc t).
Proof.
  unfold add_all; revert acc; induction t as [|x t IH]; intros acc H; simpl; auto.
  apply IH, NoDup_sadd, H.
Qed.

Lemma mhas_addPoint g newId vec lvl fuel x :
  mhas (nodes g) x = true ->
  mhas (nodes (fst (addPoint to_f32 dist newId vec lvl fuel g))) x = true.
Proof.
  rewrite !mhas_keys; destruct (addPoint_nodes to_f32 dist g newId vec lvl fuel) as [K _].
  cbv zeta in K; rewrite K; destruct (mhas (nodes g) newId); auto.
  intro H; apply in_or_app; left; exact H.
Qed.

Lemma index_loop_ok lvls fuel (docs : list Doc) : forall n acc g g' T,
  ids_ok g -> index_loop to_f32 dist lvls fuel docs n acc g = (g', Ok T) ->
  loop_ok g g' acc T.
Proof.
  induction docs as [|doc rest IH]; intros n acc g g' T Hi H; simpl in H.
  - injection H as <- <-; repeat split; auto; intros x Hx; auto.
  - destruct (Migration.embedding doc) as [e|]; [|exact (IH _ _ _ _ _ Hi H)].
    apply st_bind_ok in H as [g1 [t [H1 H2]]].
    destruct (addPoint_touched_ids to_f32 dist _ _ _ _ _ _ _ Hi H1) as [Tn [Tin [Th Tu]]].
    assert (Hi1 : ids_ok g1).
    { pose proof (addPoint_ids to_f32 dist g (Migration.id doc) e (lvls n) fuel Hi) as P.
      rewrite H1 in P; exact P. }
    assert (Hm1 : forall x, mhas (nodes g) x = true -> mhas (nodes g1) x = true).
    { intros x Hx; pose proof (mhas_addPoint g (Migration.id doc) e (lvls n) fuel x Hx) as P.
      rewrite H1 in P; exact P. }
    destruct (IH _ _ _ _ _ Hi1 H2) as [A1 [A2 [A3 [A4 [A5 A6]]]]].
    split; [exact A1|split; [|split; [|split; [|split]]]].
    + intros x Hx; apply A2, In_add_all; auto.
    + intro Hn; apply A3, NoDup_add_all, Hn.
    + intros x Hx; destruct (A4 x Hx) as [Hx'|Hx']; [|auto].
      apply In_add_all in Hx' as [Hx'|Hx']; [auto|right; apply A5, Th, Hx'].
    + intros x Hx; apply A5, Hm1, Hx.
    + intros k Hk; rewrite A6 by exact Hk; apply Tu.
      intro Ht; apply Hk, A2, In_add_all; auto.
Qed.

Lemma mirrors_save g g' s T :
  mirrors g s -> loop_ok g g' [] T ->
  mirrors g' (match nodes_to_save of_f32 g' T with
              | [] => s
              | l => saveNodes s l
              end).
Proof.
  intros [Hs Hm] [A1 [_ [A3 [A4 [_ A6]]]]].
  assert (E : match nodes_to_save of_f32 g' T with [] => s | l => saveNodes s l end
              = saveNodes s (nodes_to_save of_f32 g' T))
    by (destruct (nodes_to_save of_f32 g' T); reflexivity).
  rewrite E; split; [apply store_ok_save, Hs|]; intro k.
  destruct (in_dec string_dec k T) as [Hk|Hk].
  - destruct (A4 k Hk) as [[]|Hh].
    unfold mhas in Hh; destruct (mget (nodes g') k) as [n|] eqn:En; [|discriminate].
    rewrite (nget_save_in g' T s k n A1 (A3 (NoDup_nil _)) Hk En); reflexivity.
  - rewrite nget_save_other, Hm, (A6 k Hk); [reflexivity|].
    intro H; apply Hk, (jids_to_save g' T A1), H.
Qed.

Lemma index_loop_constructible lvls fuel (docs : list Doc) : forall n acc g,
  constructible to_f32 dist num_truthy inv_log g ->
  constructible to_f32 dist num_truthy inv_log
    (fst (index_loop to_f32 dist lvls fuel docs n acc g)).
Proof.
  induction docs as [|doc rest IH]; intros n acc g Hc; simpl; [exact Hc|].
  destruct (Migration.embedding doc) as [e|]; [|apply IH, Hc].
  unfold st_bind.
  pose proof (cons_add _ _ _ _ g (Migration.id doc) e (lvls n) fuel Hc) as H.
  destruct (addPoint to_f32 dist (Migration.id doc) e (lvls n) fuel g) as [g1 [t|er]].
  - apply IH, H.
  - exact H.
Qed.

Lemma index_persist lvls fuel (docs : list Doc) (v v' : @Vectoria Num F32 Meta) :
  initialized v = true ->
  constructible to_f32 dist num_truthy inv_log (index v) ->
  mirrors (index v) (hnsw_nodes (db v)) ->
  indexDocuments to_f32 of_f32 dist num_truthy inv_log lvls fuel docs v = (v', Ok tt) ->
  mirrors (index v') (hnsw_nodes (db v')) /\
  meta (db v') = Some (index_meta (toJSON of_f32 (index v'))).
Proof.
  intros Hin Hc Hm H; unfold indexDocuments, init in H; rewrite Hin in H.
  destruct (index_loop to_f32 dist lvls fuel docs 0 [] (index v)) as [g' [T|e]] eqn:E;
    [|discriminate].
  injection H as <-; unfold saveIndex; cbn [db index hnsw_nodes meta].
  split; [|reflexivity].
  exact (mirrors_save _ _ _ _ Hm (index_loop_ok _ _ _ _ _ _ _ _ (constructible_ids _ _ _ _ _ Hc) E)).
Qed.

(** After a successful [indexDocuments] call on an initialized instance whose
    node store mirrors its index, the node store still mirrors the new index
    (every node is stored under its key with its current vector, level and
    neighbor lists, and no other record is stored), and the meta key holds
    the index's parameters, [maxLevel] and [entryPointId]. *)
Theorem indexDocuments_persists lvls fuel (docs : list Doc) (v v' : @Vectoria Num F32 Meta) :
  initialized v = true ->
  constructible to_f32 dist num_truthy inv_log (index v) ->
  mirrors (index v) (hnsw_nodes (db v)) ->
  indexDocuments to_f32 of_f32 dist num_truthy inv_log lvls fuel docs v = (v', Ok tt) ->
  mirrors (index v') (hnsw_nodes (db v')) /\
  meta (db v') = Some (index_meta (toJSON of_f32 (index v'))).
Proof. exact (index_persist lvls fuel docs v v'). Qed.


Lemma addPoint_has_new g newId vec lvl fuel :
  mhas (nodes (fst (addPoint to_f32 dist newId vec lvl fuel g))) newId = true.
Proof.
  apply mhas_keys; destruct (addPoint_nodes to_f32 dist g newId vec lvl fuel) as [K _].
  cbv zeta in K; rewrite K; destruct (mhas (nodes g) newId) eqn:Hh.
  - apply mhas_keys, Hh.
  - apply in_or_app; right; left; reflexivity.
Qed.

Lemma index_loop_dup lvls fuel pre (d : Doc) post e :
  Migration.embedding d = Some e ->
  forall n acc g,
  mhas (nodes g) (Migration.id d) = true \/
  (exists d' e', In d' pre /\ Migration.embedding d' = Some e' /\
                 Migration.id d' = Migration.id d) ->
  exists er, snd (index_loop to_f32 dist lvls fuel (pre ++ d :: post) n acc g) = Err er.
Proof.
  intro He; induction pre as [|d0 pre IH]; intros n acc g H.
  - destruct H as [Hh|[d' [e' [[] _]]]].
    cbn [app index_loop]; rewrite He; unfold st_bind, addPoint; rewrite Hh.
    eexists; reflexivity.
  - rewrite <- app_comm_cons; cbn [index_loop].
    destruct (Migration.embedding d0) as [e0|] eqn:E0.
    + unfold st_bind.
      pose proof (addPoint_has_new g (Migration.id d0) e0 (lvls n) fuel) as Hnew.
      pose proof (mhas_addPoint g (Migration.id d0) e0 (lvls n) fuel (Migration.id d)) as Hmono.
      destruct (addPoint to_f32 dist (Migration.id d0) e0 (lvls n) fuel g) as [g1 [t|er]];
        [|eexists; reflexivity].
      cbn [fst] in Hnew, Hmono; apply IH.
      destruct H as [Hh|[d' [e' [[<-|Hin] [He' Hid]]]]].
      * left; exact (Hmono Hh).
      * left; rewrite <- Hid; exact Hnew.
      * right; exists d', e'; auto.
    + apply IH; destruct H as [Hh|[d' [e' [[<-|Hin] [He' Hid]]]]].
      * left; exact Hh.
      * congruence.
      * right; exists d', e'; auto.
Qed.

(** [indexDocuments(docs)] on an initialized instance rejects the whole
    batch when a document with an embedding has an id already in the index
    or shared with an earlier document of the batch that has an embedding:
    the call fails and no store is written. *)
Theorem indexDocuments_duplicate lvls fuel pre (d : Doc) post e
    (v : @Vectoria Num F32 Meta) :
  initialized v = true -> Migration.embedding d = Some e ->
  mhas (nodes (index v)) (Migration.id d) = true \/
  (exists d' e', In d' pre /\ Migration.embedding d' = Some e' /\
                 Migration.id d' = Migration.id d) ->
  let r := indexDocuments to_f32 of_f32 dist num_truthy inv_log lvls fuel
             (pre ++ d :: post) v in
  (exists er, snd r = Err er) /\ db (fst r) = db v.
Proof.
  intros Hin He H; cbv zeta; unfold indexDocuments, init; rewrite Hin.
  destruct (index_loop_dup lvls fuel pre d post e He 0 [] (index v) H) as [er Er].
  destruct (index_loop to_f32 dist lvls fuel (pre ++ d :: post) 0 [] (index v))
    as [g' [T|er']]; cbn [snd] in Er; [discriminate|].
  split; [exists er'; reflexivity|reflexivity].
Qed.

(** ** [init] *)

Lemma mget_stored s k :
  (forall k r, In (k, r) s -> jid r = k) ->
  mget (map (json_node to_f32) (getAllNodes s)) k
  = option_map (fun r => snd (json_node to_f32 r)) (nget s k).
Proof.
  unfold getAllNodes; induction s as [|[k' r] t IH]; intro He; simpl; [reflexivity|].
  pose proof (He k' r (or_introl eq_refl)) as Hj; rewrite Hj.
  destruct (String.eqb k k'); simpl; [rewrite Hj; reflexivity|].
  apply IH; intros k0 r0 H; exact (He k0 r0 (or_intror H)).
Qed.

Lemma stored_keys s : store_ok s -> map jid (getAllNodes s) = map fst s.
Proof.
  intros [_ He]; unfold getAllNodes; rewrite map_map; apply map_ext_in.
  intros [k r] Hin; exact (He k r Hin).
Qed.

(** [search] reads the graph only through [nodes.get], [entryPointId],
    [maxLevel] and [efSearch]. *)

Section Ext.
Variables g1 g2 : HNSWIndex.
Hypothesis same_get : forall k, mget (nodes g1) k = mget (nodes g2) k.

Lemma sl_inner_ext query ef f nbrs : forall v C W,
  sl_inner dist g1 query ef f nbrs v C W = sl_inner dist g2 query ef f nbrs v C W.
Proof.
  induction nbrs as [|nid rest IH]; intros v C W; simpl; [reflexivity|].
  rewrite same_get; destruct (smem nid v); [apply IH|].
  destruct (mget (nodes g2) nid); [|reflexivity].
  destruct (_ || _); apply IH.
Qed.

Lemma sl_loop_ext query ef lvl fuel : forall v C W,
  sl_loop dist g1 query ef lvl fuel v C W = sl_loop dist g2 query ef lvl fuel v C W.
Proof.
  induction fuel as [|fuel IH]; intros v C W; simpl; destruct C; try reflexivity.
  destruct (sort_desc (c :: C)) as [|c0 C']; [reflexivity|].
  destruct (last_opt (sort_desc W)) as [f|]; [|reflexivity].
  destruct (_ && _); [reflexivity|].
  rewrite same_get; destruct (mget (nodes g2) (cid c0)) as [n|]; [|reflexivity].
  destruct (nth_error (neighbors n) lvl); [|reflexivity].
  rewrite sl_inner_ext; destruct (sl_inner dist g2 _ _ _ _ _ _ _) as [[[v' C''] W']|e];
    [apply IH|reflexivity].
Qed.

Lemma scan_ext query nbrs : forall best bd,
  scan dist g1 query nbrs best bd = scan dist g2 query nbrs best bd.
Proof.
  induction nbrs as [|nid rest IH]; intros best bd; simpl; [reflexivity|].
  rewrite same_get; destruct (mget (nodes g2) nid); [|reflexivity].
  destruct (_ <? _)%Z; apply IH.
Qed.

Lemma greedy_ext query l fuel : forall curr d,
  greedy dist g1 query l fuel curr d = greedy dist g2 query l fuel curr d.
Proof.
  induction fuel as [|fuel IH]; intros curr d; simpl; [reflexivity|].
  destruct (nth_error (neighbors curr) l); [|reflexivity].
  rewrite scan_ext; destruct (scan dist g2 _ _ _ _) as [[[b|] bd]|e]; auto.
Qed.

Lemma descend_ext query fuel ls : forall curr d,
  descend dist g1 query fuel ls curr d = descend dist g2 query fuel ls curr d.
Proof.
  induction ls as [|l ls IH]; intros curr d; simpl; [reflexivity|].
  rewrite greedy_ext; destruct (greedy dist g2 _ _ _ _ _) as [[c' d']|e]; auto.
Qed.

Lemma search_ext query k fuel :
  entryPointId g1 = entryPointId g2 -> maxLevel g1 = maxLevel g2 ->
  efSearch g1 = efSearch g2 ->
  search to_f32 dist g1 query k fuel = search to_f32 dist g2 query k fuel.
Proof.
  intros E1 E2 E3; unfold search, searchLayer; rewrite E1, E2, E3.
  destruct (entryPointId g2) as [ep|]; [|reflexivity].
  rewrite same_get; destruct (mget (nodes g2) ep); [|reflexivity].
  rewrite descend_ext; destruct (descend dist g2 _ _ _ _ _) as [[c d]|e]; [|reflexivity].
  rewrite sl_loop_ext; reflexivity.
Qed.

End Ext.

Section Reload.
(** [new Float32Array(Array.from(v))] gives the lanes of [v] back. *)
Hypothesis f32_round : forall x, to_f32 (of_f32 x) = x.

Lemma init_index (v : @Vectoria Num F32 Meta) g :
  initialized v = false ->
  constructible to_f32 dist num_truthy inv_log g ->
  mirrors g (hnsw_nodes (db v)) ->
  meta (db v) = Some (index_meta (toJSON of_f32 g)) ->
  let g' := index (init to_f32 num_truthy inv_log v) in
  initialized (init to_f32 num_truthy inv_log v) = true /\
  db (init to_f32 num_truthy inv_log v) = db v /\
  (forall k, mget (nodes g') k = mget (nodes g) k) /\
  entryPointId g' = entryPointId g /\ maxLevel g' = maxLevel g /\
  M g' = M g /\ efConstruction g' = efConstruction g /\ efSearch g' = efSearch g /\
  levelMultiplier g' = levelMultiplier g.
Proof.
  intros Hin Hc [Hs Hm] Hmeta; cbv zeta; unfold init; rewrite Hin, Hmeta.
  cbn [index initialized db].
  destruct (constructible_ok to_f32 dist num_truthy inv_log g Hc)
    as [HM [HC [HS [Hlm _]]]].
  unfold fromJSON; rewrite fromJSON_fold, fold_mset_fresh.
  2:{ cbn [with_nodes jnodes nodes set_top new_index]; rewrite stored_keys by exact Hs.
      exact (proj1 Hs). }
  cbn [with_nodes index_meta toJSON jnodes jM jefConstruction jefSearch jlevelMultiplier
       jmaxLevel jentryPointId nodes set_top set_nodes new_index cfgM cfgEfConstruction
       cfgEfSearch cfgLevelMultiplier entryPointId maxLevel M efConstruction efSearch
       levelMultiplier app].
  split; [reflexivity|split; [reflexivity|split]].
  - intro k; rewrite mget_stored by exact (proj2 Hs); rewrite Hm.
    destruct (mget (nodes g) k) as [[i vec l nb]|]; [|reflexivity].
    unfold node_record, json_node; cbn [option_map snd id vector level neighbors
      jid jvector jlevel jneighbors].
    rewrite map_map; f_equal; f_equal; rewrite <- (map_id vec) at 2.
    apply map_ext; exact f32_round.
  - unfold or_nat, or_num.
    destruct (M g) as [|m]; [contradiction|].
    destruct (efConstruction g) as [|c]; [contradiction|].
    destruct (efSearch g) as [|s']; [contradiction|].
    repeat split; destruct Hlm as [E|E]; [rewrite E; reflexivity|].
    destruct (num_truthy (levelMultiplier g)); [reflexivity|symmetry; exact E].
Qed.

(** [init()] on an instance not yet initialized, whose node store mirrors a
    graph [g] and whose meta key holds [g]'s parameters, loads an index with
    the same node under every key as [g], the same entry point, [maxLevel]
    and parameters, and marks the instance initialized without touching the
    stores. *)
Theorem init_reloads (v : @Vectoria Num F32 Meta) g :
  initialized v = false ->
  constructible to_f32 dist num_truthy inv_log g ->
  mirrors g (hnsw_nodes (db v)) ->
  meta (db v) = Some (index_meta (toJSON of_f32 g)) ->
  let g' := index (init to_f32 num_truthy inv_log v) in
  initialized (init to_f32 num_truthy inv_log v) = true /\
  db (init to_f32 num_truthy inv_log v) = db v /\
  (forall k, mget (nodes g') k = mget (nodes g) k) /\
  entryPointId g' = entryPointId g /\ maxLevel g' = maxLevel g /\
  M g' = M g /\ efConstruction g' = efConstruction g /\ efSearch g' = efSearch g /\
  levelMultiplier g' = levelMultiplier g.
Proof. exact (init_index v g). Qed.

(** [search] on the index that [init()] loads from such stores returns what
    [search] on the saved graph returns, for every query, [k] and outcome. *)
Theorem init_search_same (v : @Vectoria Num F32 Meta) g query k fuel :
  initialized v = false ->
  constructible to_f32 dist num_truthy inv_log g ->
  mirrors g (hnsw_nodes (db v)) ->
  meta (db v) = Some (index_meta (toJSON of_f32 g)) ->
  search to_f32 dist (index (init to_f32 num_truthy inv_log v)) query k fuel
  = search to_f32 dist g query k fuel.
Proof.
  intros H1 H2 H3 H4.
  destruct (init_index v g H1 H2 H3 H4) as [_ [_ [Hm [E1 [E2 [_ [_ [E3 _]]]]]]]].
  exact (search_ext _ _ Hm query k fuel E1 E2 E3).
Qed.


(** A reload after a successful [indexDocuments] call: a new instance on
    the same stores (whatever index it starts with) answers, once [init()]
    has run, every [search] exactly as the instance that indexed. *)
Theorem reload_after_index lvls fuel (docs : list Doc) (v v' : @Vectoria Num F32 Meta)
    g0 query k sfuel :
  initialized v = true ->
  constructible to_f32 dist num_truthy inv_log (index v) ->
  mirrors (index v) (hnsw_nodes (db v)) ->
  indexDocuments to_f32 of_f32 dist num_truthy inv_log lvls fuel docs v = (v', Ok tt) ->
  search to_f32 dist (index (init to_f32 num_truthy inv_log (mkVectoria (db v') g0 false)))
    query k sfuel
  = search to_f32 dist (index v') query k sfuel.
Proof.
  intros Hin Hc Hm H.
  assert (Hc' : constructible to_f32 dist num_truthy inv_log (index v')).
  { unfold indexDocuments, init in H; rewrite Hin in H.
    pose proof (index_loop_constructible lvls fuel docs 0 [] (index v) Hc) as P.
    destruct (index_loop to_f32 dist lvls fuel docs 0 [] (index v)) as [g' [T|e]];
      [|discriminate].
    injection H as <-; exact P. }
  destruct (index_persist lvls fuel docs v v' Hin Hc Hm H) as [Hm' Hmeta].
  destruct (init_index (mkVectoria (db v') g0 false) (index v') eq_refl Hc' Hm' Hmeta)
    as [_ [_ [Hg [E1 [E2 [_ [_ [E3 _]]]]]]]].
  exact (search_ext _ _ Hg query k sfuel E1 E2 E3).
Qed.

End Reload.

(** ** [search(query, topK, true)] *)

Lemma dget_in (ds : @Migration.DocStore Num Meta) k d :
  NoDup (map fst ds) -> In (k, d) ds -> Migration.dget ds k = Some d.
Proof.
  induction ds as [|[k' d'] t IH]; simpl; [intros _ []|].
  intros Hn [H|H].
  - injection H as -> ->; rewrite String.eqb_refl; reflexivity.
  - inversion Hn as [|? ? Hk Ht]; subst.
    destruct (String.eqb_spec k k') as [->|_]; [|exact (IH Ht H)].
    exfalso; apply Hk; apply in_map_iff; exists (k', d); auto.
Qed.

Lemma dget_stored ds d :
  docs_ok ds -> In d (map snd ds) -> Migration.dget ds (Migration.id d) = Some d.
Proof.
  intros [Hn He] Hd; apply in_map_iff in Hd as [[k d'] [Hs Hin]]; simpl in Hs; subst d'.
  rewrite (He _ _ Hin); apply dget_in; [exact Hn|exact Hin].
Qed.

Lemma stored_ids ds : docs_ok ds -> map Migration.id (map snd ds) = map fst ds.
Proof.
  intros [_ He]; rewrite map_map; apply map_ext_in; intros [k d] Hin; exact (He k d Hin).
Qed.

Lemma NoDup_map_filter {A B} (f : A -> B) (p : A -> bool) l :
  NoDup (map f l) -> NoDup (map f (filter p l)).
Proof.
  induction l as [|x l IH]; simpl; [auto|]; intro H; inversion H as [|? ? Hx Hl]; subst.
  destruct (p x); simpl; [|exact (IH Hl)].
  constructor; [|exact (IH Hl)].
  intro Hin; apply Hx; apply in_map_iff in Hin as [y [Hy Hin]].
  apply filter_In in Hin; rewrite <- Hy; apply in_map; tauto.
Qed.

Lemma finalResults_map (results : list Cand) (f : string -> option Doc) :
  finalResults results (map (fun r => f (cid r)) results)
  = flat_map (fun r => match f (cid r) with Some d => [(d, score r)] | None => [] end)
      results.
Proof.
  unfold finalResults; induction results as [|r t IH]; simpl; [reflexivity|].
  rewrite IH; reflexivity.
Qed.

Lemma found_all (rs : list Cand) (f : string -> option Doc) :
  (forall r, In r rs -> exists d, f (cid r) = Some d /\ Migration.id d = cid r) ->
  map (fun p => mkCand (Migration.id (fst p)) (snd p))
    (flat_map (fun r => match f (cid r) with Some d => [(d, score r)] | None => [] end) rs)
  = rs.
Proof.
  induction rs as [|r t IH]; intro H; simpl; [reflexivity|].
  destruct (H r (or_introl eq_refl)) as [d [E1 E2]]; rewrite E1; simpl.
  rewrite E2, IH by (intros r' Hr'; exact (H r' (or_intror Hr'))).
  destruct r; reflexivity.
Qed.

Lemma brute_cand (allDocs : list Doc) q k c :
  In c (brute_force cosineSimilarity allDocs q k) ->
  exists d, In d (filter has_embedding allDocs) /\ cid c = Migration.id d /\
    score c = cosineSimilarity q (match Migration.embedding d with Some e => e | None => [] end).
Proof.
  unfold brute_force; intro H; apply slice0_in, sort_desc_in, in_map_iff in H.
  destruct H as [d [<- Hd]]; exists d; auto.
Qed.

(** The brute-force branch of [search(query, topK, true)] on a [documents]
    store that keeps one document per key under its own id, with
    [topK >= 0]: no document found by the scan is lost when the results are
    re-fetched, so the answer has [min(topK, E)] entries, [E] the number of
    documents with a non-empty embedding; the scores are non-increasing, the
    ids distinct, each entry is such a document with the cosine similarity of
    the query to its embedding, and when [topK >= E] every such document is
    returned. *)
Theorem search_brute_results (s : @VStore Num Meta) q k :
  docs_ok (documents s) -> (0 <= k)%Z ->
  let E := filter has_embedding (map snd (documents s)) in
  let r := search_brute cosineSimilarity s q k in
  length r = Nat.min (Z.to_nat k) (length E) /\
  sorted_desc (map (fun p => mkCand (Migration.id (fst p)) (snd p)) r) = true /\
  NoDup (map (fun p => Migration.id (fst p)) r) /\
  (forall d sc, In (d, sc) r ->
     In d E /\ exists e, Migration.embedding d = Some e /\ e <> [] /\
       sc = cosineSimilarity q e) /\
  (length E <= Z.to_nat k -> forall d, In d E -> exists sc, In (d, sc) r).
Proof.
  intros Hd Hk; cbv zeta; unfold search_brute; rewrite finalResults_map.
  set (f := fun k0 => Migration.dget (documents s) k0).
  set (R := brute_force cosineSimilarity (map snd (documents s)) q k).
  assert (Hf : forall c, In c R -> exists d, f (cid c) = Some d /\ Migration.id d = cid c).
  { intros c Hc; destruct (brute_cand _ _ _ _ Hc) as [d [Hd' [Hi _]]].
    exists d; rewrite Hi; split; [|reflexivity].
    apply dget_stored; [exact Hd|]; apply filter_In in Hd'; tauto. }
  pose proof (found_all R f Hf) as Hmap.
  set (r := flat_map _ R) in Hmap |- *.
  assert (HR : R = firstn (Z.to_nat k)
                      (sort_desc (map (fun doc => mkCand (Migration.id doc)
                         (cosineSimilarity q (match Migration.embedding doc with
                                              | Some e => e | None => [] end)))
                         (filter has_embedding (map snd (documents s)))))).
  { unfold R, brute_force, slice0; destruct (Z.ltb_spec k 0); [lia|reflexivity]. }
  assert (HnR : NoDup (map cid R)).
  { rewrite HR; apply firstn_nodup.
    apply (Permutation_NoDup (Permutation_map cid (Permutation_sym (sort_desc_perm _)))).
    rewrite map_map; cbn [cid].
    apply NoDup_map_filter.
    rewrite stored_ids by exact Hd; exact (proj1 Hd). }
  split; [|split; [|split; [|split]]].
  - rewrite <- (length_map (fun p => mkCand (Migration.id (fst p)) (snd p)) r), Hmap, HR.
    rewrite length_firstn, (Permutation_length (sort_desc_perm _)), length_map.
    reflexivity.
  - rewrite Hmap; unfold R, brute_force; apply slice0_sorted, sort_desc_sorted.
  - replace (map (fun p => Migration.id (fst p)) r)
      with (map cid (map (fun p => mkCand (Migration.id (fst p)) (snd p)) r))
      by (rewrite map_map; reflexivity).
    rewrite Hmap; exact HnR.
  - intros d sc Hin; unfold r in Hin; apply in_flat_map in Hin as [c [Hc Hin]].
    destruct (brute_cand _ _ _ _ Hc) as [d0 [Hd0 [Hi Hs]]].
    assert (Hf0 : f (cid c) = Some d0).
    { rewrite Hi; apply dget_stored; [exact Hd|]; apply filter_In in Hd0; tauto. }
    rewrite Hf0 in Hin; destruct Hin as [Hin|[]]; injection Hin as <- <-.
    split; [exact Hd0|].
    apply filter_In in Hd0 as [_ He]; unfold has_embedding in He.
    destruct (Migration.embedding d0) as [[|x e]|]; try discriminate.
    exists (x :: e); split; [reflexivity|split; [discriminate|exact Hs]].
  - intros Hl d Hin.
    assert (Hc : In (mkCand (Migration.id d)
               (cosineSimilarity q (match Migration.embedding d with
                                    | Some e => e | None => [] end))) R).
    { rewrite HR, firstn_all2.
      - apply sort_desc_in, in_map_iff; exists d; auto.
      - rewrite (Permutation_length (sort_desc_perm _)), length_map; exact Hl. }
    eexists; unfold r; apply in_flat_map; eexists; split; [exact Hc|].
    assert (Hf0 : f (Migration.id d) = Some d)
      by (apply dget_stored; [exact Hd|]; apply filter_In in Hin; tauto).
    cbn [cid]; rewrite Hf0; left; reflexivity.
Qed.

(** ** [saveIndex()] without touched ids *)

Lemma nget_save_last s recs r :
  NoDup (map jid recs) -> In r recs -> nget (saveNodes s recs) (jid r) = Some r.
Proof.
  intros Hn Hr; apply in_split in Hr as [pre [post ->]].
  rewrite map_app in Hn; cbn [map] in Hn; apply NoDup_remove_2 in Hn.
  rewrite save_app; change (saveNodes ?s0 (?r0 :: ?l)) with (saveNodes (nput s0 r0) l).
  rewrite nget_save_other, nget_nput, String.eqb_refl; [reflexivity|].
  intro H; apply Hn, in_or_app; right; exact H.
Qed.

Lemma json_records g :
  ids_ok g -> jnodes (toJSON of_f32 g) = map (fun kn => node_record of_f32 (snd kn)) (nodes g).
Proof.
  intro Hi; unfold toJSON; cbn [jnodes]; apply map_ext_in; intros [k n] Hin.
  unfold node_record; cbn [fst snd]; rewrite (Hi k n Hin); reflexivity.
Qed.

(** [saveIndex()] with no touched ids (the full save) on a graph built by
    the class: the node store then holds, under every key of the graph, the
    record of its node, and every other record is left as it was (nothing is
    deleted); the store keeps one record per key under its own id. *)
Theorem saveIndex_full (v : @Vectoria Num F32 Meta) :
  constructible to_f32 dist num_truthy inv_log (index v) ->
  store_ok (hnsw_nodes (db v)) ->
  let s' := hnsw_nodes (db (saveIndex of_f32 None v)) in
  store_ok s' /\
  forall k, nget s' k = match mget (nodes (index v)) k with
                        | Some n => Some (node_record of_f32 n)
                        | None => nget (hnsw_nodes (db v)) k
                        end.
Proof.
  intros Hc Hs; cbv zeta; unfold saveIndex; cbn [db hnsw_nodes index].
  split; [apply store_ok_save, Hs|]; intro k.
  pose proof (constructible_ids _ _ _ _ _ Hc) as Hi.
  destruct (constructible_ok _ _ _ _ _ Hc) as [_ [_ [_ [_ Hnd]]]].
  assert (Hj : map jid (jnodes (toJSON of_f32 (index v))) = map fst (nodes (index v))).
  { unfold toJSON; cbn [jnodes]; rewrite map_map; reflexivity. }
  destruct (mget (nodes (index v)) k) as [n|] eqn:Em.
  - rewrite json_records by exact Hi.
    replace k with (jid (node_record of_f32 n))
      by (unfold node_record; cbn [jid]; exact (Hi _ _ (mget_in _ _ _ Em))).
    apply nget_save_last.
    + rewrite <- json_records by exact Hi; rewrite Hj; exact Hnd.
    + apply in_map_iff; exists (k, n); split; [reflexivity|exact (mget_in _ _ _ Em)].
  - apply nget_save_other; rewrite Hj; exact (mget_none_notin _ _ Em).
Qed.

(** ** [addDocument] *)

Lemma addPoint_loop_ok g newId vec lvl fuel g' t :
  ids_ok g -> addPoint to_f32 dist newId vec lvl fuel g = (g', Ok t) -> loop_ok g g' [] t.
Proof.
  intros Hi H.
  destruct (addPoint_touched_ids to_f32 dist _ _ _ _ _ _ _ Hi H) as [Tn [_ [Th Tu]]].
  split; [|split; [|split; [|split]]].
  - pose proof (addPoint_ids to_f32 dist g newId vec lvl fuel Hi) as P; rewrite H in P; exact P.
  - intros x [].
  - intros _; exact Tn.
  - intros x Hx; right; exact (Th x Hx).
  - split; [|exact Tu].
    intros x Hx; pose proof (mhas_addPoint g newId vec lvl fuel x Hx) as P.
    rewrite H in P; exact P.
Qed.

(** After a successful [addDocument] call on an initialized instance whose
    node store mirrors its index, the node store mirrors the new index, the
    meta key holds the new index's parameters, and the [documents] store
    returns the new document (with the given id, text, metadata, embedding
    and time) under its id. *)
Theorem addDocument_persists lvl fuel newId text (metadata : Meta) embedding now
    (v v' : @Vectoria Num F32 Meta) d :
  initialized v = true ->
  constructible to_f32 dist num_truthy inv_log (index v) ->
  mirrors (index v) (hnsw_nodes (db v)) ->
  addDocument to_f32 of_f32 dist num_truthy inv_log lvl fuel newId text metadata
    embedding now v = (v', Ok d) ->
  mirrors (index v') (hnsw_nodes (db v')) /\
  meta (db v') = Some (index_meta (toJSON of_f32 (index v'))) /\
  d = Migration.mkDoc newId text (Some metadata) (Some embedding) now /\
  Migration.dget (documents (db v')) newId = Some d.
Proof.
  intros Hin Hc Hm H; unfold addDocument, init in H; rewrite Hin in H.
  destruct (addPoint to_f32 dist _ embedding lvl fuel (index v)) as [g' [T|e]] eqn:E;
    [|discriminate].
  injection H as <- <-; unfold saveIndex; cbn [db index hnsw_nodes meta documents].
  split; [|split; [reflexivity|split; [reflexivity|]]].
  - exact (mirrors_save _ _ _ _ Hm
             (addPoint_loop_ok _ _ _ _ _ _ _ (constructible_ids _ _ _ _ _ Hc) E)).
  - exact (MigrationFacts.dget_dput_same _ (Migration.mkDoc newId text (Some metadata) (Some embedding) now)).
Qed.

End Facts.
End VectoriaFacts.

(** * The migration manager: further properties *)

Module MigrationExtra.
Import Migration MigrationFacts.

Section Extra.
Context {Num Meta : Type}.

Local Abbreviation Doc := (@VectorDocument Num Meta).
Local Abbreviation Mgr := (@Mgr Num Meta).
Implicit Types (d : Doc) (docs batch : list Doc) (m x : Mgr).

(** A call of [start] is suspended at one of its awaits. *)
Definition busy (p : @Phase Num Meta) : bool :=
  match p with Idle => false | _ => true end.

Lemma step_busy m ev :
  isRunning m = busy (phase m) -> isRunning (step m ev) = busy (phase (step m ev)).
Proof.
  destruct m as [st r ss p sub]; cbn [isRunning phase]; intro H.
  destruct ev, p; cbn [step isRunning phase];
    unfold loop_head, finish_run, fail_run, set_phase, set_status;
    cbn [isRunning phase shouldStop status submitted];
    repeat match goal with
           | |- context [if ?b then _ else _] => destruct b eqn:?
           | |- context [match HNSW.last_opt ?b with _ => _ end] => destruct (HNSW.last_opt b)
           end;
    cbn in *; congruence.
Qed.

Lemma step_error m ev :
  error (status (step m ev)) = error (status m) \/
  exists msg, error (status (step m ev)) = Some msg.
Proof.
  destruct m as [st r ss p sub].
  destruct ev, p; cbn [step isRunning phase];
    unfold loop_head, finish_run, fail_run, set_phase, set_status;
    cbn [isRunning phase shouldStop status submitted];
    repeat match goal with
           | |- context [if ?b then _ else _] => destruct b eqn:?
           | |- context [match HNSW.last_opt ?b with _ => _ end] => destruct (HNSW.last_opt b)
           end;
    cbn; first [left; reflexivity | right; eexists; reflexivity].
Qed.

Lemma last_opt_app {A} (l1 l2 : list A) :
  l2 <> [] -> HNSW.last_opt (l1 ++ l2) = HNSW.last_opt l2.
Proof.
  intro H; induction l1 as [|a t IH]; [reflexivity|].
  rewrite <- app_comm_cons; cbn [HNSW.last_opt].
  destruct (t ++ l2) eqn:E; [destruct t, l2; discriminate + contradiction|].
  exact IH.
Qed.

Lemma loop_last bs docs fuel : 0 < bs ->
  forall i pc x embss,
  length (skipn i docs) <= fuel ->
  length embss = length (chunks_f bs fuel (skipn i docs)) ->
  shouldStop x = false -> isRunning x = true ->
  let y := run (loop_head x bs docs i pc) (batches_events embss) in
  lastProcessedId (status y) =
    match HNSW.last_opt (skipn i docs) with
    | Some d => Some (id d)
    | None => lastProcessedId (status x)
    end /\
  error (status y) = error (status x) /\ isRunning y = false.
Proof.
  intro Hb; induction fuel as [|f IH]; intros i pc x embss Hl He Hst Hr; cbv zeta.
  - destruct (skipn i docs) eqn:Es; [|simpl in Hl; lia].
    destruct embss; [|discriminate].
    assert (Hi : (i <? length docs) = false)
      by (apply Nat.ltb_ge, skipn_all_iff; exact Es).
    unfold run, batches_events, loop_head; rewrite Hi; cbn [map concat fold_left].
    unfold finish_run; rewrite Hst; cbn; auto.
  - destruct (skipn i docs) as [|a t] eqn:Es.
    + destruct embss; [|discriminate].
      assert (Hi : (i <? length docs) = false)
        by (apply Nat.ltb_ge, skipn_all_iff; exact Es).
      unfold run, batches_events, loop_head; rewrite Hi; cbn [map concat fold_left].
      unfold finish_run; rewrite Hst; cbn; auto.
    + destruct embss as [|e embss]; [discriminate|].
      cbn [chunks_f length] in He; injection He as He.
      assert (Hi : (i <? length docs) = true).
      { apply Nat.ltb_lt. destruct (Nat.lt_ge_cases i (length docs)) as [H|H]; auto.
        apply skipn_all2 in H; congruence. }
      set (batch := firstn bs (a :: t)).
      assert (Hz' : exists z, HNSW.last_opt batch = Some z).
      { unfold batch; destruct bs as [|b]; [lia|]; apply last_opt_cons. }
      destruct Hz' as [z' Hz'].
      assert (Hsk : skipn (i + bs) docs = skipn bs (a :: t))
        by (rewrite Nat.add_comm, <- skipn_skipn, Es; reflexivity).
      destruct x as [st r ss p sub]; simpl in Hst, Hr; subst ss r.
      assert (Hlh : loop_head (mkMgr st true false p sub) bs docs i pc =
                    mkMgr st true false (AwaitEmbed bs docs i pc batch) sub)
        by (unfold loop_head; rewrite Hi, Es; reflexivity).
      unfold run, batches_events; cbn [map concat].
      rewrite fold_left_app, Hlh, (batch_steps _ _ _ _ _ _ _ _ _ Hz').
      assert (Hlt : length (skipn (i + bs) docs) <= f)
        by (rewrite Hsk, length_skipn; cbn [length] in *; lia).
      assert (Hlen : length embss = length (chunks_f bs f (skipn (i + bs) docs)))
        by (rewrite Hsk; exact He).
      destruct (IH (i + bs) (pc + length batch)
        (mkMgr (mkStatus (total st) (pc + length batch) (Some (id z')) (isComplete st)
                  (error st))
           true false (AwaitYield bs docs i (pc + length batch))
           (sub ++ [update_batch batch e])) embss Hlt Hlen eq_refl eq_refl)
        as [A [B C]].
      unfold run in A, B, C.
      fold (@batches_events Num Meta embss).
      rewrite A, B, C; cbn [status lastProcessedId error].
      split; [|split; reflexivity].
      rewrite Hsk.
      pose proof (firstn_skipn bs (a :: t)) as Hft; fold batch in Hft.
      destruct (skipn bs (a :: t)) as [|u w] eqn:Ew.
      * rewrite app_nil_r in Hft; rewrite <- Hft, Hz'; reflexivity.
      * rewrite <- Hft, last_opt_app by discriminate.
        destruct (last_opt_cons u w) as [z2 Hz2]; rewrite Hz2; reflexivity.
Qed.

(** From a manager whose [isRunning] flag is set exactly while a [start()]
    call is in progress (as for a new manager), every sequence of calls and
    completions keeps this: the flag is cleared whenever the call ends, by
    finishing, by [stop] or by a failure, and is never cleared while the
    call still awaits. *)
Theorem running_iff_busy m evs :
  isRunning m = busy (phase m) -> isRunning (run m evs) = busy (phase (run m evs)).
Proof.
  unfold run; revert m; induction evs as [|ev evs IH]; intros m H; [exact H|].
  cbn [fold_left]; apply IH, step_busy, H.
Qed.

(** [status.error] is never cleared: once a run has failed, no later call
    or completion (a new [start] included) sets it back to [undefined]. *)
Theorem error_never_cleared m evs :
  error (status m) <> None -> error (status (run m evs)) <> None.
Proof.
  unfold run; revert m; induction evs as [|ev evs IH]; intros m H; [exact H|].
  cbn [fold_left]; apply IH.
  destruct (step_error m ev) as [E|[msg E]]; rewrite E; [exact H|discriminate].
Qed.

(** A [start(batchSize)] with [batchSize > 0] on an idle manager, every
    awaited call completing normally, ends with [lastProcessedId] the id of
    the last document (unchanged when there are none), the [error] field as
    it was, and the manager idle. *)
Theorem restart_last_id m bs docs embss :
  isRunning m = false -> 0 < bs -> length embss = length (chunks bs docs) ->
  let y := run m ([EvStart bs; EvGetAllDone docs; EvResetDone] ++ batches_events embss) in
  lastProcessedId (status y) =
    match HNSW.last_opt docs with
    | Some d => Some (id d)
    | None => lastProcessedId (status m)
    end /\
  error (status y) = error (status m) /\ isRunning y = false.
Proof.
  intros Hr Hb He; cbv zeta.
  destruct m as [st r ss p sub]; simpl in Hr; subst r.
  unfold run; rewrite fold_left_app.
  cbn [fold_left step isRunning phase status submitted].
  unfold set_phase, set_status; cbn [step status isRunning shouldStop submitted phase].
  destruct (loop_last bs docs (length docs) Hb 0 0
              (mkMgr (mkStatus (length docs) (processed st) (lastProcessedId st)
                        (isComplete st) (error st))
                 true false (AwaitReset bs docs) sub) embss)
    as [A [B C]]; rewrite ?skipn_0; auto.
Qed.

End Extra.
End MigrationExtra.


(** * Concrete runs: every hypothesis of the theorems above is met on the
    integer instance, and the three corrected statements fail on it. *)
Module Checks.

Local Open Scope string_scope.

Local Abbreviation reachable :=
  (HNSWFacts.reachable (fun x : Z => x) Inst.dot Inst.num_truthy Inst.inv_log).
Local Abbreviation constructible :=
  (HNSWFacts.constructible (fun x : Z => x) Inst.dot Inst.num_truthy Inst.inv_log).

Lemma reachable_insert_all pts : forall g,
  reachable g -> Inst.insert_ok g pts = true -> reachable (Inst.insert_all g pts).
Proof.
  induction pts as [|p ps IH]; intros g Hg Hok; [exact Hg|].
  change (Inst.insert_all g (p :: ps)) with
    (Inst.insert_all (fst (Inst.addPoint (fst (fst p)) (snd (fst p)) (snd p) 100 g)) ps).
  cbn [Inst.insert_ok] in Hok.
  destruct (Inst.addPoint (fst (fst p)) (snd (fst p)) (snd p) 100 g)
    as [g' [t|e]] eqn:E; [|discriminate].
  apply IH; [|exact Hok].
  exact (HNSWFacts.reach_add _ _ _ _ g _ _ _ _ g' t Hg E).
Qed.

Lemma constructible_insert_all pts : forall g,
  constructible g -> constructible (Inst.insert_all g pts).
Proof.
  induction pts as [|p ps IH]; intros g Hg; [exact Hg|].
  change (Inst.insert_all g (p :: ps)) with
    (Inst.insert_all (fst (Inst.addPoint (fst (fst p)) (snd (fst p)) (snd p) 100 g)) ps).
  apply IH; apply HNSWFacts.cons_add; exact Hg.
Qed.

Lemma deg_okb_ok (g : Inst.Index) : Inst.deg_okb g = true -> HNSWFacts.deg_ok g.
Proof.
  unfold Inst.deg_okb, HNSWFacts.deg_ok; intros H k n Hin L lst HL Hn.
  rewrite forallb_forall in H; specialize (H _ Hin).
  rewrite forallb_forall in H.
  assert (HL' : In L (seq 0 (S (HNSW.level n)))) by (apply in_seq; lia).
  specialize (H L HL'); cbn [snd] in H; rewrite Hn in H.
  apply Nat.leb_le; exact H.
Qed.

Lemma reachable_g_two : reachable Inst.g_two.
Proof.
  unfold Inst.g_two; apply reachable_insert_all; [|vm_compute; reflexivity].
  exact (HNSWFacts.reach_new _ _ _ _ (Inst.config (Some 2) None)).
Qed.

(** C1: [search([0, 1], 1)] on [g_hop] pops "a", then "b", whose list holds
    "x": it raises.  [addPoint("n", [1, 0])] at level 0 on [g_dangling]
    searches layer 0 from "a", whose list holds "x": it raises. *)
Lemma dangling_id_raises_witness :
  Inst.search Inst.g_hop [0; 1]%Z 1 100 = HNSW.Err HNSW.TypeError /\
  snd (Inst.addPoint "n" [1; 0]%Z 0 100 Inst.g_dangling) = HNSW.Err HNSW.TypeError.
Proof.
  destruct (@HNSWFacts.dangling_id_raises Z Z (fun x => x) Inst.dot Inst.g_hop)
    as (_ & _ & Hs & _).
  destruct (@HNSWFacts.dangling_id_raises Z Z (fun x => x) Inst.dot Inst.g_dangling)
    as (_ & _ & _ & Ha).
  split.
  - refine (Hs [0; 1]%Z 1%Z 100 "a" Inst.node_ha _ _ _);
      [vm_compute; reflexivity|vm_compute; reflexivity|].
    right; exists Inst.node_ha, 0%Z; split; [vm_compute; reflexivity|].
    exists 1, ["a"; "b"], [HNSW.mkCand "b" 1], [HNSW.mkCand "b" 1; HNSW.mkCand "a" 0],
      Inst.node_hb.
    split; [lia|]; split; [|split].
    + eapply HNSWFacts.slr_step; [|apply HNSWFacts.slr_here].
      exists (HNSW.mkCand "a" 0), [], (HNSW.mkCand "a" 0), Inst.node_ha, ["b"].
      split; [vm_compute; reflexivity|]; split; [vm_compute; reflexivity|].
      split; [vm_compute; reflexivity|]; split; [vm_compute; reflexivity|].
      split; vm_compute; reflexivity.
    + exists (HNSW.mkCand "b" 1), [], (HNSW.mkCand "a" 0).
      split; [vm_compute; reflexivity|]; split; [vm_compute; reflexivity|].
      split; vm_compute; reflexivity.
    + exists ["a"; "x"], "x".
      split; [reflexivity|]; split; [right; left; reflexivity|vm_compute; reflexivity].
  - refine (Ha "n" [1; 0]%Z 0 100 "a" Inst.node_a _ _ _ _);
      [vm_compute; reflexivity|vm_compute; reflexivity|vm_compute; reflexivity|].
    right; exists Inst.node_a, 1%Z; split; [vm_compute; reflexivity|].
    apply HNSWFacts.clh_here.
    exists 0, ["a"], [HNSW.mkCand "a" 1], [HNSW.mkCand "a" 1], Inst.node_a.
    split; [lia|]; split; [apply HNSWFacts.slr_here|split].
    + exists (HNSW.mkCand "a" 1), [], (HNSW.mkCand "a" 1).
      split; [vm_compute; reflexivity|]; split; [vm_compute; reflexivity|].
      split; vm_compute; reflexivity.
    + exists ["x"], "x".
      split; [reflexivity|]; split; [left; reflexivity|vm_compute; reflexivity].
Defined.

(** C1 fails: the only node of [g_dangling] lists "x", which is no key;
    [search] and [addPoint] raise instead of skipping it. *)
Lemma dangling_search_raises :
  HNSW.mget (HNSW.nodes Inst.g_dangling) "a" = Some Inst.node_a /\
  In "x" (concat (HNSW.neighbors Inst.node_a)) /\
  HNSW.mget (HNSW.nodes Inst.g_dangling) "x" = None /\
  Inst.search Inst.g_dangling [1; 0]%Z 1 100 = HNSW.Err HNSW.TypeError /\
  snd (Inst.addPoint "n" [1; 0]%Z 0 100 Inst.g_dangling) = HNSW.Err HNSW.TypeError.
Proof.
  split; [vm_compute; reflexivity|].
  split; [left; reflexivity|].
  split; [vm_compute; reflexivity|].
  split; vm_compute; reflexivity.
Qed.

(** C2: [g_two] meets the degree bound, and so does the graph after the
    insertion of a node at level 1. *)
Lemma addPoint_degree_bound_witness :
  HNSWFacts.deg_ok Inst.g_two /\
  HNSWFacts.deg_ok (fst (Inst.addPoint "c" [1; 3]%Z 1 100 Inst.g_two)).
Proof.
  assert (H : HNSWFacts.deg_ok Inst.g_two) by (apply deg_okb_ok; vm_compute; reflexivity).
  exact (conj H (@HNSWFacts.addPoint_degree_bound Z Z (fun x => x) Inst.dot
                   Inst.g_two "c" [1; 3]%Z 1 100 H)).
Defined.

(** C3: inserting "a" again into [g_two]. *)
Lemma addPoint_duplicate_id_witness :
  HNSW.mhas (HNSW.nodes Inst.g_two) "a" = true /\
  Inst.addPoint "a" [0; 1]%Z 0 100 Inst.g_two = (Inst.g_two, HNSW.Err HNSW.DuplicateId).
Proof.
  assert (H : HNSW.mhas (HNSW.nodes Inst.g_two) "a" = true) by (vm_compute; reflexivity).
  exact (conj H (proj1 (@HNSWFacts.addPoint_duplicate_id Z Z (fun x => x) Inst.dot
                          Inst.g_two "a" [0; 1]%Z 0 100) H)).
Defined.

(** C4: a search on [g_three]. *)
Lemma search_beam_bounded_witness :
  Inst.search Inst.g_three [1; 3]%Z 3 100 =
    HNSW.Ok [HNSW.mkCand "b" 6; HNSW.mkCand "a" 3] /\
  length [HNSW.mkCand "b" 6; HNSW.mkCand "a" 3] <= Nat.max 1 (HNSW.efSearch Inst.g_three) /\
  NoDup (map HNSW.cid [HNSW.mkCand "b" 6; HNSW.mkCand "a" 3]).
Proof.
  assert (H : Inst.search Inst.g_three [1; 3]%Z 3 100 =
                HNSW.Ok [HNSW.mkCand "b" 6; HNSW.mkCand "a" 3])
    by (vm_compute; reflexivity).
  exact (conj H (@HNSWFacts.search_beam_bounded Z Z (fun x => x) Inst.dot
                   Inst.g_three [1; 3]%Z 3 100 _ H)).
Defined.

(** C4 fails: [g_three] stores three documents, [k = 3], and "c" is not in
    the result. *)
Lemma search_misses_document :
  length (HNSW.nodes Inst.g_three) = 3 /\
  In "c" (map fst (HNSW.nodes Inst.g_three)) /\
  Inst.search Inst.g_three [1; 3]%Z 3 100 =
    HNSW.Ok [HNSW.mkCand "b" 6; HNSW.mkCand "a" 3] /\
  ~ In "c" (map HNSW.cid [HNSW.mkCand "b" 6; HNSW.mkCand "a" 3]).
Proof.
  split; [vm_compute; reflexivity|].
  split; [vm_compute; right; right; left; reflexivity|].
  split; [vm_compute; reflexivity|].
  cbn; intros [H|[H|[]]]; discriminate.
Qed.

(** C5: a search on [g_pair] with [k = 1]. *)
Lemma search_sorted_at_most_k_witness :
  Inst.search Inst.g_pair [1; 3]%Z 1 100 = HNSW.Ok [HNSW.mkCand "b" 6] /\
  HNSWFacts.sorted_desc [HNSW.mkCand "b" 6] = true /\
  ((0 <= 1)%Z -> (Z.of_nat (length [HNSW.mkCand "b" 6]) <= 1)%Z).
Proof.
  assert (H : Inst.search Inst.g_pair [1; 3]%Z 1 100 = HNSW.Ok [HNSW.mkCand "b" 6])
    by (vm_compute; reflexivity).
  exact (conj H (proj2 (@HNSWFacts.search_sorted_at_most_k Z Z (fun x => x) Inst.dot
                          Inst.g_pair [1; 3]%Z 1 100) _ H)).
Defined.

(** C5 fails: with [k = -1] the result of [search] on [g_pair] has one
    element, more than [k]. *)
Lemma search_negative_k :
  Inst.search Inst.g_pair [1; 3]%Z (-1) 100 = HNSW.Ok [HNSW.mkCand "b" 6] /\
  ~ (Z.of_nat (length [HNSW.mkCand "b" 6]) <= -1)%Z.
Proof.
  split; [vm_compute; reflexivity|cbn; lia].
Qed.

(** C6: [g_two] is reachable. *)
Lemma reachable_entry_point_witness :
  reachable Inst.g_two /\
  (HNSW.entryPointId Inst.g_two = None <-> HNSW.nodes Inst.g_two = []).
Proof.
  exact (conj reachable_g_two
    (proj1 (@HNSWFacts.reachable_entry_point Z Z (fun x => x) Inst.dot
              Inst.num_truthy Inst.inv_log Inst.g_two reachable_g_two))).
Defined.

(** C10: inserting "c" at level 1 into [g_two] succeeds and raises
    [maxLevel]. *)
Lemma addPoint_entry_monotone_witness :
  reachable Inst.g_two /\
  Inst.addPoint "c" [1; 3]%Z 1 100 Inst.g_two =
    (fst (Inst.addPoint "c" [1; 3]%Z 1 100 Inst.g_two), HNSW.Ok ["c"; "b"; "a"]) /\
  HNSW.maxLevel Inst.g_two <= HNSW.maxLevel (fst (Inst.addPoint "c" [1; 3]%Z 1 100 Inst.g_two)).
Proof.
  assert (H : Inst.addPoint "c" [1; 3]%Z 1 100 Inst.g_two =
                (fst (Inst.addPoint "c" [1; 3]%Z 1 100 Inst.g_two), HNSW.Ok ["c"; "b"; "a"]))
    by (vm_compute; reflexivity).
  exact (conj reachable_g_two (conj H
    (proj1 (@HNSWFacts.addPoint_entry_monotone Z Z (fun x => x) Inst.dot
              Inst.num_truthy Inst.inv_log Inst.g_two "c" [1; 3]%Z 1 100 _ _
              reachable_g_two H)))).
Defined.

(** C9: the round trip on the graph of the C10 run, lanes being kept
    exactly by both conversions. *)
Lemma toJSON_fromJSON_toJSON_witness :
  (forall x : Z, x = x) /\
  constructible (fst (Inst.addPoint "c" [1; 3]%Z 1 100 Inst.g_two)) /\
  Inst.toJSON (Inst.fromJSON (Inst.toJSON (fst (Inst.addPoint "c" [1; 3]%Z 1 100 Inst.g_two)))) =
    Inst.toJSON (fst (Inst.addPoint "c" [1; 3]%Z 1 100 Inst.g_two)).
Proof.
  assert (Hr : forall x : Z, x = x) by reflexivity.
  assert (H : constructible (fst (Inst.addPoint "c" [1; 3]%Z 1 100 Inst.g_two))).
  { apply HNSWFacts.cons_add; unfold Inst.g_two; apply constructible_insert_all.
    exact (HNSWFacts.cons_new _ _ _ _ (Inst.config (Some 2) None)). }
  exact (conj Hr (conj H
    (@HNSWFacts.toJSON_fromJSON_toJSON Z Z (fun x => x) (fun x => x) Inst.dot
       Inst.num_truthy Inst.inv_log Hr _ H))).
Defined.

(** C8: the first batch of a migration over [docs3]. *)
Lemma migration_preserves_fields_witness :
  Migration.phase MInst.m_embed =
    Migration.AwaitEmbed 1 MInst.docs3 0 0 [MInst.doc "d1"] /\
  Migration.submitted (Migration.step MInst.m_embed (Migration.EvEmbedDone [[1%Z]])) =
    (Migration.submitted MInst.m_embed ++ [Migration.update_batch [MInst.doc "d1"] [[1%Z]]])%list.
Proof.
  assert (H : Migration.phase MInst.m_embed =
                Migration.AwaitEmbed 1 MInst.docs3 0 0 [MInst.doc "d1"])
    by (vm_compute; reflexivity).
  exact (conj H (proj1 (@MigrationFacts.migration_preserves_fields Z unit (list string)
                          MInst.graphAddPoint MInst.m_embed 1 MInst.docs3 0 0
                          [MInst.doc "d1"] [[1%Z]] H))).
Defined.

(** C7: the run over [docs3] stopped after one batch has [processed = 1] and
    is not complete; a new [start] processes all three documents. *)
Lemma stop_then_restart_witness :
  Migration.isRunning MInst.m_stopped = false /\
  Migration.processed (Migration.status MInst.m_stopped) = 1 /\
  Migration.isComplete (Migration.status MInst.m_stopped) = false /\
  Migration.isComplete (Migration.status
    (Migration.run MInst.m_stopped
       ([Migration.EvStart 1; Migration.EvGetAllDone MInst.docs3; Migration.EvResetDone] ++
        MigrationFacts.batches_events MInst.embss3)%list)) = true /\
  (MInst.docs3 <> [] ->
   Migration.processed (Migration.status
     (Migration.run MInst.m_stopped
        ([Migration.EvStart 1; Migration.EvGetAllDone MInst.docs3; Migration.EvResetDone] ++
         MigrationFacts.batches_events MInst.embss3)%list)) = length MInst.docs3).
Proof.
  assert (Hr : Migration.isRunning MInst.m_stopped = false) by (vm_compute; reflexivity).
  assert (Hl : length MInst.embss3 = length (MigrationFacts.chunks 1 MInst.docs3))
    by (vm_compute; reflexivity).
  destruct (proj2 (@MigrationFacts.stop_then_restart Z unit) MInst.m_stopped 1
              MInst.docs3 MInst.embss3 Hr (le_n 1) Hl) as [_ [_ [C [_ E]]]].
  split; [exact Hr|].
  split; [vm_compute; reflexivity|].
  split; [vm_compute; reflexivity|].
  exact (conj C E).
Defined.

End Checks.

(** * Concrete runs for the further properties *)

Module ExtraChecks.

Local Open Scope string_scope.

Local Abbreviation constructible :=
  (HNSWFacts.constructible (fun x : Z => x) Inst.dot Inst.num_truthy Inst.inv_log).

Definition Doc : Type := @Migration.VectorDocument Z unit.
Definition VZ : Type := @Vectoria.Vectoria Z Z unit.

Definition vdoc (k : string) (e : list Z) : Doc := Migration.mkDoc k "t" None (Some e) 0%Z.

Definition docs_abc : list Doc := [vdoc "a" [3; 0]%Z; vdoc "b" [3; 1]%Z; vdoc "c" [1; 3]%Z].

(** An initialized instance with empty stores and an empty index, [M = 2]. *)
Definition v0 : VZ :=
  Vectoria.mkVectoria (Vectoria.mkVStore [] [] None)
    (Inst.new_index (Inst.config (Some 2) None)) true.

(** [getRandomLevel()] gives 1 for the third insertion, 0 otherwise. *)
Definition lv (n : nat) : nat := if Nat.eqb n 2 then 1 else 0.

Definition indexDocuments :=
  @Vectoria.indexDocuments Z Z unit (fun x => x) (fun x => x) Inst.dot Inst.num_truthy
    Inst.inv_log.

Definition init := @Vectoria.init Z Z unit (fun x => x) Inst.num_truthy Inst.inv_log.

(** [v0] after [indexDocuments(docs_abc)]. *)
Definition v1 : VZ := fst (indexDocuments lv 100 docs_abc v0).

(** A new instance on the stores of [v1] (a page reload). *)
Definition v1_reload : VZ :=
  Vectoria.mkVectoria (Vectoria.db v1) (Inst.new_index (Inst.config None None)) false.

Definition addDocument :=
  @Vectoria.addDocument Z Z unit (fun x => x) (fun x => x) Inst.dot Inst.num_truthy
    Inst.inv_log.

Definition doc_d : Doc := Migration.mkDoc "d" "t" (Some tt) (Some [2; 2]%Z) 0%Z.

(** [v1] after [addDocument("d", "t", tt, [2; 2])]. *)
Definition v2 : VZ := fst (addDocument 0 100 "d" "t" tt [2; 2]%Z 0%Z v1).

(** A two-node index JSON with its parameters set. *)
Definition j_two : @HNSW.IndexJSON Z :=
  HNSW.mkIndexJSON 2 200 200 1%Z 0 (Some "a")
    [HNSW.mkNodeJSON "a" [1; 0]%Z 0 [["b"]]; HNSW.mkNodeJSON "b" [3; 1]%Z 0 [["a"]]].

(** A migration that failed while awaiting [getAllDocuments()]. *)
Definition m_failed : MInst.Mgr :=
  Migration.run MInst.m0 [Migration.EvStart 1; Migration.EvFail "boom"].

Definition restart_evs : list MInst.Ev :=
  [Migration.EvStart 1; Migration.EvGetAllDone MInst.docs3; Migration.EvResetDone].

Lemma constructible_g_two : constructible Inst.g_two.
Proof.
  unfold Inst.g_two; apply Checks.constructible_insert_all.
  exact (HNSWFacts.cons_new _ _ _ _ (Inst.config (Some 2) None)).
Qed.

Lemma constructible_v0 : constructible (Vectoria.index v0).
Proof. exact (HNSWFacts.cons_new _ _ _ _ (Inst.config (Some 2) None)). Qed.

Lemma mirrors_v0 : VectoriaFacts.mirrors (fun x : Z => x) (Vectoria.index v0)
                     (Vectoria.hnsw_nodes (Vectoria.db v0)).
Proof. split; [split; [constructor|intros k r []]|intro k; reflexivity]. Qed.

Lemma run_v0 : indexDocuments lv 100 docs_abc v0 = (v1, HNSW.Ok tt).
Proof. vm_compute; reflexivity. Qed.

Lemma constructible_v1 : constructible (Vectoria.index v1).
Proof.
  assert (E : Vectoria.index v1 =
              fst (Vectoria.index_loop (fun x : Z => x) Inst.dot lv 100 docs_abc 0 []
                     (Vectoria.index v0))) by (vm_compute; reflexivity).
  rewrite E; apply VectoriaFacts.index_loop_constructible, constructible_v0.
Qed.

Lemma stored_v1 :
  VectoriaFacts.mirrors (fun x : Z => x) (Vectoria.index v1)
    (Vectoria.hnsw_nodes (Vectoria.db v1)) /\
  Vectoria.meta (Vectoria.db v1) =
    Some (Vectoria.index_meta (HNSW.toJSON (fun x : Z => x) (Vectoria.index v1))).
Proof.
  exact (VectoriaFacts.index_persist _ _ _ _ _ lv 100 docs_abc v0 v1 eq_refl
           constructible_v0 mirrors_v0 run_v0).
Qed.

(** [addPoint "c"] at level 1 into [g_two] touches "c", "b" and "a". *)
Lemma addPoint_touched_witness :
  constructible Inst.g_two /\
  Inst.addPoint "c" [1; 3]%Z 1 100 Inst.g_two =
    (fst (Inst.addPoint "c" [1; 3]%Z 1 100 Inst.g_two), HNSW.Ok ["c"; "b"; "a"]) /\
  NoDup ["c"; "b"; "a"] /\ In "c" ["c"; "b"; "a"].
Proof.
  assert (H : Inst.addPoint "c" [1; 3]%Z 1 100 Inst.g_two =
                (fst (Inst.addPoint "c" [1; 3]%Z 1 100 Inst.g_two), HNSW.Ok ["c"; "b"; "a"]))
    by (vm_compute; reflexivity).
  destruct (@HNSWExtra.addPoint_touched Z Z (fun x => x) Inst.dot Inst.num_truthy
              Inst.inv_log Inst.g_two "c" [1; 3]%Z 1 100 _ _ constructible_g_two H)
    as [A [B _]].
  exact (conj constructible_g_two (conj H (conj A B))).
Defined.

(** A search on [g_two]: "b" is a stored node and its score is the
    similarity to its vector. *)
Lemma search_results_scored_witness :
  constructible Inst.g_two /\
  Inst.search Inst.g_two [1; 3]%Z 1 100 = HNSW.Ok [HNSW.mkCand "b" 6] /\
  exists n, HNSW.mget (HNSW.nodes Inst.g_two) "b" = Some n /\
    6%Z = Inst.dot [1; 3]%Z (HNSW.vector n).
Proof.
  assert (H : Inst.search Inst.g_two [1; 3]%Z 1 100 = HNSW.Ok [HNSW.mkCand "b" 6])
    by (vm_compute; reflexivity).
  exact (conj constructible_g_two (conj H
    (@HNSWExtra.search_results_scored Z Z (fun x => x) Inst.dot Inst.num_truthy
       Inst.inv_log Inst.g_two [1; 3]%Z 1 100 _ constructible_g_two H
       (HNSW.mkCand "b" 6) (or_introl eq_refl)))).
Defined.

(** The same search returns a non-empty list. *)
Lemma search_nonempty_witness :
  HNSW.entryPointId Inst.g_two <> None /\ (1 <= 1)%Z /\
  Inst.search Inst.g_two [1; 3]%Z 1 100 = HNSW.Ok [HNSW.mkCand "b" 6] /\
  [HNSW.mkCand "b" 6] <> [].
Proof.
  assert (H1 : HNSW.entryPointId Inst.g_two <> None) by (vm_compute; discriminate).
  assert (H2 : (1 <= 1)%Z) by lia.
  assert (H : Inst.search Inst.g_two [1; 3]%Z 1 100 = HNSW.Ok [HNSW.mkCand "b" 6])
    by (vm_compute; reflexivity).
  exact (conj H1 (conj H2 (conj H
    (@HNSWExtra.search_nonempty Z Z (fun x => x) Inst.dot Inst.g_two [1; 3]%Z 1 100 _
       H1 H2 H)))).
Defined.

(** [j_two] loads and saves back unchanged. *)
Lemma toJSON_fromJSON_witness :
  NoDup (map HNSW.jid (HNSW.jnodes j_two)) /\ HNSW.jM j_two <> 0 /\
  Inst.toJSON (Inst.fromJSON j_two) = j_two.
Proof.
  assert (H1 : NoDup (map HNSW.jid (HNSW.jnodes j_two))).
  { cbn; constructor; [intros [H|[]]; discriminate|constructor; [intros []|constructor]]. }
  assert (H2 : forall nd x, In nd (HNSW.jnodes j_two) -> In x (HNSW.jvector nd) ->
                 (fun x : Z => x) ((fun x : Z => x) x) = x) by reflexivity.
  assert (H3 : HNSW.jM j_two <> 0) by discriminate.
  assert (H4 : HNSW.jefConstruction j_two <> 0) by discriminate.
  assert (H5 : HNSW.jefSearch j_two <> 0) by discriminate.
  assert (H6 : Inst.num_truthy (HNSW.jlevelMultiplier j_two) = true) by reflexivity.
  exact (conj H1 (conj H3
    (@HNSWExtra.toJSON_fromJSON Z Z (fun x => x) (fun x => x) Inst.num_truthy Inst.inv_log
       j_two H1 H2 H3 H4 H5 H6))).
Defined.

(** [indexDocuments(docs_abc)] on [v0] leaves the node store mirroring the
    index. *)
Lemma indexDocuments_persists_witness :
  indexDocuments lv 100 docs_abc v0 = (v1, HNSW.Ok tt) /\
  VectoriaFacts.mirrors (fun x : Z => x) (Vectoria.index v1)
    (Vectoria.hnsw_nodes (Vectoria.db v1)).
Proof.
  exact (conj run_v0 (proj1
    (@VectoriaFacts.indexDocuments_persists Z Z unit (fun x => x) (fun x => x) Inst.dot
       Inst.num_truthy Inst.inv_log lv 100 docs_abc v0 v1 eq_refl constructible_v0
       mirrors_v0 run_v0))).
Defined.

(** Indexing "a" again on [v1] fails and writes nothing. *)
Lemma indexDocuments_duplicate_witness :
  HNSW.mhas (HNSW.nodes (Vectoria.index v1)) "a" = true /\
  Vectoria.db (fst (indexDocuments lv 100 ([] ++ [vdoc "a" [0; 1]%Z]) v1)) = Vectoria.db v1.
Proof.
  assert (H : HNSW.mhas (HNSW.nodes (Vectoria.index v1)) "a" = true)
    by (vm_compute; reflexivity).
  exact (conj H (proj2
    (@VectoriaFacts.indexDocuments_duplicate Z Z unit (fun x => x) (fun x => x) Inst.dot
       Inst.num_truthy Inst.inv_log lv 100 [] (vdoc "a" [0; 1]%Z) [] [0; 1]%Z v1
       eq_refl eq_refl (or_introl H)))).
Defined.

(** [init()] on a reload of [v1] gets the nodes of [v1]'s index back. *)
Lemma init_reloads_witness :
  Vectoria.initialized v1_reload = false /\
  forall k, HNSW.mget (HNSW.nodes (Vectoria.index (init v1_reload))) k =
            HNSW.mget (HNSW.nodes (Vectoria.index v1)) k.
Proof.
  destruct stored_v1 as [Hm Hmeta].
  exact (conj eq_refl (proj1 (proj2 (proj2
    (@VectoriaFacts.init_reloads Z Z unit (fun x => x) (fun x => x) Inst.dot
       Inst.num_truthy Inst.inv_log (fun x => eq_refl) v1_reload (Vectoria.index v1)
       eq_refl constructible_v1 Hm Hmeta))))).
Defined.

(** A search after the reload of [v1]. *)
Lemma init_search_same_witness :
  Inst.search (Vectoria.index (init v1_reload)) [1; 3]%Z 2 100 =
  Inst.search (Vectoria.index v1) [1; 3]%Z 2 100.
Proof.
  destruct stored_v1 as [Hm Hmeta].
  exact (@VectoriaFacts.init_search_same Z Z unit (fun x => x) (fun x => x) Inst.dot
           Inst.num_truthy Inst.inv_log (fun x => eq_refl) v1_reload (Vectoria.index v1)
           [1; 3]%Z 2 100 eq_refl constructible_v1 Hm Hmeta).
Defined.

(** The same, through [indexDocuments] from [v0]. *)
Lemma reload_after_index_witness :
  indexDocuments lv 100 docs_abc v0 = (v1, HNSW.Ok tt) /\
  Inst.search (Vectoria.index (init v1_reload)) [1; 3]%Z 2 100 =
  Inst.search (Vectoria.index v1) [1; 3]%Z 2 100.
Proof.
  exact (conj run_v0
    (@VectoriaFacts.reload_after_index Z Z unit (fun x => x) (fun x => x) Inst.dot
       Inst.num_truthy Inst.inv_log (fun x => eq_refl) lv 100 docs_abc v0 v1
       (Inst.new_index (Inst.config None None)) [1; 3]%Z 2 100 eq_refl constructible_v0
       mirrors_v0 run_v0)).
Defined.

(** The brute-force search over the documents of [v1] with [topK = 2]. *)
Lemma search_brute_results_witness :
  VectoriaFacts.docs_ok (Vectoria.documents (Vectoria.db v1)) /\
  length (Vectoria.search_brute Inst.dot (Vectoria.db v1) [1; 3]%Z 2) =
    Nat.min (Z.to_nat 2)
      (length (filter Vectoria.has_embedding (map snd (Vectoria.documents (Vectoria.db v1))))).
Proof.
  assert (H : VectoriaFacts.docs_ok (Vectoria.documents (Vectoria.db v1))).
  { assert (E : Vectoria.documents (Vectoria.db v1) =
                [("a", vdoc "a" [3; 0]%Z); ("b", vdoc "b" [3; 1]%Z); ("c", vdoc "c" [1; 3]%Z)])
      by (vm_compute; reflexivity).
    rewrite E; split.
    - cbn; constructor; [intros [H|[H|[]]]; discriminate|].
      constructor; [intros [H|[]]; discriminate|constructor; [intros []|constructor]].
    - intros k d Hin; cbn in Hin.
      destruct Hin as [Hin|[Hin|[Hin|[]]]]; injection Hin as <- <-; reflexivity. }
  assert (Hk : (0 <= 2)%Z) by lia.
  exact (conj H (proj1 (@VectoriaFacts.search_brute_results Z unit Inst.dot
                          (Vectoria.db v1) [1; 3]%Z 2 H Hk))).
Defined.

(** A full save of [v1]. *)
Lemma saveIndex_full_witness :
  VectoriaFacts.store_ok (Vectoria.hnsw_nodes (Vectoria.db v1)) /\
  VectoriaFacts.store_ok
    (Vectoria.hnsw_nodes (Vectoria.db (Vectoria.saveIndex (fun x : Z => x) None v1))).
Proof.
  destruct stored_v1 as [[Hs _] _].
  exact (conj Hs (proj1
    (@VectoriaFacts.saveIndex_full Z Z unit (fun x => x) (fun x => x) Inst.dot
       Inst.num_truthy Inst.inv_log v1 constructible_v1 Hs))).
Defined.

(** [addDocument] of "d" on [v1]. *)
Lemma initialized_v1 : Vectoria.initialized v1 = true.
Proof. vm_compute; reflexivity. Qed.

Lemma run_add :
  @Vectoria.addDocument Z Z unit (fun x => x) (fun x => x) Inst.dot Inst.num_truthy
    Inst.inv_log 0 100 "d" "t" tt [2; 2]%Z 0%Z v1 = (v2, HNSW.Ok doc_d).
Proof. vm_compute; reflexivity. Qed.

Lemma addDocument_persists_witness :
  addDocument 0 100 "d" "t" tt [2; 2]%Z 0%Z v1 = (v2, HNSW.Ok doc_d) /\
  Migration.dget (Vectoria.documents (Vectoria.db v2)) "d" = Some doc_d.
Proof.
  destruct stored_v1 as [Hm _].
  exact (conj run_add (proj2 (proj2 (proj2
    (@VectoriaFacts.addDocument_persists Z Z unit (fun x => x) (fun x => x) Inst.dot
       Inst.num_truthy Inst.inv_log 0 100 "d" "t" tt [2; 2]%Z 0%Z v1 v2 doc_d
       initialized_v1 constructible_v1 Hm run_add))))).
Defined.

(** A new manager, then [start(1)] up to the first batch. *)
Lemma running_iff_busy_witness :
  Migration.isRunning MInst.m0 = MigrationExtra.busy (Migration.phase MInst.m0) /\
  Migration.isRunning (Migration.run MInst.m0 restart_evs) =
    MigrationExtra.busy (Migration.phase (Migration.run MInst.m0 restart_evs)).
Proof.
  assert (H : Migration.isRunning MInst.m0 = MigrationExtra.busy (Migration.phase MInst.m0))
    by reflexivity.
  exact (conj H (@MigrationExtra.running_iff_busy Z unit MInst.m0 restart_evs H)).
Defined.

(** The error of [m_failed] survives a new [start]. *)
Lemma error_never_cleared_witness :
  Migration.error (Migration.status m_failed) <> None /\
  Migration.error (Migration.status (Migration.run m_failed restart_evs)) <> None.
Proof.
  assert (H : Migration.error (Migration.status m_failed) <> None)
    by (vm_compute; discriminate).
  exact (conj H (@MigrationExtra.error_never_cleared Z unit m_failed restart_evs H)).
Defined.

(** A complete run over [docs3] in batches of one ends at "d3". *)
Lemma restart_last_id_witness :
  length MInst.embss3 = length (MigrationFacts.chunks 1 MInst.docs3) /\
  Migration.lastProcessedId (Migration.status
    (Migration.run MInst.m0 (restart_evs ++ MigrationFacts.batches_events MInst.embss3)%list))
  = Some "d3".
Proof.
  assert (Hr : Migration.isRunning MInst.m0 = false) by reflexivity.
  assert (Hl : length MInst.embss3 = length (MigrationFacts.chunks 1 MInst.docs3))
    by (vm_compute; reflexivity).
  exact (conj Hl (proj1 (@MigrationExtra.restart_last_id Z unit MInst.m0 1 MInst.docs3
                           MInst.embss3 Hr (le_n 1) Hl))).
Defined.

End ExtraChecks.
